(** * hicDetectLoops: loop calling on a Hi-C contact matrix

    A shallow embedding of [hicexplorer/hicDetectLoops.py]: the per-diagonal
    z-score normaliser ([compute_zscore_matrix]), the candidate screener
    ([compute_long_range_contacts]) and the tester, cluster collapse,
    Benjamini-Hochberg cut-off and duplicate scan of
    [candidate_uniform_distribution_test]; then the coordinate mapping
    ([cluster_to_genome_position_mapping]), the lines written by
    [write_bedgraph] and the loop of [main] that hands the chromosomes to
    worker processes.

    Numbers.  numpy's float64 is modelled by [float64]: NaN, the two
    infinities and the finite doubles, a finite double being the real number
    it denotes (there is no signed zero).  An arithmetic operation on finite
    operands takes the exact real result and stores it: [rnd], a parameter
    of the model (class [Rounding]), maps a real number to the double that
    stores it, which is an infinity when the result overflows.  The special
    values follow IEEE 754.  A property stated with a [Rounding] in its
    context holds for every rounding function, that of the machine
    included.  [exact_rounding] stores every real number as it is; it is the
    instance in force where no other is in scope: the worked examples are
    computed with it, and the few properties stated outside such a context
    are about it.

    External libraries.  [scipy.stats.mannwhitneyu] fed with the
    [np.random.uniform] baseline, and sklearn's [euclidean_distances]
    followed by [dbscan], are parameters of the model, and so are
    [HiCMatrix.getBinPos] and the worker processes of [main]. *)

From Stdlib Require Import Reals Lra Lia ZArith.
From stdpp Require Import base list gmap sorting.

(** ** Python results *)

Inductive exn := ValueError | IndexError.

Inductive result (A : Type) :=
  | Ok (a : A)
  | Raise (e : exn).
Arguments Ok {A} a.
Arguments Raise {A} e.

#[export] Instance result_ret : MRet result := fun A a => Ok a.
#[export] Instance result_bind : MBind result := fun A B f m =>
  match m with
  | Ok a => f a
  | Raise e => Raise e
  end.

(** ** float64 *)

Inductive float64 :=
  | NaN
  | PInf
  | NInf
  | Fin (r : R).

Definition Rleb (a b : R) : bool := if Rle_dec a b then true else false.
Definition Rltb (a b : R) : bool := if Rlt_dec a b then true else false.
Definition Reqb (a b : R) : bool := if Req_dec_T a b then true else false.

Arguments Rleb : simpl never.
Arguments Rltb : simpl never.
Arguments Reqb : simpl never.

(** [rnd r]: the double that stores the real number [r], the result of an
    arithmetic operation on finite doubles. *)
Class Rounding := { rnd : R -> float64 }.

(** The largest finite double, 2^1024 - 2^971. *)
Definition float_max : R := IZR (2 ^ 1024 - 2 ^ 971).

Definition fneg (x : float64) : float64 :=
  match x with
  | NaN => NaN
  | PInf => NInf
  | NInf => PInf
  | Fin r => Fin (- r)
  end.

Section Model.

Context {rounding : Rounding}.

Definition fadd (x y : float64) : float64 :=
  match x, y with
  | NaN, _ | _, NaN => NaN
  | PInf, NInf | NInf, PInf => NaN
  | PInf, _ | _, PInf => PInf
  | NInf, _ | _, NInf => NInf
  | Fin a, Fin b => rnd (a + b)
  end.

Definition fsub (x y : float64) : float64 := fadd x (fneg y).

(** The sign of an infinite product or quotient: [PInf] when [pos]. *)
Definition inf_of_sign (pos : bool) : float64 := if pos then PInf else NInf.

Definition fmul (x y : float64) : float64 :=
  match x, y with
  | NaN, _ | _, NaN => NaN
  | Fin a, Fin b => rnd (a * b)
  | PInf, PInf | NInf, NInf => PInf
  | PInf, NInf | NInf, PInf => NInf
  | PInf, Fin a | Fin a, PInf =>
      if Reqb a 0 then NaN else inf_of_sign (Rltb 0 a)
  | NInf, Fin a | Fin a, NInf =>
      if Reqb a 0 then NaN else inf_of_sign (Rltb a 0)
  end.

Definition fdiv (x y : float64) : float64 :=
  match x, y with
  | NaN, _ | _, NaN => NaN
  | Fin a, Fin b =>
      if Reqb b 0
      then (if Reqb a 0 then NaN else inf_of_sign (Rltb 0 a))
      else rnd (a / b)
  | Fin _, (PInf | NInf) => Fin 0
  | (PInf | NInf), (PInf | NInf) => NaN
  | PInf, Fin b => inf_of_sign (Rleb 0 b)
  | NInf, Fin b => inf_of_sign (Rltb b 0)
  end.

(** [np.square] *)
Definition fsquare (x : float64) : float64 := fmul x x.

(** [np.sqrt] *)
Definition fsqrt (x : float64) : float64 :=
  match x with
  | NaN | NInf => NaN
  | PInf => PInf
  | Fin r => if Rltb r 0 then NaN else rnd (sqrt r)
  end.

(** [x <= y], [x < y], [x == y]: false as soon as one side is NaN. *)
Definition fle (x y : float64) : bool :=
  match x, y with
  | NaN, _ | _, NaN => false
  | NInf, _ | _, PInf => true
  | PInf, _ | _, NInf => false
  | Fin a, Fin b => Rleb a b
  end.

Definition flt (x y : float64) : bool :=
  match x, y with
  | NaN, _ | _, NaN => false
  | PInf, _ | _, NInf => false
  | NInf, _ | _, PInf => true
  | Fin a, Fin b => Rltb a b
  end.

Definition feq (x y : float64) : bool :=
  match x, y with
  | PInf, PInf | NInf, NInf => true
  | Fin a, Fin b => Reqb a b
  | _, _ => false
  end.

(** [np.isnan], [np.isfinite] *)
Definition isnan (x : float64) : bool :=
  match x with NaN => true | _ => false end.

Definition isfinite (x : float64) : bool :=
  match x with Fin _ => true | _ => false end.

(** [np.nan_to_num]: NaN becomes 0, an infinity the largest double of its
    sign. *)
Definition nan_to_num (x : float64) : float64 :=
  match x with
  | NaN => Fin 0
  | PInf => Fin float_max
  | NInf => Fin (- float_max)
  | Fin r => Fin r
  end.

(** A Python [int] read as a double: an array length or a loop index, below
    2^53, where the conversion is exact. *)
Definition of_nat (n : nat) : float64 := Fin (IZR (Z.of_nat n)).

(** ** Sparse matrices

    A [scipy.sparse.csr_matrix] is its shape and its stored entries in
    storage order; [data] is the array of stored values.  The matrices
    handed to the pipeline are in canonical format: entries sorted by row,
    then by column, one per position. *)

Definition entry : Type := Z * Z * float64.

Record csr_matrix := {
  shape : Z * Z;
  stored : list entry;
}.

Definition coord (e : entry) : Z * Z := e.1.
Definition value (e : entry) : float64 := e.2.

Definition data (m : csr_matrix) : list float64 := value <$> stored m.

(** [m.nonzero()]: the coordinates of the stored entries whose value
    compares different from 0 (NaN does). *)
Definition nonzero (m : csr_matrix) : list (Z * Z) :=
  coord <$> filter (fun e => feq (value e) (Fin 0) = false) (stored m).

(** [m.eliminate_zeros()] *)
Definition eliminate_zeros (m : csr_matrix) : csr_matrix :=
  {| shape := shape m;
     stored := filter (fun e => feq (value e) (Fin 0) = false) (stored m) |}.

(** [csr_matrix((data, (instances, features)), shape=...)]: the three arrays
    must have one length.  The coordinates come from [nonzero()] of a
    canonical matrix, so that the COO to CSR conversion keeps their order. *)
Definition csr_of_coo (sh : Z * Z) (vals : list float64) (ij : list (Z * Z))
  : result csr_matrix :=
  if decide (length vals = length ij)
  then Ok {| shape := sh; stored := zip ij vals |}
  else Raise ValueError.

(** [m.toarray()[r, c]]: duplicates are summed, absent positions are 0. *)
Definition toarray (m : csr_matrix) (r c : Z) : float64 :=
  foldr (fun e acc => if decide (coord e = (r, c)) then fadd (value e) acc else acc)
        (Fin 0) (stored m).

(** ** The diagonal normaliser *)

(** [arr[d] += x] on a numpy array. *)
Definition add_at (arr : list float64) (d : nat) (x : float64)
  : result (list float64) :=
  match arr !! d with
  | Some a => Ok (<[d := fadd a x]> arr)
  | None => Raise IndexError
  end.

(** The body of the [for i in range(pN)] loop of [_sum_per_distance], over
    the pairs [(pDistances[i], pData[i])]. *)
Fixpoint sum_per_distance_loop (acc : list float64 * list float64)
    (l : list (nat * float64)) : result (list float64 * list float64) :=
  match l with
  | [] => Ok acc
  | (d, x) :: l' =>
      s ← add_at acc.1 d x;
      c ← add_at acc.2 d (Fin 1);
      sum_per_distance_loop (s, c) l'
  end.

Definition _sum_per_distance (pSum_per_distance pData : list float64)
    (pDistances : list nat) (pN : nat)
  : result (list float64 * list float64) :=
  let distance_count := replicate (length pSum_per_distance) (Fin 0) in
  if decide (pN <= length pDistances /\ pN <= length pData)
  then sum_per_distance_loop (pSum_per_distance, distance_count)
                             (take pN (zip pDistances pData))
  else Raise IndexError.

(** The second loop of [compute_zscore_matrix]:
    [sigma_2[d] += np.square(data[i] - mean_adjusted[d])]. *)
Fixpoint sigma_2_loop (mean_adjusted sigma_2 : list float64)
    (l : list (nat * float64)) : result (list float64) :=
  match l with
  | [] => Ok sigma_2
  | (d, x) :: l' =>
      match mean_adjusted !! d with
      | Some mu =>
          s ← add_at sigma_2 d (fsquare (fsub x mu));
          sigma_2_loop mean_adjusted s l'
      | None => Raise IndexError
      end
  end.

(** The third loop: [(pMatrix.data[i] - mean_adjusted[d]) / sigma[d]]. *)
Definition zscore_at (mean_adjusted sigma : list float64)
    (dx : nat * float64) : result float64 :=
  match mean_adjusted !! dx.1, sigma !! dx.1 with
  | Some mu, Some sg => Ok (fdiv (fsub dx.2 mu) sg)
  | _, _ => Raise IndexError
  end.

Definition distance (ij : Z * Z) : nat := Z.to_nat (Z.abs (ij.1 - ij.2)).

(** The first two passes of [compute_zscore_matrix]: the arrays
    [mean_adjusted] and [sigma], indexed by diagonal distance.  Every
    bucket of [sum_per_distance] starts at 1.  The loops run over
    [range(len(instances))]; [instances] is never longer than [data]. *)
Definition zscore_statistics (pMatrix : csr_matrix)
  : result (list float64 * list float64) :=
  let ij := nonzero pMatrix in
  let n := Z.to_nat (shape pMatrix).1 in
  let data := nan_to_num <$> data pMatrix in
  let distances := distance <$> ij in
  let sigma_2 := replicate n (Fin 0) in
  let sum_per_distance := replicate n (Fin 1) in
  '(sum_per_distance, distance_count) ←
     _sum_per_distance sum_per_distance data distances (length ij);
  let mean_adjusted := zip_with fdiv sum_per_distance distance_count in
  sigma_2 ← sigma_2_loop mean_adjusted sigma_2 (zip distances data);
  let sigma_2 := zip_with fdiv sigma_2 distance_count in
  Ok (mean_adjusted, fsqrt <$> sigma_2).

Definition compute_zscore_matrix (pMatrix : csr_matrix) : result csr_matrix :=
  let ij := nonzero pMatrix in
  let raw := data pMatrix in
  let data := nan_to_num <$> raw in
  let distances := distance <$> ij in
  '(mean_adjusted, sigma) ← zscore_statistics pMatrix;
  zs ← mapM (zscore_at mean_adjusted sigma) (zip distances raw);
  csr_of_coo (shape pMatrix) (zs ++ drop (length ij) data) ij.

(** ** The candidate screener *)

(** [np.logical_and] on two one-dimensional boolean arrays, with numpy's
    broadcasting: the lengths agree, or one of them is 1. *)
Definition logical_and (a b : list bool) : result (list bool) :=
  if decide (length a = length b) then Ok (zip_with andb a b)
  else match a, b with
       | [x], _ => Ok (andb x <$> b)
       | _, [y] => Ok ((fun x => andb x y) <$> a)
       | _, _ => Raise ValueError
       end.

(** [arr[mask]] for a boolean array [mask]: the lengths must agree, except
    that numpy accepts a mask without elements on every array and selects
    nothing. *)
Definition bool_index {A} (arr : list A) (mask : list bool) : result (list A) :=
  if decide (length mask = length arr \/ length mask = 0)
  then Ok ((zip arr mask) ≫= fun am : A * bool => if am.2 then [am.1] else [])
  else Raise IndexError.

(** Lines 140-163 of [compute_long_range_contacts]: [None] is the
    "No loops detected" return, [Some candidates] continues to the tester.
    The two masks are combined index by index of the two [data] arrays. *)
Definition screen (pHiCMatrix pZscoreMatrix : csr_matrix)
    (pZscoreThreshold pPeakInteractionsThreshold : float64)
  : result (option (list (Z * Z))) :=
  let zscore_matrix := eliminate_zeros pZscoreMatrix in
  let ij := nonzero zscore_matrix in
  let zdata := data zscore_matrix in
  let mask := (fun z => fle pZscoreThreshold z) <$> zdata in
  let mask_interactions :=
    (fun v => flt pPeakInteractionsThreshold v) <$> data pHiCMatrix in
  mask ← logical_and mask mask_interactions;
  _ ← bool_index zdata mask;
  ij ← bool_index ij mask;
  if decide (length ij = 0) then Ok None else Ok (Some ij).

(** ** The neighbourhood of a candidate *)

(** The indices selected by the slice [start:stop] on an axis of length
    [n]. *)
Definition slice_bound (n k : Z) : Z :=
  if decide (k < 0)%Z then Z.max 0 (k + n) else Z.min k n.

Definition py_slice (n start stop : Z) : list Z :=
  seqZ (slice_bound n start) (slice_bound n stop - slice_bound n start).

Definition window_start (x w : Z) : Z :=
  if decide (x - w > 0)%Z then (x - w)%Z else 0%Z.

Definition window_end (x w x_max : Z) : Z :=
  if decide (x + w < x_max)%Z then (x + w)%Z else x_max.

(** The positions of [matrix[start_x:end_x, start_y:end_y]] in the order of
    [.toarray().flatten()]. *)
Definition neighborhood_positions (sh : Z * Z) (candidate : Z * Z) (w : Z)
  : list (Z * Z) :=
  let start_x := window_start candidate.1 w in
  let end_x := window_end candidate.1 w sh.1 in
  let start_y := window_start candidate.2 w in
  let end_y := window_end candidate.2 w sh.2 in
  r ← py_slice sh.1 start_x end_x;
  c ← py_slice sh.2 start_y end_y;
  [(r, c)].

Definition neighborhood (m : csr_matrix) (candidate : Z * Z) (w : Z)
  : list float64 :=
  (fun rc => toarray m rc.1 rc.2) <$> neighborhood_positions (shape m) candidate w.

(** [np.min], [np.max]: NaN propagates, an empty array raises. *)
Definition fmin (x y : float64) : float64 :=
  if isnan x || isnan y then NaN else if fle x y then x else y.
Definition fmax (x y : float64) : float64 :=
  if isnan x || isnan y then NaN else if fle x y then y else x.

Definition np_min (l : list float64) : result float64 :=
  match l with
  | [] => Raise ValueError
  | x :: l' => Ok (foldl fmin x l')
  end.
Definition np_max (l : list float64) : result float64 :=
  match l with
  | [] => Raise ValueError
  | x :: l' => Ok (foldl fmax x l')
  end.

(** ** Sorting and the Benjamini-Hochberg threshold *)

(** The order of [np.sort]: ascending, NaN last. *)
Definition sort_le (x y : float64) : bool := fle x y || isnan y.

Fixpoint sort_insert (x : float64) (l : list float64) : list float64 :=
  match l with
  | [] => [x]
  | y :: l' => if sort_le x y then x :: y :: l' else y :: sort_insert x l'
  end.

Definition np_sort (l : list float64) : list float64 :=
  foldr sort_insert [] l.

(** [e if ~np.isnan(e) else 1] *)
Definition nan_to_one (e : float64) : float64 :=
  if isnan e then Fin 1 else e.

(** [pQValue * (i + 1) / len(pvalues_)] *)
Definition bh_cutoff (pQValue : float64) (i m : nat) : float64 :=
  fdiv (fmul pQValue (of_nat (i + 1))) (of_nat m).

(** The loop of lines 271-274 over [enumerate(pvalues_)], from index [i]. *)
Fixpoint largest_p_loop (pQValue : float64) (m i : nat)
    (pvalues_ : list float64) (largest_p_i : float64) : float64 :=
  match pvalues_ with
  | [] => largest_p_i
  | p :: rest =>
      largest_p_loop pQValue m (S i) rest
        (if fle p (bh_cutoff pQValue i m)
         then (if fle largest_p_i p then p else largest_p_i)
         else largest_p_i)
  end.

Definition fdr_pvalues (pvalues : list float64) : list float64 :=
  np_sort (nan_to_one <$> pvalues).

Definition fdr_threshold (pQValue : float64) (pvalues : list float64) : float64 :=
  let pvalues_ := fdr_pvalues pvalues in
  largest_p_loop pQValue (length pvalues_) 0 pvalues_ NInf.

(** Lines 277-280: the candidates whose p-value is below the threshold,
    with these p-values.  [pCandidates] and [pvalues] were indexed by one
    mask and run in parallel. *)
Definition fdr_accept (largest_p_i : float64)
    (pCandidates : list (Z * Z)) (pvalues : list float64)
  : list ((Z * Z) * float64) :=
  filter (fun cp => flt cp.2 largest_p_i = true) (zip pCandidates pvalues).

(** ** Cluster collapse *)

(** The loop of lines 244-258 over [enumerate(clusters)], from index [i]:
    [cluster_dict] maps a cluster id to the index and p-value of its current
    representative. *)
Fixpoint cluster_loop (pvalues : list float64) (i : nat) (clusters : list Z)
    (mask : list bool) (cluster_dict : gmap Z (nat * float64))
  : result (list bool) :=
  match clusters with
  | [] => Ok mask
  | cluster :: rest =>
      if decide (cluster = (-1)%Z)
      then cluster_loop pvalues (S i) rest (mask ++ [true]) cluster_dict
      else
        match pvalues !! i with
        | None => Raise IndexError
        | Some p =>
            match cluster_dict !! cluster with
            | Some (j, pj) =>
                if flt p pj
                then cluster_loop pvalues (S i) rest
                       (<[j := false]> mask ++ [true])
                       (<[cluster := (i, p)]> cluster_dict)
                else cluster_loop pvalues (S i) rest (mask ++ [false])
                       cluster_dict
            | None =>
                cluster_loop pvalues (S i) rest (mask ++ [true])
                  (<[cluster := (i, p)]> cluster_dict)
            end
        end
  end.

Definition cluster_mask (pvalues : list float64) (clusters : list Z)
  : result (list bool) :=
  cluster_loop pvalues 0 clusters [] ∅.

(** ** Canonical orientation and the duplicate scan *)

(** Lines 285-289: swap so that the first index is not above the second. *)
Definition canonical (candidate : Z * Z) : Z * Z :=
  if decide (candidate.1 > candidate.2)%Z
  then (candidate.2, candidate.1)
  else candidate.

(** Lines 294-299, from index [i]: the indices to delete. *)
Fixpoint duplicate_scan (i : nat) (accepted_index : list (Z * Z))
    (duplicate_set_x duplicate_set_y : gset Z) : list nat :=
  match accepted_index with
  | [] => []
  | candidate :: rest =>
      if decide (candidate.1 ∈ duplicate_set_x ∧ candidate.2 ∈ duplicate_set_y)
      then i :: duplicate_scan (S i) rest duplicate_set_x duplicate_set_y
      else duplicate_scan (S i) rest
             ({[candidate.1]} ∪ duplicate_set_x)
             ({[candidate.2]} ∪ duplicate_set_y)
  end.

(** [np.delete(arr, delete_index, axis=0)].  An empty [delete_index]
    deletes nothing: this is numpy before 1.19; [np.array([])] is an array
    of doubles, which later versions refuse as an index. *)
Definition np_delete {A} (arr : list A) (delete_index : list nat) : list A :=
  (imap (fun i a => (i, a)) arr) ≫=
    fun ia : nat * A => if decide (ia.1 ∈ delete_index) then [] else [ia.2].

Definition remove_duplicates (accepted : list ((Z * Z) * float64))
  : list (Z * Z) * list float64 :=
  let accepted_index := canonical <$> (fst <$> accepted) in
  let pvalues_accepted := snd <$> accepted in
  let delete_index := duplicate_scan 0 accepted_index ∅ ∅ in
  (np_delete accepted_index delete_index,
   np_delete pvalues_accepted delete_index).

(** ** The tester, the cluster collapse and the FDR cut-off *)

Section Pipeline.

(** [np.random.uniform(low, high, size)] at the [i]-th draw; it may
    raise. *)
Variable uniform : nat -> float64 -> float64 -> nat -> result (list float64).

(** [mannwhitneyu(x, y)[1]], or the exception it raises. *)
Variable mannwhitneyu : list float64 -> list float64 -> result float64.

(** [dbscan(X=euclidean_distances(c), eps=w, metric='precomputed',
    min_samples=2)[1]]: one label per candidate, -1 for noise. *)
Variable dbscan : list (Z * Z) -> Z -> list Z.

(** One iteration of the loop of lines 187-221: [Some p] when the
    candidate is kept with p-value [p], [None] when it is masked out. *)
Definition uniform_test (pHiCMatrix : csr_matrix) (pWindowSize : Z)
    (pPValue : float64) (i : nat) (candidate : Z * Z)
  : result (option float64) :=
  let neighborhood := neighborhood pHiCMatrix candidate pWindowSize in
  low ← np_min neighborhood;
  high ← np_max neighborhood;
  expected_neighborhood ← uniform i low high (length neighborhood);
  let neighborhood := nan_to_num <$> neighborhood in
  let expected_neighborhood := nan_to_num <$> expected_neighborhood in
  match mannwhitneyu neighborhood expected_neighborhood with
  | Raise _ => Ok None
  | Ok pvalue =>
      if isnan pvalue then Ok None
      else if flt pvalue pPValue then Ok (Some pvalue)
      else Ok None
  end.

(** The loop of lines 187-221 from index [i]: the mask and the p-values of
    the kept candidates. *)
Fixpoint tester_loop (pHiCMatrix : csr_matrix) (pWindowSize : Z)
    (pPValue : float64) (i : nat) (pCandidates : list (Z * Z))
  : result (list bool * list float64) :=
  match pCandidates with
  | [] => Ok ([], [])
  | candidate :: rest =>
      verdict ← uniform_test pHiCMatrix pWindowSize pPValue i candidate;
      '(mask, pvalues) ← tester_loop pHiCMatrix pWindowSize pPValue (S i) rest;
      Ok (bool_decide (is_Some verdict) :: mask, option_list verdict ++ pvalues)
  end.

(** Lines 239-242: [euclidean_distances] refuses an array without rows. *)
Definition clusters_of (pCandidates : list (Z * Z)) (pWindowSize : Z)
  : result (list Z) :=
  match pCandidates with
  | [] => Raise ValueError
  | _ => Ok (dbscan pCandidates pWindowSize)
  end.

(** Lines 232-264: the candidates and p-values that survive the tester and
    the cluster collapse; the Benjamini-Hochberg step runs on these.  The
    masks are arrays of booleans: [compute_long_range_contacts] hands in at
    least one candidate (line 160 returns before), so that the list [mask]
    of the tester is not empty. *)
Definition cluster_survivors (pHiCMatrix : csr_matrix)
    (pCandidates : list (Z * Z)) (pWindowSize : Z) (pPValue : float64)
  : result (list (Z * Z) * list float64) :=
  '(mask, pvalues) ← tester_loop pHiCMatrix pWindowSize pPValue 0 pCandidates;
  pCandidates ← bool_index pCandidates mask;
  clusters ← clusters_of pCandidates pWindowSize;
  mask ← cluster_mask pvalues clusters;
  pCandidates ← bool_index pCandidates mask;
  pvalues ← bool_index pvalues mask;
  Ok (pCandidates, pvalues).

Definition candidate_uniform_distribution_test (pHiCMatrix : csr_matrix)
    (pCandidates : list (Z * Z)) (pWindowSize : Z)
    (pPValue pQValue : float64)
  : result (option (list (Z * Z) * list float64)) :=
  '(pCandidates, pvalues) ←
     cluster_survivors pHiCMatrix pCandidates pWindowSize pPValue;
  let largest_p_i := fdr_threshold pQValue pvalues in
  let accepted := fdr_accept largest_p_i pCandidates pvalues in
  if decide (length accepted = 0) then Ok None
  else Ok (Some (remove_duplicates accepted)).

Definition compute_long_range_contacts (pHiCMatrix pZscoreMatrix : csr_matrix)
    (pZscoreThreshold : float64) (pWindowSize : Z)
    (pPValue pQValue pPeakInteractionsThreshold : float64)
  : result (option (list (Z * Z) * list float64)) :=
  candidates ← screen pHiCMatrix pZscoreMatrix pZscoreThreshold
                      pPeakInteractionsThreshold;
  match candidates with
  | None => Ok None
  | Some candidates =>
      candidate_uniform_distribution_test pHiCMatrix candidates pWindowSize
        pPValue pQValue
  end.

(** [compute_loops] up to the candidates it hands to the coordinate
    mapping ([zScoreMatrixName] unset). *)
Definition compute_loops (pHiCMatrix : csr_matrix)
    (zScoreThreshold : float64) (windowSize : Z)
    (pValue qValue peakInteractionsThreshold : float64)
  : result (option (list (Z * Z) * list float64)) :=
  z_score_matrix ← compute_zscore_matrix pHiCMatrix;
  compute_long_range_contacts pHiCMatrix z_score_matrix zScoreThreshold
    windowSize pValue qValue peakInteractionsThreshold.

End Pipeline.

End Model.

(** Arithmetic without rounding. *)
#[export] Instance exact_rounding : Rounding | 100 := {| rnd := Fin |}.

(** * Specifications *)

Section Specification.

Context {rounding : Rounding}.

(** ** The screener *)

(** [mask_le m2 m1]: wherever [m2] is set, [m1] is. *)
Definition mask_le (m2 m1 : list bool) : Prop :=
  Forall2 (fun b2 b1 : bool => b2 = true -> b1 = true) m2 m1.

Definition screened (r : result (option (list (Z * Z)))) : list (Z * Z) :=
  match r with
  | Ok (Some candidates) => candidates
  | _ => []
  end.

(** ** The Benjamini-Hochberg step *)

(** Index [i] of the sorted array passes the Benjamini-Hochberg test
    [p_(i) <= q * (i + 1) / m] of line 272, the right-hand side being the
    double that the product and then the quotient give. *)
Definition bh_ok (pQValue : float64) (pvalues_ : list float64) (i : nat) : Prop :=
  exists p, pvalues_ !! i = Some p /\
            fle p (fdiv (fmul pQValue (of_nat (i + 1)))
                        (of_nat (length pvalues_))) = true.

(** ** The order of the stages read off the specification

    Deduplication complete (cluster collapse, canonical orientation,
    duplicate scan) before the Benjamini-Hochberg step: the p-values
    [deduplicated_pvalues] are the ones that step would then see. *)
Definition deduplicated_pvalues (survivors : list (Z * Z))
    (pvalues : list float64) : list float64 :=
  (remove_duplicates (zip survivors pvalues)).2.

Definition fdr_after_deduplication (pQValue : float64)
    (survivors : list (Z * Z)) (pvalues : list float64)
  : option (list (Z * Z) * list float64) :=
  let '(cs, ps) := remove_duplicates (zip survivors pvalues) in
  let accepted := fdr_accept (fdr_threshold pQValue ps) cs ps in
  if decide (length accepted = 0) then None
  else Some (fst <$> accepted, snd <$> accepted).

(** ** Specification of the cluster collapse *)

(** In cluster [c], index [j] with p-value [p] is the one member the mask
    keeps: the mask drops every other member, no member has a lower p-value
    and every earlier member has a strictly higher one. *)
Definition representative (pvalues : list float64) (clusters : list Z)
    (mask : list bool) (c : Z) (j : nat) (p : float64) : Prop :=
  clusters !! j = Some c /\ pvalues !! j = Some p /\ mask !! j = Some true /\
  (forall k, clusters !! k = Some c -> k <> j -> mask !! k = Some false) /\
  (forall k pk, clusters !! k = Some c -> pvalues !! k = Some pk ->
                fle p pk = true /\ (k < j -> flt p pk = true)).

(** The state of [cluster_loop] after the labels [pre]. *)
Definition cluster_inv (pvalues : list float64) (pre : list Z)
    (mask : list bool) (cluster_dict : gmap Z (nat * float64)) : Prop :=
  length mask = length pre /\
  (forall k, pre !! k = Some (-1)%Z -> mask !! k = Some true) /\
  (forall c, c <> (-1)%Z -> c ∈ pre -> is_Some (cluster_dict !! c)) /\
  (forall c j p, cluster_dict !! c = Some (j, p) ->
                 c <> (-1)%Z /\ representative pvalues pre mask c j p).

(** ** The neighbourhood *)

(** The rectangle of positions with rows in [[r0, r1)] and columns in
    [[c0, c1)], row by row. *)
Definition rectangle (r0 r1 c0 c1 : Z) : list (Z * Z) :=
  r ← seqZ r0 (r1 - r0); c ← seqZ c0 (c1 - c0); [(r, c)].

(** ** Specification of the normaliser

    Arrays indexed by diagonal distance are tabulated functions; the loops
    accumulate into them. *)

Definition tabulate (n : nat) (F : nat -> float64) : list float64 :=
  F <$> seq 0 n.

Definition upd (F : nat -> float64) (d : nat) (x : float64) : nat -> float64 :=
  fun k => if decide (k = d) then fadd (F k) x else F k.

Fixpoint accum (F : nat -> float64) (l : list (nat * float64))
  : nat -> float64 :=
  match l with
  | [] => F
  | (d, x) :: l' => accum (upd F d x) l'
  end.

(** The z-scores stored at diagonal distance [d]. *)
Definition zscores_at (zm : csr_matrix) (d : nat) : list float64 :=
  value <$> filter (fun e => distance (coord e) = d) (stored zm).

(** Well-formed input of the normaliser: no stored entry compares equal to
    0, and every diagonal distance indexes the per-distance arrays, which
    have one slot per row. *)
Definition normalisable (m : csr_matrix) : Prop :=
  Forall (fun e => feq (value e) (Fin 0) = false) (stored m) /\
  Forall (fun e => distance (coord e) < Z.to_nat (shape m).1) (stored m).

(** The sanitised values stored at diagonal distance [d], in storage
    order. *)
Definition diagonal (m : csr_matrix) (d : nat) : list float64 :=
  (fun e => nan_to_num (value e))
    <$> filter (fun e => distance (coord e) = d) (stored m).

(** The statistics of one diagonal with the sanitised values [xs], as the
    first two passes accumulate them from left to right: the number of
    values, counted from 0 in steps of 1; their mean, from a sum that starts
    at 1; and sigma, from the squared deviations from that mean. *)
Definition bucket_count (xs : list float64) : float64 :=
  foldl fadd (Fin 0) ((fun _ => Fin 1) <$> xs).

Definition bucket_mean (xs : list float64) : float64 :=
  fdiv (foldl fadd (Fin 1) xs) (bucket_count xs).

Definition bucket_sigma (xs : list float64) : float64 :=
  fsqrt (fdiv (foldl fadd (Fin 0)
                 ((fun x => fsquare (fsub x (bucket_mean xs))) <$> xs))
              (bucket_count xs)).

(** The z-score of the entry [e] of [m] from the statistics of its own
    diagonal. *)
Definition bucket_zscore (m : csr_matrix) (e : entry) : float64 :=
  let xs := diagonal m (distance (coord e)) in
  fdiv (fsub (value e) (bucket_mean xs)) (bucket_sigma xs).

End Specification.

(** ** The normaliser without rounding

    With [exact_rounding] the arrays of the normaliser hold sums of real
    numbers; the definitions below give them, and the z-scores of the
    examples, in closed form. *)

(** The value [np.nan_to_num] gives to an entry, as a real number. *)
Definition num (x : float64) : R :=
  match x with
  | NaN => 0
  | PInf => float_max
  | NInf => - float_max
  | Fin r => r
  end.

Definition Rsum (l : list R) : R := foldr Rplus 0%R l.

(** For the pairs (distance, value) [l] of a matrix, [wsum g l k] sums [g]
    over the pairs at distance [k]: their number, the sum of their values,
    their shifted mean (the sum starts at 1), the sum of their squared
    deviations from that mean, and the square root of its average. *)
Definition wsum (g : nat * R -> R) (l : list (nat * R)) (k : nat) : R :=
  Rsum (g <$> filter (fun dv => dv.1 = k) l).

Definition dcount (l : list (nat * R)) (k : nat) : R := wsum (fun _ => 1%R) l k.

Definition dsum (l : list (nat * R)) (k : nat) : R := wsum snd l k.

Definition dmean (l : list (nat * R)) (k : nat) : R :=
  ((1 + dsum l k) / dcount l k)%R.

Definition dsquares (l : list (nat * R)) (k : nat) : R :=
  wsum (fun dv => (dv.2 - dmean l k) * (dv.2 - dmean l k))%R l k.

Definition dsigma (l : list (nat * R)) (k : nat) : R :=
  sqrt (dsquares l k / dcount l k).

(** The pairs (distance, sanitised value) of the stored entries. *)
Definition distance_values (m : csr_matrix) : list (nat * R) :=
  (fun e => (distance (coord e), num (value e))) <$> stored m.

(** The z-score of one entry in terms of the statistics of its distance. *)
Definition zscore_of (l : list (nat * R)) (e : entry) : float64 :=
  fdiv (fsub (value e) (Fin (dmean l (distance (coord e)))))
       (Fin (dsigma l (distance (coord e)))).

(** The arrays [mean_adjusted], [sigma_2] before its division, and [sigma],
    as functions of the distance, for the pairs (distance, value) [l]. *)
Definition mean_array (l : list (nat * R)) (k : nat) : float64 :=
  fdiv (Fin (1 + dsum l k)) (Fin (0 + dcount l k)).

Definition squares_array (l : list (nat * R)) : nat -> float64 :=
  accum (fun _ => Fin 0)
    ((fun dx => (dx.1, fsquare (fsub dx.2 (mean_array l dx.1))))
       <$> ((fun dv => (dv.1, Fin dv.2)) <$> l)).

Definition sigma_array (l : list (nat * R)) (k : nat) : float64 :=
  fsqrt (fdiv (squares_array l k) (Fin (0 + dcount l k))).

(** Mean and variance of a sample of real numbers. *)
Definition Rmean (l : list R) : R := (Rsum l / INR (length l))%R.

Definition Rvariance (l : list R) : R :=
  Rmean ((fun z => (z - Rmean l) * (z - Rmean l))%R <$> l).

(** ** Concrete externals and inputs for the examples *)

(** A baseline sample that records the index of the draw. *)
Definition uniform_index (i : nat) (low high : float64) (size : nat)
  : result (list float64) :=
  Ok (replicate size (of_nat i)).

(** A test that reads the index of the draw off the baseline sample and
    answers the p-value listed for it. *)
Definition mannwhitneyu_table (table : list (Z * float64)) (x y : list float64)
  : result float64 :=
  match y with
  | Fin r :: _ =>
      match filter (fun ip => Reqb r (IZR ip.1) = true) table with
      | ip :: _ => Ok ip.2
      | [] => Raise ValueError
      end
  | _ => Raise ValueError
  end.

(** A test that always answers the p-value [p]. *)
Definition mannwhitneyu_const (p : float64) (x y : list float64)
  : result float64 :=
  Ok p.

(** Every candidate is noise. *)
Definition dbscan_noise (pCandidates : list (Z * Z)) (eps : Z) : list Z :=
  (fun _ => (-1)%Z) <$> pCandidates.

(** The 1 x 1 contact matrix [[20]]. *)
Definition matrix_1x1 : csr_matrix :=
  {| shape := (1%Z, 1%Z); stored := [((0%Z, 0%Z), Fin 20)] |}.

(** A 16 x 16 contact matrix with three stored contacts: the pair (0, 5) and
    (5, 0), and (10, 15). *)
Definition matrix_16x16 : csr_matrix :=
  {| shape := (16%Z, 16%Z);
     stored := [((0%Z, 5%Z), Fin 20); ((5%Z, 0%Z), Fin 20);
                ((10%Z, 15%Z), Fin 20)] |}.

Definition pvalue_table : list (Z * float64) :=
  [(0%Z, Fin (20 / 1000)); (1%Z, Fin (45 / 1000)); (2%Z, Fin (30 / 1000))].

(** A 20 x 20 contact matrix with one stored contact, at (14, 10). *)
Definition matrix_20x20 : csr_matrix :=
  {| shape := (20%Z, 20%Z); stored := [((14%Z, 10%Z), Fin 50)] |}.

(** The 2 x 2 contact matrix whose one stored value is NaN. *)
Definition matrix_nan : csr_matrix :=
  {| shape := (2%Z, 2%Z); stored := [((0%Z, 1%Z), NaN)] |}.

(** The 4 x 4 contact matrix with the contacts 10, 13, 6, 10 on its main
    diagonal. *)
Definition matrix_diag : csr_matrix :=
  {| shape := (4%Z, 4%Z);
     stored := [((0%Z, 0%Z), Fin 10); ((1%Z, 1%Z), Fin 13);
                ((2%Z, 2%Z), Fin 6); ((3%Z, 3%Z), Fin 10)] |}.

(** * Genome coordinates, output files and the scheduler of [main] *)

Import Stdlib.Strings.String.StringSyntax.

(** ** [cluster_to_genome_position_mapping] *)

(** A mapped loop, the tuple
    [(chr_x, start_x, end_x, chr_y, start_y, end_y, pvalue)]. *)
Record loop_item := {
  chr_x : String.string;
  start_x : Z;
  end_x : Z;
  chr_y : String.string;
  start_y : Z;
  end_y : Z;
  loop_pvalue : float64;
}.

(** [pMaxLoopDistance is not None and distance > pMaxLoopDistance] *)
Definition too_far (pMaxLoopDistance : option Z) (distance : Z) : bool :=
  match pMaxLoopDistance with
  | None => false
  | Some d => bool_decide (distance > d)%Z
  end.

Section Mapping.

(** [pHicMatrix.getBinPos(bin)]: the chromosome, start and end of the bin
    (its fourth component is not used), or the exception it raises. *)
Variable getBinPos : Z -> result (String.string * Z * Z).

(** The loop of lines 313-320 over [enumerate(pCandidates)], from index
    [i].  [pPValueList[i]] is read only for a candidate that is not
    skipped. *)
Fixpoint mapping_loop (i : nat) (pCandidates : list (Z * Z))
    (pPValueList : list float64) (pMaxLoopDistance : option Z)
  : result (list loop_item) :=
  match pCandidates with
  | [] => Ok []
  | candidate :: rest =>
      x ← getBinPos candidate.1;
      y ← getBinPos candidate.2;
      let distance := Z.abs (x.1.2 - y.1.2) in
      if too_far pMaxLoopDistance distance
      then mapping_loop (S i) rest pPValueList pMaxLoopDistance
      else
        match pPValueList !! i with
        | None => Raise IndexError
        | Some p =>
            mapped_cluster ←
              mapping_loop (S i) rest pPValueList pMaxLoopDistance;
            Ok ({| chr_x := x.1.1; start_x := x.1.2; end_x := x.2;
                   chr_y := y.1.1; start_y := y.1.2; end_y := y.2;
                   loop_pvalue := p |} :: mapped_cluster)
        end
  end.

Definition cluster_to_genome_position_mapping (pCandidates : list (Z * Z))
    (pPValueList : list float64) (pMaxLoopDistance : option Z)
  : result (list loop_item) :=
  mapping_loop 0 pCandidates pPValueList pMaxLoopDistance.

End Mapping.

(** ** [compute_loops], to its return value *)

Section Loops.

Context {rounding : Rounding}.

Variable uniform : nat -> float64 -> float64 -> nat -> result (list float64).
Variable mannwhitneyu : list float64 -> list float64 -> result float64.
Variable dbscan : list (Z * Z) -> Z -> list Z.
Variable getBinPos : Z -> result (String.string * Z * Z).

(** [compute_loops] called without a queue ([zScoreMatrixName] unset):
    [None] when no loop is detected, the mapped loops otherwise. *)
Definition compute_loops_mapped (pHiCMatrix : csr_matrix)
    (zScoreThreshold : float64) (windowSize : Z)
    (pValue qValue peakInteractionsThreshold : float64)
    (maxLoopDistance : option Z)
  : result (option (list loop_item)) :=
  found ← compute_loops uniform mannwhitneyu dbscan pHiCMatrix
            zScoreThreshold windowSize pValue qValue
            peakInteractionsThreshold;
  match found with
  | None => Ok None
  | Some (candidates, pValueList) =>
      mapped_loops ← cluster_to_genome_position_mapping getBinPos
                       candidates pValueList maxLoopDistance;
      Ok (Some mapped_loops)
  end.

End Loops.

(** ** [write_bedgraph]

    A line is the list of its tab-separated fields; the function is
    modelled by the lines it writes to [pOutFileName] and to
    [loops_domains.bed]. *)

Inductive field :=
  | Str (s : String.string)
  | Int (z : Z)
  | Float (x : float64).

Local Open Scope string_scope.

(** ["%s\t%s\t%s\t%s\t%s\t%s\t%s\n" % loop_item] *)
Definition bedgraph_line (l : loop_item) : list field :=
  [Str (chr_x l); Int (start_x l); Int (end_x l);
   Str (chr_y l); Int (start_y l); Int (end_y l); Float (loop_pvalue l)].

(** The nine fields of a line of [loops_domains.bed]. *)
Definition domains_line (l : loop_item) : list field :=
  [Str (chr_x l); Int (start_x l); Int (start_y l); Int 1;
   Float (loop_pvalue l); Str "."; Int (start_x l); Int (start_y l);
   Str "x,x,x"].

Local Close Scope string_scope.

(** The truth value of an optional integer: [None] and 0 are false. *)
Definition truthy (z : option Z) : bool :=
  match z with
  | Some z => negb (z =? 0)%Z
  | None => false
  end.

(** Lines 329-330, for region bounds that are integers. *)
Definition inside_region (l : loop_item) (pStartRegion pEndRegion : Z) : bool :=
  (pStartRegion <=? start_x l)%Z && (end_x l <=? pEndRegion)%Z
  && (pStartRegion <=? start_y l)%Z && (end_y l <=? pEndRegion)%Z.

(** The loop over [pLoops] that each of the two [with] blocks runs, with
    its own line format. *)
Fixpoint write_lines (format : loop_item -> list field)
    (pLoops : list loop_item) (pStartRegion pEndRegion : option Z)
  : list (list field) :=
  match pLoops with
  | [] => []
  | loop_item :: rest =>
      let lines := write_lines format rest pStartRegion pEndRegion in
      if truthy pStartRegion && truthy pEndRegion
      then
        match pStartRegion, pEndRegion with
        | Some s, Some e =>
            if inside_region loop_item s e
            then format loop_item :: lines
            else lines
        | _, _ => lines
        end
      else format loop_item :: lines
  end.

Definition write_bedgraph (pLoops : list loop_item)
    (pStartRegion pEndRegion : option Z)
  : list (list field) * list (list field) :=
  (write_lines bedgraph_line pLoops pStartRegion pEndRegion,
   write_lines domains_line pLoops pStartRegion pEndRegion).

(** ** The scheduler of [main]

    Lines 434-482: the loop of the parent process when more than one
    chromosome is to be processed.  [queue[i]] is modelled by whether it is
    not [None]; the worker processes are parameters. *)

Record scheduler := {
  queue : list bool;
  thread_done : list bool;
  all_data_processed : bool;
  all_threads_done : bool;
  count_call_of_read_input : nat;
  mapped_loops : list loop_item;
}.

Section Scheduler.

Variable chromosomes_list : list String.string.

(** [args.threads] *)
Variable threads : nat.

(** Loading the matrix of one chromosome and starting its worker; it may
    raise. *)
Variable load : String.string -> result unit.

(** What the parent finds in [queue[i]] during its [t]-th sweep over the
    slots: [None] when the queue is empty, [Some r] when the worker has put
    [[r]]. *)
Variable poll : nat -> nat -> option (option (list loop_item)).

(** The body of [for i in range(args.threads)], lines 442-476. *)
Definition visit (t i : nat) (st : scheduler) : result scheduler :=
  match queue st !! i with
  | None => Raise IndexError
  | Some busy =>
      if negb busy && negb (all_data_processed st) then
        match chromosomes_list !! count_call_of_read_input st with
        | None => Raise IndexError
        | Some chromosome =>
            _ ← load chromosome;
            if decide (count_call_of_read_input st < length chromosomes_list)
            then Ok {| queue := <[i := true]> (queue st);
                       thread_done := <[i := false]> (thread_done st);
                       all_data_processed := all_data_processed st;
                       all_threads_done := all_threads_done st;
                       count_call_of_read_input :=
                         S (count_call_of_read_input st);
                       mapped_loops := mapped_loops st |}
            else Ok {| queue := <[i := true]> (queue st);
                       thread_done := <[i := false]> (thread_done st);
                       all_data_processed := true;
                       all_threads_done := all_threads_done st;
                       count_call_of_read_input := count_call_of_read_input st;
                       mapped_loops := mapped_loops st |}
        end
      else if busy && bool_decide (is_Some (poll t i)) then
        Ok {| queue := <[i := false]> (queue st);
              thread_done := <[i := true]> (thread_done st);
              all_data_processed := all_data_processed st;
              all_threads_done := all_threads_done st;
              count_call_of_read_input := count_call_of_read_input st;
              mapped_loops :=
                mapped_loops st ++ default [] (default None (poll t i)) |}
      else if all_data_processed st && negb busy then
        Ok {| queue := queue st;
              thread_done := <[i := true]> (thread_done st);
              all_data_processed := all_data_processed st;
              all_threads_done := all_threads_done st;
              count_call_of_read_input := count_call_of_read_input st;
              mapped_loops := mapped_loops st |}
      else Ok st
  end.

Fixpoint visit_slots (t : nat) (slots : list nat) (st : scheduler)
  : result scheduler :=
  match slots with
  | [] => Ok st
  | i :: rest => st ← visit t i st; visit_slots t rest st
  end.

(** One iteration of the [while] loop, lines 441-482. *)
Definition sweep (t : nat) (st : scheduler) : result scheduler :=
  st ← visit_slots t (seq 0 threads) st;
  if all_data_processed st
  then Ok {| queue := queue st;
             thread_done := thread_done st;
             all_data_processed := all_data_processed st;
             all_threads_done := forallb (fun thread => thread) (thread_done st);
             count_call_of_read_input := count_call_of_read_input st;
             mapped_loops := mapped_loops st |}
  else Ok st.

(** The [while] loop from its [t]-th iteration, cut off after [fuel]
    iterations: [Ok (Some loops)] when the loop is left with the loops
    collected, [Ok None] when it is still running. *)
Fixpoint scheduler_loop (fuel t : nat) (st : scheduler)
  : result (option (list loop_item)) :=
  if negb (all_data_processed st) || negb (all_threads_done st) then
    match fuel with
    | 0 => Ok None
    | S fuel => st ← sweep t st; scheduler_loop fuel (S t) st
    end
  else Ok (Some (mapped_loops st)).

(** Lines 401 and 434-439. *)
Definition scheduler_start : scheduler :=
  {| queue := replicate threads false;
     thread_done := replicate threads false;
     all_data_processed := false;
     all_threads_done := false;
     count_call_of_read_input := 0;
     mapped_loops := [] |}.

End Scheduler.

(** ** Specification of the duplicate scan *)

(** The elements of [arr] that are left when the indices found by the scan
    over [accepted_index] are deleted, [arr] running in parallel with
    [accepted_index]. *)
Fixpoint scan_keep {A} (accepted_index : list (Z * Z)) (arr : list A)
    (duplicate_set_x duplicate_set_y : gset Z) : list A :=
  match accepted_index, arr with
  | candidate :: rest, a :: arr' =>
      if decide (candidate.1 ∈ duplicate_set_x ∧ candidate.2 ∈ duplicate_set_y)
      then scan_keep rest arr' duplicate_set_x duplicate_set_y
      else a :: scan_keep rest arr'
                  ({[candidate.1]} ∪ duplicate_set_x)
                  ({[candidate.2]} ∪ duplicate_set_y)
  | _, _ => []
  end.

(** ** Specification of the coordinate mapping *)

(** The mapped loop of the candidate [cp.1] with p-value [cp.2], for bins at
    the positions [bin]: [None] when the candidate is skipped. *)
Definition mapped_item (bin : Z -> String.string * Z * Z)
    (pMaxLoopDistance : option Z) (cp : (Z * Z) * float64)
  : option loop_item :=
  let x := bin cp.1.1 in
  let y := bin cp.1.2 in
  if too_far pMaxLoopDistance (Z.abs (x.1.2 - y.1.2)) then None
  else Some {| chr_x := x.1.1; start_x := x.1.2; end_x := x.2;
               chr_y := y.1.1; start_y := y.1.2; end_y := y.2;
               loop_pvalue := cp.2 |}.

(** The loops that [write_bedgraph] writes. *)
Definition selected_loops (pLoops : list loop_item)
    (pStartRegion pEndRegion : option Z) : list loop_item :=
  match pStartRegion, pEndRegion with
  | Some s, Some e =>
      if decide (s <> 0 /\ e <> 0)%Z
      then filter (fun l => inside_region l s e = true) pLoops
      else pLoops
  | _, _ => pLoops
  end.

(** ** Further inputs for the examples *)

(** [matrix_diag] with one more contact, at (0, 3). *)
Definition matrix_diag_far : csr_matrix :=
  {| shape := (4%Z, 4%Z);
     stored := [((0%Z, 0%Z), Fin 10); ((0%Z, 3%Z), Fin 7);
                ((1%Z, 1%Z), Fin 13); ((2%Z, 2%Z), Fin 6);
                ((3%Z, 3%Z), Fin 10)] |}.

Local Open Scope string_scope.

(** Bins of 10 kb on one chromosome. *)
Definition bin_10kb (bin : Z) : String.string * Z * Z :=
  ("chr1", (bin * 10000)%Z, ((bin + 1) * 10000)%Z).

Definition getBinPos_10kb (bin : Z) : result (String.string * Z * Z) :=
  Ok (bin_10kb bin).

(** Two loops on that chromosome, the first one starting at position 0. *)
Definition example_loop_items : list loop_item :=
  [{| chr_x := "chr1"; start_x := 0; end_x := 10000;
      chr_y := "chr1"; start_y := 50000; end_y := 60000;
      loop_pvalue := Fin (20 / 1000) |};
   {| chr_x := "chr1"; start_x := 100000; end_x := 110000;
      chr_y := "chr1"; start_y := 150000; end_y := 160000;
      loop_pvalue := Fin (30 / 1000) |}].

(** Two chromosomes. *)
Definition example_chromosomes : list String.string := ["chr1"; "chr2"].

Local Close Scope string_scope.

(** * Properties *)

(** ** Comparisons on the reals and on float64 *)

Lemma Rleb_true a b : (a <= b)%R -> Rleb a b = true.
Proof. intros H. unfold Rleb. destruct (Rle_dec a b); [done | contradiction]. Qed.

Lemma Rleb_false a b : (b < a)%R -> Rleb a b = false.
Proof. intros H. unfold Rleb. destruct (Rle_dec a b); [lra | done]. Qed.

Lemma Rltb_true a b : (a < b)%R -> Rltb a b = true.
Proof. intros H. unfold Rltb. destruct (Rlt_dec a b); [done | contradiction]. Qed.

Lemma Rltb_false a b : (b <= a)%R -> Rltb a b = false.
Proof. intros H. unfold Rltb. destruct (Rlt_dec a b); [lra | done]. Qed.

Lemma Reqb_true a b : a = b -> Reqb a b = true.
Proof. intros H. unfold Reqb. destruct (Req_dec_T a b); [done | contradiction]. Qed.

Lemma Reqb_false a b : a <> b -> Reqb a b = false.
Proof. intros H. unfold Reqb. destruct (Req_dec_T a b); [contradiction | done]. Qed.

Lemma Rleb_spec a b : Rleb a b = true <-> (a <= b)%R.
Proof. unfold Rleb. destruct (Rle_dec a b); split; (done || lra). Qed.

Lemma Rltb_spec a b : Rltb a b = true <-> (a < b)%R.
Proof. unfold Rltb. destruct (Rlt_dec a b); split; (done || lra). Qed.

Lemma Reqb_spec a b : Reqb a b = true <-> a = b.
Proof. unfold Reqb. destruct (Req_dec_T a b); split; (done || lra). Qed.

(** Decide every comparison of real constants in the goal. *)
Ltac rcompare :=
  repeat match goal with
    | |- context [Rleb ?a ?b] =>
        first [rewrite (Rleb_true a b) by lra | rewrite (Rleb_false a b) by lra]
    | |- context [Rltb ?a ?b] =>
        first [rewrite (Rltb_true a b) by lra | rewrite (Rltb_false a b) by lra]
    | |- context [Reqb ?a ?b] =>
        first [rewrite (Reqb_true a b) by lra | rewrite (Reqb_false a b) by lra]
    end.

(** Evaluate a closed term of the model: the structure is computed, the real
    numbers are left alone and their comparisons decided by [lra]. *)
Ltac feval :=
  repeat (progress
    (cbv -[Rleb Rltb Reqb Rplus Rmult Rinv Rdiv Rminus Ropp IZR INR sqrt
           float_max];
     rcompare)).

Lemma fle_trans x y z : fle x y = true -> fle y z = true -> fle x z = true.
Proof.
  destruct x, y, z; simpl; try done.
  rewrite !Rleb_spec. lra.
Qed.

Lemma flt_irrefl x : flt x x = false.
Proof. destruct x; simpl; try done. apply Rltb_false. lra. Qed.

Lemma flt_NInf x : flt x NInf = false.
Proof. by destruct x. Qed.

Lemma flt_fle_trans x y z : flt x y = true -> fle y z = true -> flt x z = true.
Proof.
  destruct x, y, z; simpl; try done.
  rewrite !Rltb_spec, Rleb_spec. lra.
Qed.

Lemma fle_not_nan_l x y : fle x y = true -> isnan x = false.
Proof. by destruct x, y. Qed.

Lemma fle_not_nan_r x y : fle x y = true -> isnan y = false.
Proof. by destruct x, y. Qed.

Lemma fle_total x y : isnan x = false -> isnan y = false ->
  fle x y = true \/ fle y x = true.
Proof.
  destruct x, y; simpl; try done; auto.
  intros _ _. rewrite !Rleb_spec. lra.
Qed.

Lemma fle_refl x : isnan x = false -> fle x x = true.
Proof. destruct x; simpl; try done. intros _. apply Rleb_true. lra. Qed.

Lemma flt_false_fle x y : isnan x = false -> isnan y = false ->
  flt x y = false -> fle y x = true.
Proof.
  destruct x, y; simpl; try done.
  intros _ _. unfold Rltb, Rleb.
  destruct (Rlt_dec r r0), (Rle_dec r0 r); (done || lra).
Qed.

Lemma flt_fle x y : flt x y = true -> fle x y = true.
Proof.
  destruct x, y; simpl; try done. rewrite Rltb_spec, Rleb_spec. lra.
Qed.

Lemma fle_antisym x y : fle x y = true -> fle y x = true -> x = y.
Proof.
  destruct x, y; simpl; try done.
  rewrite !Rleb_spec. intros. f_equal. lra.
Qed.

Lemma flt_not_fle x y : flt x y = true -> fle y x = false.
Proof.
  destruct x, y; simpl; try done.
  rewrite Rltb_spec. intros. apply Rleb_false. lra.
Qed.

(** ** The screener *)

Lemma logical_and_mono a2 a1 b :
  mask_le a2 a1 ->
  match logical_and a2 b, logical_and a1 b with
  | Ok r2, Ok r1 => mask_le r2 r1
  | Raise e2, Raise e1 => e2 = e1
  | _, _ => False
  end.
Proof.
  intros H. pose proof (Forall2_length _ _ _ H) as Hlen.
  unfold logical_and. rewrite Hlen.
  destruct (decide (length a1 = length b)) as [Hb|Hb].
  - clear Hlen. revert b Hb.
    induction H as [|x2 x1 a2 a1 Hx H IH]; intros [|y b] Hb;
      simpl in *; try done; constructor.
    + destruct x2, x1, y; simpl; auto.
    + apply IH. lia.
  - destruct H as [|x2 x1 a2 a1 Hx H];
      [destruct b as [|? [|]]; simpl; try done; constructor |].
    destruct H as [|x2' x1' a2 a1 Hx' H].
    + apply Forall2_fmap, Forall_Forall2_diag, Forall_forall.
      intros y _. destruct x2, x1, y; simpl; auto.
    + destruct b as [|y [|]]; try done.
      apply Forall2_fmap. repeat constructor.
      * destruct x2, x1, y; simpl; auto.
      * destruct x2', x1', y; simpl; auto.
      * eapply Forall2_impl; [exact H|].
        intros [] [] ?; destruct y; simpl; auto.
Qed.

Lemma bool_index_mono {A} (arr : list A) m2 m1 :
  mask_le m2 m1 ->
  match bool_index arr m2, bool_index arr m1 with
  | Ok l2, Ok l1 => sublist l2 l1
  | Raise e2, Raise e1 => e2 = e1
  | _, _ => False
  end.
Proof.
  intros H. pose proof (Forall2_length _ _ _ H) as Hlen.
  unfold bool_index. rewrite Hlen.
  destruct (decide (length m1 = length arr \/ length m1 = 0)) as [Ha|Ha];
    [|done].
  clear Hlen Ha. revert arr.
  induction H as [|x2 x1 m2 m1 Hx H IH]; intros [|a arr]; simpl; try done.
  specialize (IH arr). destruct x2, x1; simpl; auto.
  - by apply sublist_skip.
  - discriminate Hx; done.
  - by apply sublist_cons.
Qed.


Lemma screen_mono pHiCMatrix pZscoreMatrix t1 t2 pit :
  fle t1 t2 = true ->
  sublist (screened (screen pHiCMatrix pZscoreMatrix t2 pit))
          (screened (screen pHiCMatrix pZscoreMatrix t1 pit)).
Proof.
  intros Ht. unfold screen.
  set (zm := eliminate_zeros pZscoreMatrix).
  set (mi := (fun v => flt pit v) <$> data pHiCMatrix).
  assert (Hm : mask_le ((fun z => fle t2 z) <$> data zm)
                       ((fun z => fle t1 z) <$> data zm)).
  { apply Forall2_fmap, Forall_Forall2_diag, Forall_forall.
    intros z _ Hz. by apply fle_trans with t2. }
  pose proof (logical_and_mono _ _ mi Hm) as Hand.
  destruct (logical_and (_ <$> data zm) mi) as [m2|e2],
           (logical_and (_ <$> data zm) mi) as [m1|e1];
    simpl; try done; try apply sublist_nil_l.
  pose proof (bool_index_mono (data zm) _ _ Hand) as Hd.
  pose proof (bool_index_mono (nonzero zm) _ _ Hand) as Hi.
  destruct (bool_index (data zm) m2), (bool_index (data zm) m1);
    simpl; try done; try apply sublist_nil_l.
  destruct (bool_index (nonzero zm) m2) as [l2|], (bool_index (nonzero zm) m1) as [l1|];
    simpl; try done; try apply sublist_nil_l.
  destruct (decide (length l2 = 0)); simpl; [apply sublist_nil_l|].
  destruct (decide (length l1 = 0)) as [Hl1|]; simpl; [|done].
  apply sublist_length in Hi. lia.
Qed.

(** C9: for a fixed contact matrix, z-score matrix and peak-interaction
    threshold, raising the z-score threshold from [t1] to [t2] never adds a
    candidate: the candidates screened at [t2] are a sublist, hence a subset,
    of those screened at [t1], and are not more numerous. *)
Theorem screen_threshold_monotone pHiCMatrix pZscoreMatrix t1 t2 pit :
  fle t1 t2 = true ->
  let at_t1 := screened (screen pHiCMatrix pZscoreMatrix t1 pit) in
  let at_t2 := screened (screen pHiCMatrix pZscoreMatrix t2 pit) in
  sublist at_t2 at_t1 /\
  (forall c, c ∈ at_t2 -> c ∈ at_t1) /\
  length at_t2 <= length at_t1.
Proof.
  intros Ht at_t1 at_t2.
  pose proof (screen_mono pHiCMatrix pZscoreMatrix t1 t2 pit Ht) as Hs.
  split; [exact Hs|]. split.
  - intros c Hc. by apply elem_of_sublist with at_t2.
  - by apply sublist_length.
Qed.

Lemma filter_Forall_id {A} (P : A -> Prop) `{!forall x, Decision (P x)} l :
  Forall P l -> filter P l = l.
Proof.
  induction 1 as [|x l Hx Hl IH]; [done|].
  rewrite filter_cons, decide_True by done. by f_equal.
Qed.

Lemma bool_index_zip {A B C} (f : A -> C) (g : A -> bool) (h : B -> bool)
    (lz : list A) (lr : list B) :
  length lz = length lr ->
  bool_index (f <$> lz) (zip_with andb (g <$> lz) (h <$> lr))
  = Ok ((fun zr => f zr.1)
          <$> filter (fun zr => g zr.1 = true /\ h zr.2 = true) (zip lz lr)).
Proof.
  intros Hlen. unfold bool_index.
  rewrite decide_True by (left; rewrite length_zip_with, !length_fmap; lia).
  f_equal. revert lr Hlen.
  induction lz as [|z lz IH]; intros [|r lr] Hlen; simpl in *; try done.
  rewrite filter_cons. simpl.
  destruct (g z), (h r); simpl; [f_equal|..]; apply IH; lia.
Qed.

(** When the screener is given a z-score matrix without zeros that stores
    as many entries as the contact matrix, the two [data] arrays are read in
    step: the entry of index [i] is kept exactly when its z-score reaches the
    threshold and the raw count of the same index exceeds the
    peak-interaction threshold. *)
Lemma screen_aligned pHiCMatrix pZscoreMatrix zt pit :
  Forall (fun e => feq (value e) (Fin 0) = false) (stored pZscoreMatrix) ->
  length (stored pZscoreMatrix) = length (stored pHiCMatrix) ->
  screened (screen pHiCMatrix pZscoreMatrix zt pit)
  = (fun zr => coord zr.1)
      <$> filter (fun zr => fle zt (value zr.1) = true /\
                            flt pit (value zr.2) = true)
                 (zip (stored pZscoreMatrix) (stored pHiCMatrix)).
Proof.
  intros Hnz Hlen. unfold screen, nonzero, data, eliminate_zeros. simpl.
  rewrite !(filter_Forall_id _ _ Hnz).
  unfold logical_and. rewrite decide_True by (rewrite !length_fmap; lia).
  cbn [mbind result_bind].
  rewrite <- !list_fmap_compose.
  rewrite (bool_index_zip value (fun e => fle zt (value e))
             (fun e => flt pit (value e))) by done.
  cbn [mbind result_bind].
  rewrite (bool_index_zip coord (fun e => fle zt (value e))
             (fun e => flt pit (value e))) by done.
  cbn [mbind result_bind].
  destruct (decide _) as [Hz|Hz]; [|done].
  simpl. symmetry. by apply nil_length_inv.
Qed.

Lemma screen_threshold_monotone_witness :
  fle (Fin 1) (Fin 2) = true /\
  sublist (screened (screen matrix_1x1 matrix_1x1 (Fin 2) (Fin 10)))
          (screened (screen matrix_1x1 matrix_1x1 (Fin 1) (Fin 10))).
Proof.
  assert (H : fle (Fin 1) (Fin 2) = true) by (apply Rleb_true; lra).
  split; [exact H|].
  exact (proj1 (screen_threshold_monotone matrix_1x1 matrix_1x1
                  (Fin 1) (Fin 2) (Fin 10) H)).
Defined.

(** ** Sorting *)

Lemma sort_le_total x y : sort_le x y = true \/ sort_le y x = true.
Proof.
  unfold sort_le. destruct (isnan y) eqn:Hy; [left; apply orb_true_r|].
  destruct (isnan x) eqn:Hx; [right; apply orb_true_r|].
  destruct (fle_total x y Hx Hy) as [->| ->]; auto.
Qed.

Lemma sort_le_trans x y z :
  sort_le x y = true -> sort_le y z = true -> sort_le x z = true.
Proof.
  unfold sort_le. destruct (isnan z) eqn:Hz; [intros _ _; apply orb_true_r|].
  rewrite !orb_false_r. intros Hxy Hyz.
  rewrite (fle_not_nan_l _ _ Hyz), orb_false_r in Hxy.
  by apply fle_trans with y.
Qed.

Lemma sort_insert_perm x l : sort_insert x l ≡ₚ x :: l.
Proof.
  induction l as [|y l IH]; simpl; [done|].
  destruct (sort_le x y); [done|]. by rewrite IH, Permutation_swap.
Qed.

Lemma np_sort_perm l : np_sort l ≡ₚ l.
Proof.
  induction l as [|x l IH]; simpl; [done|].
  unfold np_sort in *. simpl. by rewrite sort_insert_perm, IH.
Qed.

Lemma sort_insert_sorted x l :
  StronglySorted (fun a b => sort_le a b = true) l ->
  StronglySorted (fun a b => sort_le a b = true) (sort_insert x l).
Proof.
  induction 1 as [|y l Hl IH Hy]; simpl; [repeat constructor|].
  destruct (sort_le x y) eqn:Hxy.
  - constructor; [by constructor|]. constructor; [done|].
    eapply Forall_impl; [exact Hy|]. intros z Hz. by apply sort_le_trans with y.
  - constructor; [done|].
    rewrite sort_insert_perm. constructor; [|done].
    destruct (sort_le_total x y); congruence.
Qed.

Lemma np_sort_sorted l :
  StronglySorted (fun a b => sort_le a b = true) (np_sort l).
Proof.
  induction l as [|x l IH]; [constructor|]. by apply sort_insert_sorted.
Qed.

Lemma StronglySorted_lookup {A} (R : relation A) l i j x y :
  StronglySorted R l -> i < j -> l !! i = Some x -> l !! j = Some y -> R x y.
Proof.
  intros Hl. revert i j. induction Hl as [|a l Hl IH Ha]; intros i j Hij Hi Hj.
  - done.
  - destruct j as [|j]; [lia|]. destruct i as [|i]; simpl in *.
    + injection Hi as ->. rewrite Forall_forall in Ha.
      apply Ha. by eapply list_elem_of_lookup_2.
    + apply (IH i j); [lia|done..].
Qed.

Lemma nan_to_one_not_nan e : isnan (nan_to_one e) = false.
Proof. by destruct e. Qed.

Lemma fdr_pvalues_perm ps : fdr_pvalues ps ≡ₚ nan_to_one <$> ps.
Proof. apply np_sort_perm. Qed.

Lemma fdr_pvalues_not_nan ps p : p ∈ fdr_pvalues ps -> isnan p = false.
Proof.
  rewrite fdr_pvalues_perm. intros (e & -> & _)%list_elem_of_fmap.
  apply nan_to_one_not_nan.
Qed.

Lemma fdr_pvalues_sorted ps i j x y :
  i <= j -> fdr_pvalues ps !! i = Some x -> fdr_pvalues ps !! j = Some y ->
  fle x y = true.
Proof.
  intros Hij Hi Hj.
  assert (isnan x = false) as Hx
    by (eapply fdr_pvalues_not_nan, list_elem_of_lookup_2, Hi).
  assert (isnan y = false) as Hy
    by (eapply fdr_pvalues_not_nan, list_elem_of_lookup_2, Hj).
  destruct (decide (i = j)) as [->|Hne].
  - rewrite Hi in Hj. injection Hj as ->. by apply fle_refl.
  - pose proof (StronglySorted_lookup _ _ i j x y (np_sort_sorted _)
                  ltac:(lia) Hi Hj) as H.
    unfold sort_le in H. by rewrite Hy, orb_false_r in H.
Qed.

(** ** The Benjamini-Hochberg threshold *)

Section Threshold.

Context {rounding : Rounding}.

Lemma largest_p_loop_spec q m l : forall i acc,
  isnan acc = false ->
  Forall (fun p => isnan p = false) l ->
  let r := largest_p_loop q m i l acc in
  (r = acc \/
   exists k, l !! k = Some r /\ fle r (bh_cutoff q (i + k) m) = true) /\
  fle acc r = true /\
  (forall k p, l !! k = Some p -> fle p (bh_cutoff q (i + k) m) = true ->
               fle p r = true).
Proof.
  induction l as [|p l IH]; intros i acc Hacc Hl; simpl.
  - split; [by left|]. split; [by apply fle_refl|]. intros k p; by rewrite lookup_nil.
  - apply Forall_cons in Hl as [Hp Hl].
    set (acc' := if fle p (bh_cutoff q i m)
                 then (if fle acc p then p else acc) else acc).
    assert (Hacc' : isnan acc' = false).
    { unfold acc'. destruct (fle p _); [destruct (fle acc p)|]; done. }
    assert (Hle : fle acc acc' = true).
    { unfold acc'. destruct (fle p _); [destruct (fle acc p) eqn:E|];
        try done; by apply fle_refl. }
    destruct (IH (S i) acc' Hacc' Hl) as (Hwho & Hge & Hall). split; [|split].
    + destruct Hwho as [->|(k & Hk & Hok)].
      * unfold acc'. destruct (fle p (bh_cutoff q i m)) eqn:E; [|by left].
        destruct (fle acc p); [|by left].
        right. exists 0. by rewrite Nat.add_0_r.
      * right. exists (S k). by rewrite Nat.add_succ_r.
    + by apply fle_trans with acc'.
    + intros [|k] p' Hk Hok; simpl in Hk.
      * injection Hk as <-. rewrite Nat.add_0_r in Hok.
        apply fle_trans with acc'; [|done].
        unfold acc'. rewrite Hok.
        destruct (fle acc p) eqn:E; [by apply fle_refl|].
        destruct (fle_total acc p Hacc Hp); congruence.
      * apply (Hall k); [done|]. by rewrite Nat.add_succ_l, <- Nat.add_succ_r.
Qed.

Lemma fdr_threshold_cases q ps :
  let sorted := fdr_pvalues ps in
  let p_star := fdr_threshold q ps in
  (p_star = NInf \/ exists k, sorted !! k = Some p_star /\ bh_ok q sorted k) /\
  (forall k p, sorted !! k = Some p ->
               fle p (bh_cutoff q k (length sorted)) = true ->
               fle p p_star = true).
Proof.
  intros sorted p_star.
  assert (Hnn : Forall (fun p => isnan p = false) sorted).
  { apply Forall_forall. intros p. apply fdr_pvalues_not_nan. }
  destruct (largest_p_loop_spec q (length sorted) sorted 0 NInf eq_refl Hnn)
    as (Hwho & _ & Hall).
  split; [|exact Hall].
  destruct Hwho as [H|(k & Hk & Hok)]; [by left|right].
  exists k. split; [done|]. by exists p_star.
Qed.

Lemma fdr_accept_elem p_star cands ps c p :
  (c, p) ∈ fdr_accept p_star cands ps <->
  (c, p) ∈ zip cands ps /\ flt p p_star = true.
Proof. unfold fdr_accept. rewrite list_elem_of_filter. simpl. tauto. Qed.

Lemma fdr_accept_NInf cands ps : fdr_accept NInf cands ps = [].
Proof.
  unfold fdr_accept. induction (zip cands ps) as [|[c p] l IH]; [done|].
  rewrite filter_cons. simpl. by rewrite flt_NInf.
Qed.

(** C3: the Benjamini-Hochberg step, for every rounding of the arithmetic.
    [sorted] is the ascending arrangement of the m surviving p-values (NaN
    read as 1) and [cutoff i] the double that line 272 computes at index
    [i]: [q * (i + 1) / m], the product rounded and then the quotient.
    When some index passes [p_(i) <= cutoff i], the threshold is the
    p-value of a passing index, that of the largest one, and no passing
    p-value exceeds it; when none passes, the threshold stays at minus
    infinity and nothing is accepted.  A candidate is accepted exactly when
    its own p-value is strictly below the threshold, so a p-value equal to
    the threshold is never accepted. *)
Theorem fdr_threshold_spec q cands ps :
  let sorted := fdr_pvalues ps in
  let m := length sorted in
  let cutoff i := fdiv (fmul q (of_nat (i + 1))) (of_nat m) in
  let passes i := exists p, sorted !! i = Some p /\ fle p (cutoff i) = true in
  let p_star := fdr_threshold q ps in
  sorted ≡ₚ nan_to_one <$> ps /\
  m = length ps /\
  (forall i j x y, i <= j -> sorted !! i = Some x -> sorted !! j = Some y ->
                   fle x y = true) /\
  (forall i, passes i -> exists k, passes k /\ sorted !! k = Some p_star) /\
  (forall i, passes i -> (forall j, passes j -> j <= i) ->
             sorted !! i = Some p_star) /\
  (forall i p, sorted !! i = Some p -> fle p (cutoff i) = true ->
               fle p p_star = true) /\
  ((forall i, ~ passes i) ->
   p_star = NInf /\ fdr_accept p_star cands ps = []) /\
  (forall c p, (c, p) ∈ fdr_accept p_star cands ps <->
               (c, p) ∈ zip cands ps /\ flt p p_star = true) /\
  (forall c, (c, p_star) ∉ fdr_accept p_star cands ps).
Proof.
  intros sorted m cutoff passes p_star.
  destruct (fdr_threshold_cases q ps) as (Hwho & Hall).
  fold sorted p_star in Hwho, Hall.
  change (forall k p, sorted !! k = Some p -> fle p (cutoff k) = true ->
                      fle p p_star = true) in Hall.
  change (p_star = NInf \/ exists k, sorted !! k = Some p_star /\ passes k)
    in Hwho.
  split; [apply fdr_pvalues_perm|].
  split; [unfold m, sorted; by rewrite fdr_pvalues_perm, length_fmap|].
  split; [intros i j x y; apply fdr_pvalues_sorted|].
  split; [|split; [|split; [exact Hall|split; [|split]]]].
  - intros i (x & Hx & Hok).
    destruct Hwho as [Hinf|(k & Hk & Hpk)]; [|by exists k].
    exists i. split; [by exists x|].
    pose proof (Hall i x Hx Hok) as Hle. rewrite Hinf in Hle |- *.
    rewrite Hx. f_equal. by destruct x.
  - intros i (x & Hx & Hok) Hmax.
    assert (Hxn : isnan x = false)
      by (eapply fdr_pvalues_not_nan, list_elem_of_lookup_2, Hx).
    rewrite Hx. f_equal. apply fle_antisym; [by apply (Hall i)|].
    destruct Hwho as [->|(k & Hk & Hbk)].
    + by destruct x.
    + apply (fdr_pvalues_sorted ps k i); [by apply Hmax|done..].
  - intros Hnone. assert (p_star = NInf) as ->.
    { destruct Hwho as [?|(k & _ & Hk)]; [done|]. by destruct (Hnone k). }
    split; [done|]. apply fdr_accept_NInf.
  - apply fdr_accept_elem.
  - intros c (_ & H)%fdr_accept_elem. by rewrite flt_irrefl in H.
Qed.

(** C10: when the p-values that survive the cluster collapse are all equal
    to one value [p], the threshold is either minus infinity or that common
    value (1 when [p] is NaN), so that no p-value is strictly below it: the
    acceptance step keeps nothing and
    [candidate_uniform_distribution_test] returns the "no loops" result. *)
Theorem equal_pvalues_no_loops uniform mannwhitneyu dbscan
    pHiCMatrix pCandidates pWindowSize pPValue pQValue survivors pvalues p :
  cluster_survivors uniform mannwhitneyu dbscan pHiCMatrix pCandidates
    pWindowSize pPValue = Ok (survivors, pvalues) ->
  pvalues <> [] ->
  Forall (fun x => x = p) pvalues ->
  (fdr_threshold pQValue pvalues = NInf \/
   fdr_threshold pQValue pvalues = nan_to_one p) /\
  fdr_accept (fdr_threshold pQValue pvalues) survivors pvalues = [] /\
  candidate_uniform_distribution_test uniform mannwhitneyu dbscan pHiCMatrix
    pCandidates pWindowSize pPValue pQValue = Ok None.
Proof.
  intros Hsurv _ Hall.
  assert (Hstar : fdr_threshold pQValue pvalues = NInf \/
                  fdr_threshold pQValue pvalues = nan_to_one p).
  { destruct (fdr_threshold_cases pQValue pvalues) as ([H|(k & Hk & _)] & _);
      [by left|right].
    apply list_elem_of_lookup_2 in Hk. rewrite fdr_pvalues_perm in Hk.
    apply list_elem_of_fmap in Hk as (e & -> & He).
    rewrite Forall_forall in Hall. by rewrite (Hall e He). }
  assert (Hnone : fdr_accept (fdr_threshold pQValue pvalues) survivors pvalues = []).
  { apply elem_of_nil_inv. intros [c x] (Hin & Hlt)%fdr_accept_elem.
    apply elem_of_zip_r in Hin. rewrite Forall_forall in Hall.
    rewrite (Hall x Hin) in Hlt.
    destruct Hstar as [E|E]; rewrite E in Hlt.
    - by rewrite flt_NInf in Hlt.
    - destruct (isnan p) eqn:Hp; [by destruct p|].
      unfold nan_to_one in Hlt. by rewrite Hp, flt_irrefl in Hlt. }
  split; [done|]. split; [done|].
  unfold candidate_uniform_distribution_test. rewrite Hsurv. simpl.
  by rewrite Hnone.
Qed.

End Threshold.

Lemma equal_pvalues_no_loops_witness :
  candidate_uniform_distribution_test uniform_index
    (mannwhitneyu_const (Fin (1 / 100))) dbscan_noise matrix_1x1
    [(0%Z, 0%Z)] 4%Z (Fin (5 / 100)) (Fin (5 / 100)) = Ok None.
Proof.
  assert (Hs : cluster_survivors uniform_index
                 (mannwhitneyu_const (Fin (1 / 100))) dbscan_noise matrix_1x1
                 [(0%Z, 0%Z)] 4%Z (Fin (5 / 100))
               = Ok ([(0%Z, 0%Z)], [Fin (1 / 100)])).
  { feval. reflexivity. }
  apply (equal_pvalues_no_loops _ _ _ _ _ _ _ (Fin (5 / 100)) _ _
           (Fin (1 / 100)) Hs); [done|].
  by repeat constructor.
Defined.

(** ** The cluster collapse *)

Section ClusterCollapse.

Variable pvalues : list float64.
Hypothesis pvalues_not_nan : Forall (fun p => isnan p = false) pvalues.

Lemma pvalue_not_nan i p : pvalues !! i = Some p -> isnan p = false.
Proof.
  intros H. rewrite Forall_forall in pvalues_not_nan.
  by eapply pvalues_not_nan, list_elem_of_lookup_2.
Qed.

Lemma representative_snoc_other pre mask c j p c' b :
  length mask = length pre -> c' <> c ->
  representative pvalues pre mask c j p ->
  representative pvalues (pre ++ [c']) (mask ++ [b]) c j p.
Proof.
  intros Hlen Hne (Hj & Hp & Hm & Hothers & Hmin).
  pose proof (lookup_lt_Some _ _ _ Hj) as Hjlt.
  split; [by rewrite lookup_app_l|].
  split; [done|].
  split; [by rewrite lookup_app_l by lia|].
  split.
  - intros k [[Hk Hc]|[_ ?]]%lookup_snoc_Some Hkj; [|congruence].
    rewrite lookup_app_l by lia. by apply Hothers.
  - intros k pk [[Hk Hc]|[_ ?]]%lookup_snoc_Some Hpk; [|congruence].
    by apply (Hmin k pk).
Qed.

Lemma representative_insert_other pre mask c j p c' j' :
  pre !! j' = Some c' -> c' <> c ->
  representative pvalues pre mask c j p ->
  representative pvalues pre (<[j' := false]> mask) c j p.
Proof.
  intros Hj' Hne (Hj & Hp & Hm & Hothers & Hmin).
  split; [done|]. split; [done|].
  split; [rewrite list_lookup_insert_ne; [done|]; intros ->; congruence|].
  split; [|done].
  intros k Hk Hkj. rewrite list_lookup_insert_ne; [by apply Hothers|].
  intros ->. congruence.
Qed.

Lemma cluster_inv_noise pre mask cluster_dict :
  cluster_inv pvalues pre mask cluster_dict ->
  cluster_inv pvalues (pre ++ [(-1)%Z]) (mask ++ [true]) cluster_dict.
Proof.
  intros (Hlen & Hnoise & Hdom & Hrep).
  split; [|split; [|split; [|intros c0 j0 p0 H; split]]].
  - rewrite !length_app. simpl. lia.
  - intros k [[Hk Hc]|[-> _]]%lookup_snoc_Some.
    + rewrite lookup_app_l by lia. by apply Hnoise.
    + rewrite <- Hlen. by rewrite list_lookup_middle.
  - intros c Hc [Hin|Hin%list_elem_of_singleton]%elem_of_app; [|congruence].
    by apply Hdom.
  - by apply (Hrep c0 j0 p0).
  - apply representative_snoc_other; [done| |by apply (Hrep c0 j0 p0)].
    intros <-. by apply (Hrep (-1)%Z j0 p0).
Qed.

Lemma cluster_inv_new pre mask cluster_dict c p :
  cluster_inv pvalues pre mask cluster_dict ->
  c <> (-1)%Z -> cluster_dict !! c = None ->
  pvalues !! length pre = Some p ->
  cluster_inv pvalues (pre ++ [c]) (mask ++ [true])
    (<[c := (length pre, p)]> cluster_dict).
Proof.
  intros (Hlen & Hnoise & Hdom & Hrep) Hc Hnone Hp.
  assert (Hfresh : forall k, pre !! k = Some c -> False).
  { intros k Hk. destruct (Hdom c Hc) as [? ?]; [|congruence].
    by eapply list_elem_of_lookup_2. }
  split; [|split; [|split; [|intros c0 j0 p0 H; split]]].
  - rewrite !length_app. simpl. lia.
  - intros k [[Hk Hk']|[-> ?]]%lookup_snoc_Some; [|congruence].
    rewrite lookup_app_l by lia. by apply Hnoise.
  - intros c' Hc' Hin. apply lookup_insert_is_Some.
    destruct (decide (c = c')); [by left|right]. split; [done|].
    apply Hdom; [done|].
    apply elem_of_app in Hin as [?|?%list_elem_of_singleton]; [done|congruence].
  - apply lookup_insert_Some in H as [[<- _]|[_ H]]; [done|].
    by apply (Hrep c0 j0 p0).
  - apply lookup_insert_Some in H as [[<- [= <- <-]]|[Hne H]].
    + split; [by apply list_lookup_middle|].
      split; [done|].
      split; [rewrite <- Hlen; by apply list_lookup_middle|].
      split.
      * intros k [[Hk Hk']|[-> _]]%lookup_snoc_Some Hkj; [|done].
        by destruct (Hfresh k).
      * intros k pk [[Hk Hk']|[-> _]]%lookup_snoc_Some Hpk;
          [by destruct (Hfresh k)|].
        assert (pk = p) as -> by congruence.
        split; [|lia]. apply fle_refl. by eapply pvalue_not_nan.
    + apply representative_snoc_other; [done|done|by apply (Hrep c0 j0 p0)].
Qed.

Lemma cluster_inv_better pre mask cluster_dict c p j pj :
  cluster_inv pvalues pre mask cluster_dict ->
  cluster_dict !! c = Some (j, pj) ->
  pvalues !! length pre = Some p ->
  flt p pj = true ->
  cluster_inv pvalues (pre ++ [c]) (<[j := false]> mask ++ [true])
    (<[c := (length pre, p)]> cluster_dict).
Proof.
  intros (Hlen & Hnoise & Hdom & Hrep) Hold Hp Hlt.
  destruct (Hrep c j pj Hold) as (Hc & Hj & Hpj & Hmj & Hothers & Hmin).
  pose proof (lookup_lt_Some _ _ _ Hj) as Hjlt.
  split; [|split; [|split; [|intros c0 j0 p0 H; split]]].
  - rewrite !length_app, length_insert. simpl. lia.
  - intros k [[Hk Hk']|[-> ?]]%lookup_snoc_Some; [|congruence].
    rewrite lookup_app_l by (rewrite length_insert; lia).
    rewrite list_lookup_insert_ne; [by apply Hnoise|].
    intros ->. congruence.
  - intros c' Hc' Hin. apply lookup_insert_is_Some.
    destruct (decide (c = c')); [by left|right]. split; [done|].
    apply Hdom; [done|].
    apply elem_of_app in Hin as [?|?%list_elem_of_singleton]; [done|congruence].
  - apply lookup_insert_Some in H as [[<- _]|[_ H]]; [done|].
    by apply (Hrep c0 j0 p0).
  - apply lookup_insert_Some in H as [[<- [= <- <-]]|[Hne H]].
    + split; [by apply list_lookup_middle|].
      split; [done|].
      split; [apply list_lookup_middle; rewrite length_insert; lia|].
      split.
      * intros k [[Hk Hk']|[-> _]]%lookup_snoc_Some Hkj; [|done].
        rewrite lookup_app_l by (rewrite length_insert; lia).
        destruct (decide (k = j)) as [->|Hkne].
        -- apply list_lookup_insert_eq. lia.
        -- rewrite list_lookup_insert_ne by done. by apply Hothers.
      * intros k pk [[Hk Hk']|[-> _]]%lookup_snoc_Some Hpk.
        -- assert (flt p pk = true) as Hs.
           { apply flt_fle_trans with pj; [done|]. by apply (Hmin k pk). }
           split; [by apply flt_fle|done].
        -- assert (pk = p) as -> by congruence.
           split; [|lia]. apply fle_refl. by eapply pvalue_not_nan.
    + apply representative_snoc_other;
        [by rewrite length_insert|done|].
      apply representative_insert_other with c; [done|done|].
      by apply (Hrep c0 j0 p0).
Qed.

Lemma cluster_inv_worse pre mask cluster_dict c p j pj :
  cluster_inv pvalues pre mask cluster_dict ->
  cluster_dict !! c = Some (j, pj) ->
  pvalues !! length pre = Some p ->
  flt p pj = false ->
  cluster_inv pvalues (pre ++ [c]) (mask ++ [false]) cluster_dict.
Proof.
  intros (Hlen & Hnoise & Hdom & Hrep) Hold Hp Hlt.
  destruct (Hrep c j pj Hold) as (Hc & Hj & Hpj & Hmj & Hothers & Hmin).
  pose proof (lookup_lt_Some _ _ _ Hj) as Hjlt.
  split; [|split; [|split; [|intros c0 j0 p0 H; split]]].
  - rewrite !length_app. simpl. lia.
  - intros k [[Hk Hk']|[-> ?]]%lookup_snoc_Some; [|congruence].
    rewrite lookup_app_l by lia. by apply Hnoise.
  - intros c' Hc' [Hin|Hin%list_elem_of_singleton]%elem_of_app;
      [by apply Hdom|by subst; eexists].
  - by apply (Hrep c0 j0 p0).
  - destruct (decide (c0 = c)) as [->|Hne].
    + assert (j0 = j /\ p0 = pj) as [-> ->] by (split; congruence).
      split; [by rewrite lookup_app_l|].
      split; [done|].
      split; [by rewrite lookup_app_l by lia|].
      split.
      * intros k [[Hk Hk']|[-> _]]%lookup_snoc_Some Hkj.
        -- rewrite lookup_app_l by lia. by apply Hothers.
        -- rewrite <- Hlen. by apply list_lookup_middle.
      * intros k pk [[Hk Hk']|[-> _]]%lookup_snoc_Some Hpk;
          [by apply (Hmin k pk)|].
        assert (pk = p) as -> by congruence.
        split; [|lia].
        apply flt_false_fle; [by eapply pvalue_not_nan..|done].
    + apply representative_snoc_other; [done|done|by apply (Hrep c0 j0 p0)].
Qed.

Lemma cluster_loop_inv rest : forall pre mask cluster_dict,
  cluster_inv pvalues pre mask cluster_dict ->
  length (pre ++ rest) <= length pvalues ->
  exists mask' cluster_dict',
    cluster_loop pvalues (length pre) rest mask cluster_dict = Ok mask' /\
    cluster_inv pvalues (pre ++ rest) mask' cluster_dict'.
Proof.
  induction rest as [|c rest IH]; intros pre mask cluster_dict Hinv Hlen.
  - exists mask, cluster_dict. by rewrite app_nil_r.
  - rewrite cons_middle, app_assoc in Hlen |- *.
    assert (Hnext : S (length pre) = length (pre ++ [c]))
      by (rewrite length_app; simpl; lia).
    destruct (lookup_lt_is_Some_2 pvalues (length pre)) as [p Hp].
    { rewrite !length_app in Hlen. simpl in Hlen. lia. }
    simpl. rewrite Hp, Hnext.
    destruct (decide (c = (-1)%Z)) as [->|Hc].
    { apply IH; [by apply cluster_inv_noise|done]. }
    destruct (cluster_dict !! c) as [[j pj]|] eqn:Hd.
    + destruct (flt p pj) eqn:Hlt.
      * apply IH; [by eapply cluster_inv_better|done].
      * apply IH; [by eapply cluster_inv_worse|done].
    + apply IH; [by apply cluster_inv_new|done].
Qed.

Lemma cluster_inv_empty : cluster_inv pvalues [] [] ∅.
Proof.
  split; [done|]. split; [done|]. split; [|done].
  intros c _ Hin. by apply elem_of_nil in Hin.
Qed.

End ClusterCollapse.

(** C7: the mask computed from the DBSCAN labels, given one p-value (not
    NaN) per labelled candidate.  Every candidate labelled -1 is kept.  In
    every other cluster exactly one member is kept, all other members are
    dropped; the kept member has the lowest p-value of the cluster and, among
    the members with that p-value, the smallest index. *)
Theorem cluster_mask_spec pvalues clusters :
  length clusters = length pvalues ->
  Forall (fun p => isnan p = false) pvalues ->
  exists mask,
    cluster_mask pvalues clusters = Ok mask /\
    length mask = length clusters /\
    (forall k, clusters !! k = Some (-1)%Z -> mask !! k = Some true) /\
    (forall c, c <> (-1)%Z -> c ∈ clusters ->
       exists j p,
         clusters !! j = Some c /\ pvalues !! j = Some p /\
         mask !! j = Some true /\
         (forall k, clusters !! k = Some c -> k <> j -> mask !! k = Some false) /\
         (forall k pk, clusters !! k = Some c -> pvalues !! k = Some pk ->
                       fle p pk = true /\ (pk = p -> j <= k))).
Proof.
  intros Hlen Hnn.
  destruct (cluster_loop_inv pvalues Hnn clusters [] [] ∅
              (cluster_inv_empty pvalues)) as (mask & d & Hrun & Hinv).
  { simpl. lia. }
  simpl in Hrun, Hinv. destruct Hinv as (Hmlen & Hnoise & Hdom & Hrep).
  exists mask. split; [exact Hrun|]. split; [done|]. split; [done|].
  intros c Hc Hin. destruct (Hdom c Hc Hin) as [[j p] Hd].
  destruct (Hrep c j p Hd) as (_ & Hj & Hp & Hm & Hothers & Hmin).
  exists j, p. split; [done|]. split; [done|]. split; [done|]. split; [done|].
  intros k pk Hk Hpk. destruct (Hmin k pk Hk Hpk) as [Hle Hfirst].
  split; [done|]. intros ->.
  destruct (decide (j <= k)) as [|Hgt]; [done|].
  rewrite flt_irrefl in Hfirst. discriminate Hfirst. lia.
Qed.

Lemma cluster_mask_spec_witness :
  exists mask,
    cluster_mask [Fin (2 / 100); Fin (1 / 100); Fin (3 / 100)] [0; 0; -1]%Z
      = Ok mask /\
    length mask = 3.
Proof.
  destruct (cluster_mask_spec
              [Fin (2 / 100); Fin (1 / 100); Fin (3 / 100)] [0; 0; -1]%Z)
    as (mask & Hrun & Hlen & _).
  - reflexivity.
  - repeat constructor.
  - exists mask. split; [exact Hrun | exact Hlen].
Defined.

Example cluster_mask_example :
  cluster_mask [Fin (2 / 100); Fin (1 / 100); Fin (3 / 100); Fin (1 / 100)]
               [0; 0; -1; 0]%Z
  = Ok [false; true; true; false].
Proof.
  unfold cluster_mask.
  repeat (simpl; first [rewrite lookup_empty | rewrite lookup_insert_eq
                       | rewrite lookup_insert_ne by done | progress rcompare]).
  reflexivity.
Qed.

(** ** The tester *)

Lemma bool_index_length {A} (arr : list A) mask l :
  bool_index arr mask = Ok l ->
  length l = length (filter (fun b => b = true) mask).
Proof.
  unfold bool_index.
  destruct (decide (length mask = length arr \/ length mask = 0))
    as [[Hlen|Hlen]|]; [| |done]; intros [= <-].
  - revert mask Hlen.
    induction arr as [|a arr IH]; intros [|b mask] Hlen; simpl in *; try done.
    rewrite filter_cons. destruct b; simpl; [f_equal|]; apply IH; lia.
  - apply nil_length_inv in Hlen as ->. by destruct arr.
Qed.

Section Tester.

Context {rounding : Rounding}.

Variable uniform : nat -> float64 -> float64 -> nat -> result (list float64).
Variable mannwhitneyu : list float64 -> list float64 -> result float64.
Variable dbscan : list (Z * Z) -> Z -> list Z.

Lemma uniform_test_Some pHiCMatrix w pPValue i candidate p :
  uniform_test uniform mannwhitneyu pHiCMatrix w pPValue i candidate
    = Ok (Some p) ->
  isnan p = false /\ flt p pPValue = true.
Proof.
  unfold uniform_test.
  destruct (np_min _); simpl; [|done].
  destruct (np_max _); simpl; [|done].
  destruct (uniform _ _ _ _); simpl; [|done].
  destruct (mannwhitneyu _ _) as [pv|]; [|done].
  destruct (isnan pv) eqn:Hn; [done|].
  destruct (flt pv pPValue) eqn:Hlt; [|done].
  by intros [= <-].
Qed.

Lemma tester_loop_spec pHiCMatrix w pPValue pCandidates :
  forall i mask pvalues,
  tester_loop uniform mannwhitneyu pHiCMatrix w pPValue i pCandidates
    = Ok (mask, pvalues) ->
  length mask = length pCandidates /\
  length pvalues = length (filter (fun b => b = true) mask) /\
  Forall (fun p => isnan p = false /\ flt p pPValue = true) pvalues.
Proof.
  induction pCandidates as [|c cands IH]; intros i mask pvalues; simpl.
  - by intros [= <- <-].
  - destruct (uniform_test _ _ _ _ _ _ _) as [verdict|] eqn:Hv; simpl; [|done].
    destruct (tester_loop _ _ _ _ _ _ _) as [[mask' pvalues']|] eqn:Hrest;
      simpl; [|done].
    intros [= <- <-]. destruct (IH _ _ _ Hrest) as (Hlen & Hcount & Hall).
    split; [simpl; lia|]. rewrite filter_cons.
    destruct verdict as [p|]; simpl.
    + split; [simpl; lia|]. constructor; [|done].
      by eapply uniform_test_Some.
    + done.
Qed.

Lemma filter_true_nil mask :
  length (filter (fun b : bool => b = true) mask) = 0 ->
  forall {A} (arr : list A), length mask = length arr ->
  bool_index arr mask = Ok [].
Proof.
  intros Hnone A arr Hlen. unfold bool_index.
  rewrite decide_True by (by left).
  f_equal. revert arr Hlen.
  induction mask as [|b mask IH]; intros [|a arr] Hlen; simpl in *; try done.
  rewrite filter_cons in Hnone. destruct b; simpl in *; [lia|].
  apply IH; [done|lia].
Qed.

(** C2: the path on which the Mann-Whitney stage leaves no candidate.
    Whenever the tester masks out every candidate it was given,
    [pCandidates[mask]] is an array without rows, [euclidean_distances]
    raises ValueError on it, and
    [candidate_uniform_distribution_test] raises instead of returning the
    "no loops" result. *)
Theorem empty_after_tester_raises pHiCMatrix pCandidates w pPValue pQValue mask :
  tester_loop uniform mannwhitneyu pHiCMatrix w pPValue 0 pCandidates
    = Ok (mask, []) ->
  candidate_uniform_distribution_test uniform mannwhitneyu dbscan
    pHiCMatrix pCandidates w pPValue pQValue = Raise ValueError.
Proof.
  intros Ht. destruct (tester_loop_spec _ _ _ _ _ _ _ Ht) as (Hlen & Hcount & _).
  unfold candidate_uniform_distribution_test, cluster_survivors.
  rewrite Ht. simpl.
  by rewrite (filter_true_nil mask (eq_sym Hcount) pCandidates Hlen).
Qed.

(** The two sibling paths return the "no loops" result: no candidate after
    the screener, and no candidate accepted by the Benjamini-Hochberg
    step. *)
Lemma empty_after_screen_no_loops pHiCMatrix pZscoreMatrix zt w pPValue pQValue pit :
  screen pHiCMatrix pZscoreMatrix zt pit = Ok None ->
  compute_long_range_contacts uniform mannwhitneyu dbscan pHiCMatrix
    pZscoreMatrix zt w pPValue pQValue pit = Ok None.
Proof. intros H. unfold compute_long_range_contacts. by rewrite H. Qed.

Lemma empty_after_fdr_no_loops pHiCMatrix pCandidates w pPValue pQValue
    survivors pvalues :
  cluster_survivors uniform mannwhitneyu dbscan pHiCMatrix pCandidates w
    pPValue = Ok (survivors, pvalues) ->
  fdr_accept (fdr_threshold pQValue pvalues) survivors pvalues = [] ->
  candidate_uniform_distribution_test uniform mannwhitneyu dbscan
    pHiCMatrix pCandidates w pPValue pQValue = Ok None.
Proof.
  intros Hs Hnone. unfold candidate_uniform_distribution_test.
  rewrite Hs. cbn [mbind result_bind]. by rewrite Hnone.
Qed.

Lemma bind_length_le {A B} (f : A -> list B) (l : list A) :
  (forall a, length (f a) <= 1) -> length (l ≫= f) <= length l.
Proof.
  intros Hf. induction l as [|a l IH]; [done|].
  change ((a :: l) ≫= f) with (f a ++ (l ≫= f)).
  rewrite length_app. specialize (Hf a). simpl. lia.
Qed.

Lemma np_delete_length {A} (arr : list A) idx :
  length (np_delete arr idx) <= length arr.
Proof.
  unfold np_delete.
  set (f := fun ia : nat * A => if decide (ia.1 ∈ idx) then [] else [ia.2]).
  assert (Hf : forall ia, length (f ia) <= 1).
  { intros [i a]. unfold f. simpl. destruct (decide _); simpl; lia. }
  pose proof (bind_length_le f (imap (fun i a => (i, a)) arr) Hf) as Hle.
  by rewrite length_imap in Hle.
Qed.

Lemma fdr_accept_length p_star cands ps :
  length (fdr_accept p_star cands ps) <= length cands.
Proof.
  unfold fdr_accept.
  pose proof (length_filter (fun cp : Z * Z * float64 => flt cp.2 p_star = true)
                (zip cands ps)) as Hle.
  rewrite length_zip in Hle. lia.
Qed.

(** C5: the Benjamini-Hochberg step runs after the cluster collapse and
    before the canonical orientation and the duplicate scan.  Whenever
    [candidate_uniform_distribution_test] returns loops, the p-values it
    sorted, and their number m, are those of the candidates left by the
    tester and the cluster collapse; the loops returned are the accepted
    ones among these, canonically oriented and passed through the
    duplicate scan, so they are not more numerous than m. *)
Theorem fdr_runs_on_cluster_survivors pHiCMatrix pCandidates w pPValue pQValue
    loops loop_pvalues :
  candidate_uniform_distribution_test uniform mannwhitneyu dbscan
    pHiCMatrix pCandidates w pPValue pQValue = Ok (Some (loops, loop_pvalues)) ->
  exists survivors pvalues,
    cluster_survivors uniform mannwhitneyu dbscan pHiCMatrix pCandidates w
      pPValue = Ok (survivors, pvalues) /\
    length pvalues = length survivors /\
    fdr_pvalues pvalues ≡ₚ nan_to_one <$> pvalues /\
    length (fdr_pvalues pvalues) = length survivors /\
    (loops, loop_pvalues) =
      remove_duplicates
        (fdr_accept (fdr_threshold pQValue pvalues) survivors pvalues) /\
    length loops <= length survivors.
Proof.
  unfold candidate_uniform_distribution_test.
  destruct (cluster_survivors _ _ _ _ _ _ _) as [[survivors pvalues]|] eqn:Hs;
    cbn [mbind result_bind]; [|done].
  destruct (decide _) as [|Hne]; [done|]. intros Hout.
  assert (Hout' : remove_duplicates
                    (fdr_accept (fdr_threshold pQValue pvalues) survivors pvalues)
                  = (loops, loop_pvalues)) by congruence.
  clear Hout. rename Hout' into Hout.
  exists survivors, pvalues. split; [done|].
  assert (Hlen : length pvalues = length survivors).
  { unfold cluster_survivors in Hs.
    destruct (tester_loop _ _ _ _ _ _ _) as [[m1 pv]|]; simpl in Hs; [|done].
    destruct (bool_index pCandidates m1) as [c1|]; simpl in Hs; [|done].
    destruct (clusters_of _ _ _) as [cl|]; simpl in Hs; [|done].
    destruct (cluster_mask pv cl) as [m2|]; simpl in Hs; [|done].
    destruct (bool_index c1 m2) as [c2|] eqn:H2; simpl in Hs; [|done].
    destruct (bool_index pv m2) as [pv2|] eqn:H3; simpl in Hs; [|done].
    injection Hs as <- <-.
    apply bool_index_length in H2 as ->.
    by apply bool_index_length in H3 as ->. }
  split; [done|]. split; [apply fdr_pvalues_perm|].
  split; [by rewrite fdr_pvalues_perm, length_fmap|].
  split; [by rewrite <- Hout|].
  unfold remove_duplicates in Hout. injection Hout as <- _.
  pose proof (np_delete_length
                (canonical <$>
                   (fst <$> fdr_accept (fdr_threshold pQValue pvalues)
                              survivors pvalues))
                (duplicate_scan 0
                   (canonical <$>
                      (fst <$> fdr_accept (fdr_threshold pQValue pvalues)
                                 survivors pvalues)) ∅ ∅)) as Hle.
  rewrite !length_fmap in Hle.
  pose proof (fdr_accept_length (fdr_threshold pQValue pvalues) survivors
                pvalues).
  lia.
Qed.

End Tester.

(** *** The order of the stages on an example

    Three screened candidates: (0, 5) and its mirror image (5, 0), more than
    a window apart, and (10, 15); the test gives them the p-values 0.020,
    0.045 and 0.030, and DBSCAN labels all three as noise. *)

Lemma example_survivors :
  cluster_survivors uniform_index (mannwhitneyu_table pvalue_table)
    dbscan_noise matrix_16x16 [(0, 5); (5, 0); (10, 15)]%Z 4%Z
    (Fin (50 / 1000))
  = Ok ([(0, 5); (5, 0); (10, 15)]%Z,
        [Fin (20 / 1000); Fin (45 / 1000); Fin (30 / 1000)]).
Proof. feval. reflexivity. Qed.

Lemma example_threshold :
  fdr_threshold (Fin (50 / 1000))
    [Fin (20 / 1000); Fin (45 / 1000); Fin (30 / 1000)] = Fin (45 / 1000).
Proof. feval. reflexivity. Qed.

Lemma example_accept :
  fdr_accept (Fin (45 / 1000)) [(0, 5); (5, 0); (10, 15)]%Z
    [Fin (20 / 1000); Fin (45 / 1000); Fin (30 / 1000)]
  = [((0, 5)%Z, Fin (20 / 1000)); ((10, 15)%Z, Fin (30 / 1000))].
Proof. feval. reflexivity. Qed.

#[local] Set Warnings "-clear-no-such-hyp".

Ltac scan_duplicates :=
  unfold remove_duplicates, canonical; simpl;
  repeat first [rewrite decide_True by set_solver
               | rewrite decide_False by set_solver];
  simpl.

Lemma example_remove_duplicates :
  remove_duplicates
    [((0, 5)%Z, Fin (20 / 1000)); ((10, 15)%Z, Fin (30 / 1000))]
  = ([(0, 5); (10, 15)]%Z, [Fin (20 / 1000); Fin (30 / 1000)]).
Proof. scan_duplicates. reflexivity. Qed.

Lemma example_loops :
  candidate_uniform_distribution_test uniform_index
    (mannwhitneyu_table pvalue_table) dbscan_noise matrix_16x16
    [(0, 5); (5, 0); (10, 15)]%Z 4%Z (Fin (50 / 1000)) (Fin (50 / 1000))
  = Ok (Some ([(0, 5); (10, 15)]%Z, [Fin (20 / 1000); Fin (30 / 1000)])).
Proof.
  unfold candidate_uniform_distribution_test.
  rewrite example_survivors. cbn [mbind result_bind].
  rewrite example_threshold, example_accept, example_remove_duplicates.
  reflexivity.
Qed.

Lemma example_deduplicated_first :
  remove_duplicates
    (zip [(0, 5); (5, 0); (10, 15)]%Z
         [Fin (20 / 1000); Fin (45 / 1000); Fin (30 / 1000)])
  = ([(0, 5); (10, 15)]%Z, [Fin (20 / 1000); Fin (30 / 1000)]).
Proof. scan_duplicates. reflexivity. Qed.

(** C5, counterexample to the order stated: on the example the
    Benjamini-Hochberg step sorts three p-values (m = 3), whereas only two
    candidates remain once the canonical orientation and the duplicate scan
    have also been applied; and the outcome depends on it, since with m = 2
    the candidate (10, 15), which the code returns, would not be accepted. *)
Lemma fdr_before_duplicate_scan_counterexample :
  let survivors := [(0, 5); (5, 0); (10, 15)]%Z in
  let pvalues := [Fin (20 / 1000); Fin (45 / 1000); Fin (30 / 1000)] in
  let q := Fin (50 / 1000) in
  cluster_survivors uniform_index (mannwhitneyu_table pvalue_table)
    dbscan_noise matrix_16x16 survivors 4%Z q = Ok (survivors, pvalues) /\
  length (fdr_pvalues pvalues) = 3 /\
  length (deduplicated_pvalues survivors pvalues) = 2 /\
  candidate_uniform_distribution_test uniform_index
    (mannwhitneyu_table pvalue_table) dbscan_noise matrix_16x16 survivors
    4%Z q q
  = Ok (Some ([(0, 5); (10, 15)]%Z, [Fin (20 / 1000); Fin (30 / 1000)])) /\
  fdr_after_deduplication q survivors pvalues
  = Some ([(0, 5)%Z], [Fin (20 / 1000)]).
Proof.
  cbv zeta.
  split; [apply example_survivors|].
  split; [by rewrite fdr_pvalues_perm|].
  split; [unfold deduplicated_pvalues; by rewrite example_deduplicated_first|].
  split; [apply example_loops|].
  unfold fdr_after_deduplication. rewrite example_deduplicated_first.
  feval. reflexivity.
Qed.

Lemma fdr_runs_on_cluster_survivors_witness :
  exists survivors pvalues,
    cluster_survivors uniform_index (mannwhitneyu_table pvalue_table)
      dbscan_noise matrix_16x16 [(0, 5); (5, 0); (10, 15)]%Z 4%Z
      (Fin (50 / 1000)) = Ok (survivors, pvalues) /\
    length (fdr_pvalues pvalues) = length survivors.
Proof.
  destruct (fdr_runs_on_cluster_survivors uniform_index
              (mannwhitneyu_table pvalue_table) dbscan_noise matrix_16x16
              [(0, 5); (5, 0); (10, 15)]%Z 4%Z (Fin (50 / 1000))
              (Fin (50 / 1000)) _ _ example_loops)
    as (survivors & pvalues & Hs & _ & _ & Hm & _).
  exists survivors, pvalues. split; [exact Hs | exact Hm].
Defined.

(** ** The neighbourhood of a candidate *)

Lemma window_start_max x w : window_start x w = Z.max 0 (x - w).
Proof. unfold window_start. case_decide; lia. Qed.

Lemma window_end_min x w x_max : window_end x w x_max = Z.min (x + w) x_max.
Proof. unfold window_end. case_decide; lia. Qed.

Lemma py_slice_in_range n start stop :
  (0 <= start <= n)%Z -> (0 <= stop <= n)%Z ->
  py_slice n start stop = seqZ start (stop - start).
Proof.
  intros Hs He. unfold py_slice, slice_bound.
  repeat case_decide; try lia.
  by rewrite !Z.min_l by lia.
Qed.

Lemma elem_of_rectangle r0 r1 c0 c1 r c :
  (r, c) ∈ rectangle r0 r1 c0 c1 <-> (r0 <= r < r1 /\ c0 <= c < c1)%Z.
Proof.
  unfold rectangle. rewrite list_elem_of_bind. split.
  - intros (r' & (c' & Hin & Hc)%list_elem_of_bind & Hr).
    apply list_elem_of_singleton in Hin as [= -> ->].
    apply elem_of_seqZ in Hr, Hc. lia.
  - intros [Hr Hc]. exists r. split; [|apply elem_of_seqZ; lia].
    apply list_elem_of_bind. exists c. split; [by apply list_elem_of_singleton|].
    apply elem_of_seqZ. lia.
Qed.

Lemma NoDup_rectangle r0 r1 c0 c1 : NoDup (rectangle r0 r1 c0 c1).
Proof.
  unfold rectangle. apply NoDup_bind; [| |apply NoDup_seqZ].
  - intros r r' [a b] _ _ (c & Hin & _)%list_elem_of_bind
      (c' & Hin' & _)%list_elem_of_bind.
    apply list_elem_of_singleton in Hin, Hin'. congruence.
  - intros r _. apply NoDup_bind; [| |apply NoDup_seqZ].
    + intros c c' [a b] _ _ Hin Hin'.
      apply list_elem_of_singleton in Hin, Hin'. congruence.
    + intros c _. apply NoDup_singleton.
Qed.

Lemma length_row (r : Z) (cols : list Z) :
  length (cols ≫= fun c => [(r, c)]) = length cols.
Proof. induction cols as [|c cols IH]; [done|]. simpl. by f_equal. Qed.

Lemma length_rectangle r0 r1 c0 c1 :
  length (rectangle r0 r1 c0 c1) = Z.to_nat (r1 - r0) * Z.to_nat (c1 - c0).
Proof.
  unfold rectangle.
  rewrite <- (length_seqZ r0 (r1 - r0)), <- (length_seqZ c0 (c1 - c0)).
  induction (seqZ r0 (r1 - r0)) as [|r rows IH]; [done|].
  change (length ((seqZ c0 (c1 - c0) ≫= fun c => [(r, c)]) ++
                  (rows ≫= fun r => seqZ c0 (c1 - c0) ≫= fun c => [(r, c)]))
          = length (seqZ c0 (c1 - c0)) + length rows * length (seqZ c0 (c1 - c0))).
  by rewrite length_app, IH, length_row.
Qed.

Lemma neighborhood_positions_rectangle sh x y w :
  (0 <= w)%Z -> (0 <= x < sh.1)%Z -> (0 <= y < sh.2)%Z ->
  neighborhood_positions sh (x, y) w
  = rectangle (Z.max 0 (x - w)) (Z.min (x + w) sh.1)
              (Z.max 0 (y - w)) (Z.min (y + w) sh.2).
Proof.
  intros Hw Hx Hy. unfold neighborhood_positions, rectangle. simpl.
  rewrite !window_start_max, !window_end_min.
  by rewrite !py_slice_in_range by lia.
Qed.

Section Neighbourhood.

Context {rounding : Rounding}.

(** C6: for a candidate (x, y) inside the matrix and a window size w >= 0,
    the sample handed to the test is made of the entries of the dense
    matrix at the rows [max 0 (x - w) <= r < min (x + w) x_max] and the columns
    [max 0 (y - w) <= c < min (y + w) y_max], each position once, row by row:
    the upper end of both ranges is exclusive. *)
Theorem neighborhood_window m x y w :
  (0 <= w)%Z ->
  (0 <= x < (shape m).1)%Z ->
  (0 <= y < (shape m).2)%Z ->
  let start_x := Z.max 0 (x - w) in
  let end_x := Z.min (x + w) (shape m).1 in
  let start_y := Z.max 0 (y - w) in
  let end_y := Z.min (y + w) (shape m).2 in
  neighborhood_positions (shape m) (x, y) w
    = rectangle start_x end_x start_y end_y /\
  (forall r c, (r, c) ∈ neighborhood_positions (shape m) (x, y) w <->
               (start_x <= r < end_x /\ start_y <= c < end_y)%Z) /\
  NoDup (neighborhood_positions (shape m) (x, y) w) /\
  neighborhood m (x, y) w
    = (fun rc => toarray m rc.1 rc.2) <$> rectangle start_x end_x start_y end_y /\
  length (neighborhood m (x, y) w)
    = Z.to_nat (end_x - start_x) * Z.to_nat (end_y - start_y).
Proof.
  intros Hw Hx Hy start_x end_x start_y end_y.
  assert (Hpos : neighborhood_positions (shape m) (x, y) w
                 = rectangle start_x end_x start_y end_y)
    by (by apply neighborhood_positions_rectangle).
  split; [done|]. unfold neighborhood. rewrite Hpos.
  split; [intros r c; apply elem_of_rectangle|].
  split; [apply NoDup_rectangle|]. split; [done|].
  by rewrite length_fmap, length_rectangle.
Qed.

End Neighbourhood.

Lemma neighborhood_window_witness :
  length (neighborhood matrix_20x20 (10, 10)%Z 4%Z) = 64.
Proof.
  pose proof (neighborhood_window matrix_20x20 10 10 4
                ltac:(lia) ltac:(simpl; lia) ltac:(simpl; lia)) as H.
  destruct H as (_ & _ & _ & _ & Hlen). exact Hlen.
Defined.

(** C6, counterexample to the inclusive upper end: in a 20 x 20 matrix, for
    the candidate (10, 10) and window size 4, the entry at (14, 10) has its
    row and its column in the inclusive ranges [10 - 4, 10 + 4], well inside
    the matrix, and is not part of the sample, which has 8 x 8 entries and
    not 9 x 9. *)
Lemma neighborhood_inclusive_counterexample :
  (10 - 4 <= 14 <= 10 + 4 /\ 10 - 4 <= 10 <= 10 + 4)%Z /\
  (0 <= 14 < 20 /\ 0 <= 10 < 20)%Z /\
  ((14, 10)%Z ∉ neighborhood_positions (shape matrix_20x20) (10, 10)%Z 4%Z) /\
  toarray matrix_20x20 14 10 = Fin (50 + 0) /\
  (Fin (50 + 0) ∉ neighborhood matrix_20x20 (10, 10)%Z 4%Z) /\
  length (neighborhood matrix_20x20 (10, 10)%Z 4%Z) = 64.
Proof.
  split; [lia|]. split; [lia|].
  assert (Hpos : neighborhood_positions (shape matrix_20x20) (10, 10)%Z 4%Z
                 = rectangle 6 14 6 14)
    by (by rewrite neighborhood_positions_rectangle by (simpl; lia)).
  unfold neighborhood. rewrite Hpos.
  split; [rewrite elem_of_rectangle; lia|].
  split; [reflexivity|].
  split; [|by rewrite length_fmap, length_rectangle].
  intros ([r c] & Hv & Hrc%elem_of_rectangle)%list_elem_of_fmap.
  simpl in Hv, Hrc. unfold toarray in Hv. simpl in Hv.
  destruct (decide ((14, 10)%Z = (r, c))) as [[= <- <-]|_]; [lia|].
  injection Hv as Hv. lra.
Qed.

(** ** The diagonal normaliser *)

(** *** Arrays as tabulated functions *)

Section Arrays.

Context {rounding : Rounding}.

Lemma tabulate_lookup n F d : d < n -> tabulate n F !! d = Some (F d).
Proof.
  intros Hd. unfold tabulate. rewrite list_lookup_fmap, lookup_seq_lt by done.
  done.
Qed.

Lemma tabulate_length n F : length (tabulate n F) = n.
Proof. unfold tabulate. by rewrite length_fmap, length_seq. Qed.

Lemma tabulate_ext n F G :
  (forall k, k < n -> F k = G k) -> tabulate n F = tabulate n G.
Proof.
  intros H. unfold tabulate. apply list_fmap_ext.
  intros i k Hk. apply lookup_seq in Hk as [-> Hlt]. by apply H.
Qed.

Lemma replicate_tabulate n x : replicate n x = tabulate n (fun _ => x).
Proof.
  unfold tabulate. generalize 0. induction n as [|n IH]; intros s; [done|].
  simpl. f_equal. apply IH.
Qed.

Lemma zip_with_tabulate g n F G :
  zip_with g (tabulate n F) (tabulate n G) = tabulate n (fun k => g (F k) (G k)).
Proof.
  unfold tabulate. generalize 0. induction n as [|n IH]; intros s; [done|].
  simpl. f_equal. apply IH.
Qed.

Lemma fmap_tabulate g n F : g <$> tabulate n F = tabulate n (fun k => g (F k)).
Proof. unfold tabulate. by rewrite <- list_fmap_compose. Qed.

Lemma add_at_tabulate n F d x :
  d < n -> add_at (tabulate n F) d x = Ok (tabulate n (upd F d x)).
Proof.
  intros Hd. unfold add_at. rewrite tabulate_lookup by done. f_equal.
  apply list_eq. intros i. destruct (decide (i < n)) as [Hi|Hi].
  - rewrite (tabulate_lookup n (upd F d x)) by done. unfold upd.
    destruct (decide (i = d)) as [->|Hne].
    + apply list_lookup_insert_eq. by rewrite tabulate_length.
    + rewrite list_lookup_insert_ne by done. by apply tabulate_lookup.
  - rewrite !lookup_ge_None_2; [done| |].
    + rewrite tabulate_length. lia.
    + rewrite length_insert, tabulate_length. lia.
Qed.

Lemma sum_per_distance_loop_tabulate n l : forall S C,
  Forall (fun dx => dx.1 < n) l ->
  sum_per_distance_loop (tabulate n S, tabulate n C) l
  = Ok (tabulate n (accum S l),
        tabulate n (accum C ((fun dx => (dx.1, Fin 1)) <$> l))).
Proof.
  induction l as [|[d x] l IH]; intros S C Hl; [done|].
  apply Forall_cons in Hl as [Hd Hl]. simpl in *.
  rewrite !add_at_tabulate by done. simpl. by apply IH.
Qed.

Lemma sigma_2_loop_tabulate n M l : forall Q,
  Forall (fun dx => dx.1 < n) l ->
  sigma_2_loop (tabulate n M) (tabulate n Q) l
  = Ok (tabulate n
          (accum Q ((fun dx => (dx.1, fsquare (fsub dx.2 (M dx.1)))) <$> l))).
Proof.
  induction l as [|[d x] l IH]; intros Q Hl; [done|].
  apply Forall_cons in Hl as [Hd Hl]. simpl in *.
  rewrite tabulate_lookup, add_at_tabulate by done. simpl. by apply IH.
Qed.

Lemma accum_ext l : forall F G k,
  (forall j, F j = G j) -> accum F l k = accum G l k.
Proof.
  induction l as [|[d x] l IH]; intros F G k H; simpl; [done|].
  apply IH. intros j. unfold upd. by rewrite H.
Qed.

Lemma accum_foldl l : forall F d,
  accum F l d
  = foldl fadd (F d) (snd <$> filter (fun dx : nat * float64 => dx.1 = d) l).
Proof.
  induction l as [|[k x] l IH]; intros F d; [done|].
  cbn [accum]. rewrite IH, filter_cons. unfold upd. simpl.
  destruct (decide (k = d)) as [->|Hne].
  - by rewrite decide_True by done.
  - by rewrite decide_False by (intros ->; done).
Qed.

End Arrays.

Lemma mapM_Ok {A B} (f : A -> result B) (g : A -> B) (l : list A) :
  Forall (fun a => f a = Ok (g a)) l -> mapM f l = Ok (g <$> l).
Proof.
  induction 1 as [|a l Ha Hl IH]; [done|].
  simpl. rewrite Ha. simpl. by rewrite IH.
Qed.

Lemma zip_fmap_same {A B C} (f : A -> B) (g : A -> C) (l : list A) :
  zip (f <$> l) (g <$> l) = (fun x => (f x, g x)) <$> l.
Proof. induction l as [|x l IH]; [done|]. simpl. by f_equal. Qed.

Lemma filter_fmap_comm {A B} (P : B -> Prop) `{!forall y, Decision (P y)}
    (f : A -> B) (l : list A) :
  filter P (f <$> l) = f <$> filter (fun x => P (f x)) l.
Proof.
  induction l as [|x l IH]; [done|].
  rewrite fmap_cons, !filter_cons. destruct (decide (P (f x))); simpl;
    by rewrite IH.
Qed.

(** *** The z-scores from the statistics of their diagonal *)

Section Buckets.

Context {rounding : Rounding}.

Variable pMatrix : csr_matrix.
Hypothesis Hwf : normalisable pMatrix.

Local Abbreviation n := (Z.to_nat (shape pMatrix).1).
Local Abbreviation pairs :=
  ((fun e => (distance (coord e), nan_to_num (value e))) <$> stored pMatrix).
Local Abbreviation ones :=
  ((fun dx : nat * float64 => (dx.1, Fin 1)) <$> pairs).

Lemma nonzero_all : nonzero pMatrix = coord <$> stored pMatrix.
Proof. unfold nonzero. by rewrite filter_Forall_id by apply Hwf. Qed.

Lemma distances_sanitised :
  zip (distance <$> nonzero pMatrix) (nan_to_num <$> data pMatrix) = pairs.
Proof.
  rewrite nonzero_all. unfold data.
  by rewrite <- !list_fmap_compose, zip_fmap_same.
Qed.

Lemma distances_raw :
  zip (distance <$> nonzero pMatrix) (data pMatrix)
  = (fun e => (distance (coord e), value e)) <$> stored pMatrix.
Proof.
  rewrite nonzero_all. unfold data.
  by rewrite <- !list_fmap_compose, zip_fmap_same.
Qed.

Lemma pairs_in_range : Forall (fun dx : nat * float64 => dx.1 < n) pairs.
Proof.
  apply Forall_fmap. destruct Hwf as [_ Hd].
  eapply Forall_impl; [exact Hd|]. done.
Qed.

Lemma pairs_at d :
  snd <$> filter (fun dx : nat * float64 => dx.1 = d) pairs
  = diagonal pMatrix d.
Proof.
  unfold diagonal. by rewrite filter_fmap_comm, <- list_fmap_compose.
Qed.

Lemma ones_at d :
  snd <$> filter (fun dx : nat * float64 => dx.1 = d) ones
  = (fun _ => Fin 1) <$> diagonal pMatrix d.
Proof.
  unfold diagonal.
  by rewrite !filter_fmap_comm, <- !list_fmap_compose.
Qed.

Lemma squares_at (M : nat -> float64) d :
  snd <$> filter (fun dx : nat * float64 => dx.1 = d)
            ((fun dx : nat * float64 =>
                (dx.1, fsquare (fsub dx.2 (M dx.1)))) <$> pairs)
  = (fun x => fsquare (fsub x (M d))) <$> diagonal pMatrix d.
Proof.
  unfold diagonal.
  rewrite !filter_fmap_comm, <- !list_fmap_compose.
  apply Forall_fmap_ext, Forall_forall.
  intros e [Hd _]%list_elem_of_filter. simpl in *. by rewrite Hd.
Qed.

Lemma count_bucket d :
  accum (fun _ => Fin 0) ones d = bucket_count (diagonal pMatrix d).
Proof. by rewrite accum_foldl, ones_at. Qed.

Lemma mean_bucket d :
  fdiv (accum (fun _ => Fin 1) pairs d) (accum (fun _ => Fin 0) ones d)
  = bucket_mean (diagonal pMatrix d).
Proof. by rewrite count_bucket, accum_foldl, pairs_at. Qed.

Lemma zscore_statistics_buckets :
  zscore_statistics pMatrix
  = Ok (tabulate n (fun d => bucket_mean (diagonal pMatrix d)),
        tabulate n (fun d => bucket_sigma (diagonal pMatrix d))).
Proof.
  unfold zscore_statistics, _sum_per_distance.
  rewrite length_replicate, !replicate_tabulate.
  rewrite decide_True
    by (rewrite nonzero_all; unfold data; rewrite !length_fmap; lia).
  rewrite take_ge; [|rewrite length_zip, !length_fmap; lia].
  rewrite distances_sanitised.
  rewrite sum_per_distance_loop_tabulate by apply pairs_in_range.
  cbn [mbind result_bind]. rewrite zip_with_tabulate.
  rewrite (tabulate_ext n _ (fun d => bucket_mean (diagonal pMatrix d)))
    by (intros d _; apply mean_bucket).
  rewrite sigma_2_loop_tabulate by apply pairs_in_range.
  cbn [mbind result_bind]. rewrite zip_with_tabulate, fmap_tabulate.
  do 2 f_equal. apply tabulate_ext. intros d _. unfold bucket_sigma.
  rewrite count_bucket, accum_foldl.
  by rewrite (squares_at (fun k => bucket_mean (diagonal pMatrix k)) d).
Qed.

Lemma compute_zscore_matrix_buckets :
  compute_zscore_matrix pMatrix
  = Ok {| shape := shape pMatrix;
          stored := (fun e => (coord e, bucket_zscore pMatrix e))
                      <$> stored pMatrix |}.
Proof.
  unfold compute_zscore_matrix.
  rewrite zscore_statistics_buckets. cbn [mbind result_bind].
  rewrite distances_raw.
  rewrite (mapM_Ok _ (fun dx : nat * float64 =>
             fdiv (fsub dx.2 (bucket_mean (diagonal pMatrix dx.1)))
                  (bucket_sigma (diagonal pMatrix dx.1)))).
  2:{ apply Forall_fmap, Forall_forall. intros e He. simpl.
      destruct Hwf as [_ Hd]. rewrite Forall_forall in Hd.
      unfold zscore_at. simpl.
      by rewrite !tabulate_lookup by (by apply Hd). }
  cbn [mbind result_bind].
  rewrite drop_ge by (rewrite nonzero_all; unfold data; rewrite !length_fmap; lia).
  rewrite app_nil_r. unfold csr_of_coo.
  rewrite decide_True by (rewrite nonzero_all, !length_fmap; done).
  do 2 f_equal. by rewrite nonzero_all, <- list_fmap_compose, zip_fmap_same.
Qed.

End Buckets.

Section NormaliserProperties.

Context {rounding : Rounding}.

(** C4: a stored NaN comes back as NaN, for every rounding of the
    arithmetic.  On a matrix without stored zeros whose diagonal distances
    index the per-distance arrays, [compute_zscore_matrix] returns a matrix
    of the same shape with an entry at every stored position of the input,
    none being left out, whatever sigma is; and the z-score of an entry is
    computed from its value as stored, not from the sanitised copy that
    feeds the statistics, so that the entry of a NaN is NaN. *)
Theorem zscore_nan_stored pMatrix :
  normalisable pMatrix ->
  exists zm,
    compute_zscore_matrix pMatrix = Ok zm /\
    shape zm = shape pMatrix /\
    coord <$> stored zm = coord <$> stored pMatrix /\
    (forall i e, stored pMatrix !! i = Some e -> isnan (value e) = true ->
       stored zm !! i = Some (coord e, NaN)).
Proof.
  intros Hwf. eexists. split; [by apply compute_zscore_matrix_buckets|].
  split; [done|]. cbn [stored].
  split; [by rewrite <- list_fmap_compose|].
  intros i e Hi Hnan. rewrite list_lookup_fmap, Hi. cbn [fmap option_fmap option_map].
  do 2 f_equal. unfold bucket_zscore. by destruct (value e).
Qed.


End NormaliserProperties.

(** *** Sums per distance, without rounding

    From here on the normaliser is computed with [exact_rounding]: its
    arrays hold the sums of real numbers below, which gives the z-scores of
    the example matrices. *)

Lemma wsum_cons g d v l k :
  wsum g ((d, v) :: l) k
  = if decide (d = k) then (g (d, v) + wsum g l k)%R else wsum g l k.
Proof.
  unfold wsum. rewrite filter_cons. simpl. by destruct (decide (d = k)).
Qed.

Lemma wsum_ext g h l k :
  (forall v, (k, v) ∈ l -> g (k, v) = h (k, v)) -> wsum g l k = wsum h l k.
Proof.
  induction l as [|[d v] l IH]; intros H; [done|].
  rewrite !wsum_cons. destruct (decide (d = k)) as [->|].
  - rewrite H by apply list_elem_of_here. rewrite IH; [done|].
    intros w Hw. apply H. by apply list_elem_of_further.
  - apply IH. intros w Hw. apply H. by apply list_elem_of_further.
Qed.

Lemma accum_Fin g l : forall f k,
  accum (fun j => Fin (f j)) ((fun dv => (dv.1, Fin (g dv))) <$> l) k
  = Fin (f k + wsum g l k).
Proof.
  induction l as [|[d v] l IH]; intros f k.
  - simpl. unfold wsum. simpl. f_equal. lra.
  - rewrite fmap_cons. cbn [accum fst snd].
    rewrite (accum_ext _ _ (fun j => Fin (if decide (j = d)
                                          then f j + g (d, v) else f j)%R)).
    + rewrite IH, wsum_cons. f_equal.
      destruct (decide (k = d)) as [->|]; [rewrite decide_True by done; lra|].
      rewrite decide_False by done. done.
    + intros j. unfold upd. by destruct (decide (j = d)).
Qed.

Lemma dcount_nonneg l k : (0 <= dcount l k)%R.
Proof.
  unfold dcount. induction l as [|[d v] l IH].
  - unfold wsum. simpl. lra.
  - rewrite wsum_cons. destruct (decide (d = k)); lra.
Qed.

Lemma dcount_present l k v : (k, v) ∈ l -> (1 <= dcount l k)%R.
Proof.
  unfold dcount. induction l as [|[d w] l IH]; intros Hin.
  - by apply elem_of_nil in Hin.
  - rewrite wsum_cons. pose proof (dcount_nonneg l k) as Hnn. unfold dcount in Hnn.
    apply elem_of_cons in Hin as [[= <- <-]|Hin].
    + rewrite decide_True by done. lra.
    + specialize (IH Hin). destruct (decide (d = k)); lra.
Qed.

Lemma deviation_sum m l k :
  wsum (fun dv => dv.2 - m)%R l k = (dsum l k - dcount l k * m)%R.
Proof.
  unfold dsum, dcount. induction l as [|[d v] l IH].
  - unfold wsum. simpl. lra.
  - rewrite !wsum_cons. destruct (decide (d = k)); simpl; lra.
Qed.

Lemma squares_nonneg m l k :
  (0 <= wsum (fun dv => (dv.2 - m) * (dv.2 - m)) l k)%R /\
  (wsum (fun dv => (dv.2 - m) * (dv.2 - m)) l k <= 0 ->
   wsum (fun dv => dv.2 - m) l k = 0)%R.
Proof.
  induction l as [|[d v] l [IH0 IH1]].
  - unfold wsum. simpl. lra.
  - rewrite !wsum_cons. destruct (decide (d = k)); simpl; [|done].
    pose proof (Rle_0_sqr (v - m)) as Hsq. unfold Rsqr in Hsq.
    split; [lra|]. intros H.
    assert ((v - m) * (v - m) = 0)%R as Hz by lra.
    apply Rmult_integral in Hz. rewrite IH1 by lra. lra.
Qed.

Lemma dsquares_pos l k v : (k, v) ∈ l -> (0 < dsquares l k)%R.
Proof.
  intros Hin. pose proof (dcount_present l k v Hin) as Hc.
  destruct (squares_nonneg (dmean l k) l k) as [H0 H1]. unfold dsquares.
  destruct (Rle_lt_or_eq_dec _ _ H0) as [Hlt|Heq]; [done|].
  rewrite deviation_sum in H1. specialize (H1 ltac:(lra)).
  unfold dmean in H1. exfalso.
  assert (dcount l k * ((1 + dsum l k) / dcount l k) = 1 + dsum l k)%R as E
    by (field; lra).
  lra.
Qed.

Lemma dsigma_pos l k v : (k, v) ∈ l -> (0 < dsigma l k)%R.
Proof.
  intros Hin. unfold dsigma. apply sqrt_lt_R0.
  apply Rdiv_lt_0_compat; [by eapply dsquares_pos|].
  pose proof (dcount_present l k v Hin). lra.
Qed.

Lemma dsigma_sqr l k v :
  (k, v) ∈ l -> (dsigma l k * dsigma l k = dsquares l k / dcount l k)%R.
Proof.
  intros Hin. unfold dsigma. apply sqrt_sqrt.
  pose proof (dsquares_pos l k v Hin). pose proof (dcount_present l k v Hin).
  apply Rlt_le, Rdiv_lt_0_compat; lra.
Qed.

(** *** The closed form of the z-scores *)

Lemma nan_to_num_num x : nan_to_num x = Fin (num x).
Proof. by destruct x. Qed.

Lemma fdiv_Fin a b : b <> 0%R -> fdiv (Fin a) (Fin b) = Fin (a / b).
Proof. intros Hb. simpl. by rewrite Reqb_false. Qed.

Lemma fsqrt_Fin a : (0 <= a)%R -> fsqrt (Fin a) = Fin (sqrt a).
Proof. intros Ha. simpl. by rewrite Rltb_false. Qed.

Section Normaliser.

Variable pMatrix : csr_matrix.
Hypothesis Hwf : normalisable pMatrix.

Local Abbreviation n := (Z.to_nat (shape pMatrix).1).
Local Abbreviation lr := (distance_values pMatrix).

Lemma distances_data :
  zip (distance <$> nonzero pMatrix) (nan_to_num <$> data pMatrix)
  = (fun dv => (dv.1, Fin dv.2)) <$> lr.
Proof.
  rewrite (nonzero_all _ Hwf). unfold data, distance_values.
  rewrite <- !list_fmap_compose, zip_fmap_same.
  apply list_fmap_ext. intros i e _. simpl. by rewrite nan_to_num_num.
Qed.

Lemma distances_in_range :
  Forall (fun dx : nat * float64 => dx.1 < n)
         ((fun dv => (dv.1, Fin dv.2)) <$> lr).
Proof.
  unfold distance_values. rewrite <- list_fmap_compose.
  apply Forall_fmap. destruct Hwf as [_ Hd].
  eapply Forall_impl; [exact Hd|]. done.
Qed.

Lemma present_entry e :
  e ∈ stored pMatrix -> (distance (coord e), num (value e)) ∈ lr.
Proof.
  intros He. unfold distance_values.
  apply list_elem_of_fmap. by exists e.
Qed.

Lemma zscore_statistics_arrays :
  zscore_statistics pMatrix
  = Ok (tabulate n (mean_array lr), tabulate n (sigma_array lr)).
Proof.
  unfold zscore_statistics, _sum_per_distance.
  rewrite length_replicate, !replicate_tabulate.
  rewrite decide_True
    by (rewrite (nonzero_all _ Hwf); unfold data; rewrite !length_fmap; lia).
  rewrite take_ge; [|rewrite length_zip, !length_fmap; lia].
  rewrite distances_data.
  rewrite sum_per_distance_loop_tabulate by apply distances_in_range.
  cbn [mbind result_bind]. rewrite zip_with_tabulate.
  rewrite <- list_fmap_compose.
  assert (Hmean : tabulate n
            (fun k => fdiv (accum (fun _ => Fin 1)
                              ((fun dv => (dv.1, Fin dv.2)) <$> lr) k)
                           (accum (fun _ => Fin 0)
                              (((fun dx : nat * float64 => (dx.1, Fin 1))
                                ∘ (fun dv : nat * R => (dv.1, Fin dv.2))) <$> lr) k))
          = tabulate n (mean_array lr)).
  { apply tabulate_ext. intros k _. unfold mean_array.
    rewrite (accum_Fin snd lr (fun _ => 1%R)).
    by rewrite (accum_Fin (fun _ => 1%R) lr (fun _ => 0%R)). }
  rewrite Hmean.
  rewrite sigma_2_loop_tabulate by apply distances_in_range.
  cbn [mbind result_bind]. rewrite zip_with_tabulate, fmap_tabulate.
  do 2 f_equal. apply tabulate_ext. intros k _. unfold sigma_array.
  by rewrite (accum_Fin (fun _ => 1%R) lr (fun _ => 0%R)).
Qed.

Lemma mean_array_present k v :
  (k, v) ∈ lr -> mean_array lr k = Fin (dmean lr k).
Proof.
  intros Hin. pose proof (dcount_present lr k v Hin) as Hc.
  unfold mean_array. rewrite fdiv_Fin by lra.
  unfold dmean. do 2 f_equal. lra.
Qed.

Lemma squares_array_present k :
  squares_array lr k = Fin (0 + wsum (fun dv => (dv.2 + - dmean lr dv.1)
                                         * (dv.2 + - dmean lr dv.1))%R lr k).
Proof.
  unfold squares_array. rewrite <- list_fmap_compose.
  rewrite <- (accum_Fin _ lr (fun _ => 0%R)). f_equal.
  apply Forall_fmap_ext, Forall_forall. intros [d v] Hin. simpl.
  by rewrite (mean_array_present d v Hin).
Qed.

Lemma sigma_array_present k v :
  (k, v) ∈ lr -> sigma_array lr k = Fin (dsigma lr k).
Proof.
  intros Hin. pose proof (dcount_present lr k v Hin) as Hc.
  pose proof (dsquares_pos lr k v Hin) as Hs.
  unfold sigma_array. rewrite squares_array_present.
  rewrite (wsum_ext _ (fun dv => (dv.2 - dmean lr k) * (dv.2 - dmean lr k))%R)
    by (intros w _; simpl; ring).
  fold (dsquares lr k). rewrite fdiv_Fin by lra.
  assert (Heq : ((0 + dsquares lr k) / (0 + dcount lr k)
                 = dsquares lr k / dcount lr k)%R) by (f_equal; lra).
  rewrite Heq, fsqrt_Fin; [done|].
  apply Rlt_le, Rdiv_lt_0_compat; lra.
Qed.

Lemma compute_zscore_matrix_closed :
  compute_zscore_matrix pMatrix
  = Ok {| shape := shape pMatrix;
          stored := (fun e => (coord e, zscore_of lr e)) <$> stored pMatrix |}.
Proof.
  unfold compute_zscore_matrix.
  rewrite zscore_statistics_arrays. cbn [mbind result_bind].
  rewrite (distances_raw _ Hwf).
  rewrite (mapM_Ok _ (fun dx : nat * float64 =>
             fdiv (fsub dx.2 (mean_array lr dx.1)) (sigma_array lr dx.1))).
  2:{ apply Forall_fmap, Forall_forall. intros e He. simpl.
      destruct Hwf as [_ Hd]. rewrite Forall_forall in Hd.
      unfold zscore_at. simpl.
      by rewrite !tabulate_lookup by (by apply Hd). }
  cbn [mbind result_bind].
  rewrite drop_ge by (rewrite (nonzero_all _ Hwf); unfold data; rewrite !length_fmap; lia).
  rewrite app_nil_r. unfold csr_of_coo.
  rewrite decide_True by (rewrite (nonzero_all _ Hwf), !length_fmap; done).
  do 2 f_equal. rewrite (nonzero_all _ Hwf), <- list_fmap_compose, zip_fmap_same.
  apply Forall_fmap_ext, Forall_forall. intros e He. simpl. f_equal.
  pose proof (present_entry e He) as Hin. unfold zscore_of.
  by rewrite (mean_array_present _ _ Hin), (sigma_array_present _ _ Hin).
Qed.

End Normaliser.

(** *** Moments of the z-scores of one distance *)

Lemma wsum_scale c g l k :
  wsum (fun dv => c * g dv)%R l k = (c * wsum g l k)%R.
Proof.
  induction l as [|[d v] l IH].
  - unfold wsum. simpl. lra.
  - rewrite !wsum_cons. destruct (decide (d = k)); [rewrite IH; lra | done].
Qed.

Lemma dcount_length l k :
  dcount l k = INR (length (filter (fun dv : nat * R => dv.1 = k) l)).
Proof.
  unfold dcount. induction l as [|[d v] l IH].
  - unfold wsum. simpl. done.
  - rewrite wsum_cons, filter_cons. simpl. destruct (decide (d = k)); [|done].
    cbn [length]. rewrite S_INR, IH. lra.
Qed.

Lemma zscore_of_finite l e v :
  value e = Fin v -> (0 < dsigma l (distance (coord e)))%R ->
  zscore_of l e
  = Fin (/ dsigma l (distance (coord e))
         * (v - dmean l (distance (coord e)))).
Proof.
  intros Hv Hs. unfold zscore_of. rewrite Hv. cbn [fsub fneg fadd].
  rewrite fdiv_Fin by lra. f_equal. unfold Rdiv, Rminus. ring.
Qed.

Lemma Rsum_deviations mu l :
  Rsum ((fun z => (z - mu) * (z - mu))%R <$> l)
  = (Rsum ((fun z => z * z)%R <$> l) - 2 * mu * Rsum l
     + INR (length l) * (mu * mu))%R.
Proof.
  induction l as [|z l IH]; [simpl; lra|].
  rewrite !fmap_cons. cbn [Rsum foldr length]. fold (Rsum l).
  fold (Rsum ((fun z => (z - mu) * (z - mu))%R <$> l)).
  fold (Rsum ((fun z => z * z)%R <$> l)).
  rewrite S_INR, IH. lra.
Qed.

Lemma Rvariance_moments l :
  (0 < INR (length l))%R ->
  Rvariance l = (Rmean ((fun z => z * z)%R <$> l) - Rmean l * Rmean l)%R.
Proof.
  intros Hn. unfold Rvariance.
  assert (Hmu : Rsum l = (Rmean l * INR (length l))%R)
    by (unfold Rmean; field; lra).
  set (mu := Rmean l) in *. unfold Rmean.
  rewrite Rsum_deviations, !length_fmap, Hmu. field. lra.
Qed.

(** Without rounding ([exact_rounding]), on a matrix of finite non-zero
    values, the z-scores stored at a distance [d] that has entries are real
    numbers whose mean is [-1 / (n * sigma_d)], with [n] their number, and
    whose mean square is 1: their variance is [1 - 1 / (n * sigma_d)^2]. *)
Lemma zscore_moments_exact pMatrix d :
  normalisable pMatrix ->
  Forall (fun e => isfinite (value e) = true) (stored pMatrix) ->
  d ∈ distance <$> nonzero pMatrix ->
  exists zm mean_adjusted sigma sg zs,
    compute_zscore_matrix pMatrix = Ok zm /\
    zscore_statistics pMatrix = Ok (mean_adjusted, sigma) /\
    sigma !! d = Some (Fin sg) /\ (0 < sg)%R /\
    zscores_at zm d = Fin <$> zs /\ (0 < INR (length zs))%R /\
    (Rmean zs = - 1 / (INR (length zs) * sg))%R /\
    (Rmean ((fun z => z * z)%R <$> zs) = 1)%R /\
    (Rvariance zs = 1 - 1 / (INR (length zs) * sg) ^ 2)%R.
Proof.
  intros Hwf Hfin Hd. rewrite (nonzero_all pMatrix Hwf) in Hd.
  apply list_elem_of_fmap in Hd as (ij & -> & (e0 & -> & He0)%list_elem_of_fmap).
  set (d := distance (coord e0)). set (lr := distance_values pMatrix).
  pose proof (present_entry pMatrix e0 He0) as Hin. fold d lr in Hin.
  pose proof (dsigma_pos lr d _ Hin) as Hsg.
  pose proof (dcount_present lr d _ Hin) as Hcnt.
  pose proof (dsigma_sqr lr d _ Hin) as Hsqr.
  pose proof (dsquares_pos lr d _ Hin) as Hsq.
  set (here := filter (fun e => distance (coord e) = d) (stored pMatrix)).
  set (g := fun dv : nat * R => (/ dsigma lr d * (dv.2 - dmean lr d))%R).
  assert (Hfilter : filter (fun dv : nat * R => dv.1 = d) lr
                    = (fun e => (distance (coord e), num (value e))) <$> here).
  { unfold lr, distance_values. by rewrite filter_fmap_comm. }
  assert (Hlen : INR (length (g <$> filter (fun dv : nat * R => dv.1 = d) lr))
                 = dcount lr d).
  { by rewrite length_fmap, dcount_length. }
  eexists _, _, _, (dsigma lr d), (g <$> filter (fun dv : nat * R => dv.1 = d) lr).
  split; [by apply compute_zscore_matrix_closed|].
  split; [by apply zscore_statistics_arrays|].
  split.
  { pose proof Hwf as [_ Hr]. rewrite Forall_forall in Hr.
    rewrite tabulate_lookup by (by apply Hr).
    by rewrite (sigma_array_present pMatrix _ _ Hin). }
  split; [done|]. split.
  { unfold zscores_at. cbn [stored]. rewrite filter_fmap_comm. cbn [coord fst].
    fold here. rewrite Hfilter, <- !list_fmap_compose.
    apply Forall_fmap_ext, Forall_forall.
    intros e [Hde He]%list_elem_of_filter. simpl.
    rewrite Forall_forall in Hfin. specialize (Hfin e He).
    destruct (value e) as [| | |v] eqn:Hv; try done.
    fold lr. rewrite (zscore_of_finite lr e v Hv) by (by rewrite Hde).
    unfold g. simpl. by rewrite Hde. }
  set (zs := g <$> filter (fun dv : nat * R => dv.1 = d) lr) in *.
  assert (Hmean : (Rmean zs = - 1 / (INR (length zs) * dsigma lr d))%R).
  { unfold Rmean. rewrite Hlen.
    change (Rsum zs) with (wsum g lr d).
    unfold g. rewrite wsum_scale, deviation_sum. unfold dmean. field. lra. }
  assert (Hsquare : (Rmean ((fun z => z * z)%R <$> zs) = 1)%R).
  { unfold Rmean. rewrite length_fmap, Hlen. unfold zs.
    rewrite <- list_fmap_compose.
    change (Rsum (((fun z => z * z)%R ∘ g)
                    <$> filter (fun dv : nat * R => dv.1 = d) lr))
      with (wsum (fun dv => g dv * g dv)%R lr d).
    rewrite (wsum_ext _ (fun dv => / (dsigma lr d * dsigma lr d)
                           * ((dv.2 - dmean lr d) * (dv.2 - dmean lr d)))%R)
      by (intros w _; unfold g; simpl; field; lra).
    rewrite wsum_scale. fold (dsquares lr d). rewrite Hsqr. field. lra. }
  rewrite Hlen. split; [lra|]. rewrite <- Hlen.
  split; [done|]. split; [done|].
  rewrite Rvariance_moments by (rewrite Hlen; lra).
  rewrite Hsquare, Hmean. rewrite Hlen. field. lra.
Qed.

(** *** The normaliser on the example matrices *)

Ltac wsum_eval :=
  unfold dmean, dsquares, dsum, dcount, wsum; simpl.

Ltac forall_entries tac :=
  repeat (apply Forall_cons_2; [tac|]); apply Forall_nil_2.

Ltac normalisable_eval :=
  split; simpl;
  [forall_entries ltac:(simpl; rcompare; done)
  | forall_entries ltac:(unfold distance, coord; simpl; lia)].

Lemma normalisable_1x1 : normalisable matrix_1x1.
Proof. normalisable_eval. Qed.

Lemma normalisable_diag : normalisable matrix_diag.
Proof. normalisable_eval. Qed.

Lemma normalisable_nan : normalisable matrix_nan.
Proof. normalisable_eval. Qed.

Ltac zscore_entry Hm Hs :=
  match goal with
  | |- context [zscore_of ?l (?i, ?j, Fin ?v)] =>
      let d := eval cbv in (distance (i, j)) in
      replace (zscore_of l (i, j, Fin v))
        with (Fin (/ dsigma l d * (v - dmean l d)))
        by (symmetry; apply (zscore_of_finite l (i, j, Fin v) v eq_refl);
            change (0 < dsigma l d)%R; rewrite Hs; lra);
      rewrite Hm, Hs
  end.

Lemma dmean_1x1 : dmean (distance_values matrix_1x1) 0 = 21%R.
Proof. wsum_eval. lra. Qed.

Lemma dsigma_1x1 : dsigma (distance_values matrix_1x1) 0 = 1%R.
Proof.
  unfold dsigma. transitivity (sqrt 1); [|apply sqrt_1]. f_equal.
  unfold dsquares. rewrite dmean_1x1. wsum_eval. lra.
Qed.

Lemma zscore_statistics_1x1 :
  zscore_statistics matrix_1x1 = Ok ([Fin 21], [Fin 1]).
Proof.
  rewrite zscore_statistics_arrays by apply normalisable_1x1.
  assert (Hin : (0, 20%R) ∈ distance_values matrix_1x1)
    by apply list_elem_of_here.
  change (Z.to_nat (shape matrix_1x1).1) with 1.
  unfold tabulate. cbn [seq fmap list_fmap].
  rewrite (mean_array_present _ _ _ Hin), (sigma_array_present _ _ _ Hin).
  by rewrite dmean_1x1, dsigma_1x1.
Qed.

Lemma zscore_matrix_1x1 :
  compute_zscore_matrix matrix_1x1
  = Ok {| shape := (1%Z, 1%Z); stored := [((0%Z, 0%Z), Fin (-1))] |}.
Proof.
  rewrite compute_zscore_matrix_closed by apply normalisable_1x1.
  pose proof dmean_1x1 as Hm. pose proof dsigma_1x1 as Hs.
  set (lr := distance_values matrix_1x1) in *.
  cbn [matrix_1x1 stored shape fmap list_fmap coord fst].
  repeat zscore_entry Hm Hs.
  repeat (f_equal; try lra).
Qed.

Lemma zscore_matrix_diag :
  compute_zscore_matrix matrix_diag
  = Ok {| shape := (4%Z, 4%Z);
          stored := [((0%Z, 0%Z), Fin 0); ((1%Z, 1%Z), Fin (6 / 5));
                     ((2%Z, 2%Z), Fin (- 8 / 5)); ((3%Z, 3%Z), Fin 0)] |}.
Proof.
  rewrite compute_zscore_matrix_closed by apply normalisable_diag.
  assert (Hm : dmean (distance_values matrix_diag) 0 = 10%R)
    by (wsum_eval; lra).
  assert (Hs : dsigma (distance_values matrix_diag) 0 = (5 / 2)%R).
  { unfold dsigma.
    transitivity (sqrt (5 / 2 * (5 / 2))); [|apply sqrt_square; lra]. f_equal.
    unfold dsquares. rewrite Hm. wsum_eval. lra. }
  set (lr := distance_values matrix_diag) in *.
  cbn [matrix_diag stored shape fmap list_fmap coord fst].
  repeat zscore_entry Hm Hs.
  repeat (f_equal; try lra).
Qed.

Lemma zscore_matrix_nan :
  compute_zscore_matrix matrix_nan
  = Ok {| shape := (2%Z, 2%Z); stored := [((0%Z, 1%Z), NaN)] |}.
Proof. by rewrite compute_zscore_matrix_closed by apply normalisable_nan. Qed.

Lemma zscore_nan_stored_witness :
  exists zm,
    compute_zscore_matrix matrix_nan = Ok zm /\
    stored zm !! 0 = Some ((0%Z, 1%Z), NaN).
Proof.
  destruct (zscore_nan_stored matrix_nan normalisable_nan)
    as (zm & Hrun & _ & _ & Hnan).
  exists zm. split; [exact Hrun|].
  exact (Hnan 0 ((0%Z, 1%Z), NaN) eq_refl eq_refl).
Defined.

(** The statistics of the matrix whose one stored value is NaN: at its
    distance, 1, the NaN counts as 0, so that the shifted mean is 1 and
    sigma is 1. *)
Example zscore_statistics_nan :
  exists mu sg,
    zscore_statistics matrix_nan = Ok ([PInf; Fin mu], [NaN; Fin sg]) /\
    mu = 1%R /\ sg = 1%R.
Proof.
  eexists _, _. split; [feval; reflexivity|].
  assert (Hmu : ((1 + 0) / (0 + 1) = 1)%R) by field.
  split; [exact Hmu|].
  rewrite Hmu. transitivity (sqrt 1); [f_equal; lra | apply sqrt_1].
Qed.


Lemma dmean_diag : dmean (distance_values matrix_diag) 0 = 10%R.
Proof. wsum_eval. lra. Qed.

Lemma dsigma_diag : dsigma (distance_values matrix_diag) 0 = (5 / 2)%R.
Proof.
  unfold dsigma.
  transitivity (sqrt (5 / 2 * (5 / 2))); [|apply sqrt_square; lra]. f_equal.
  unfold dsquares. rewrite dmean_diag. wsum_eval. lra.
Qed.

Lemma zscore_statistics_diag :
  exists mean_adjusted sigma,
    zscore_statistics matrix_diag = Ok (mean_adjusted, sigma) /\
    mean_adjusted !! 0 = Some (Fin 10) /\
    sigma !! 0 = Some (Fin (5 / 2)).
Proof.
  assert (Hin : (0, 10%R) ∈ distance_values matrix_diag)
    by apply list_elem_of_here.
  eexists _, _.
  split; [by apply zscore_statistics_arrays, normalisable_diag|].
  split.
  - rewrite tabulate_lookup by (simpl; lia).
    by rewrite (mean_array_present _ _ _ Hin), dmean_diag.
  - rewrite tabulate_lookup by (simpl; lia).
    by rewrite (sigma_array_present _ _ _ Hin), dsigma_diag.
Qed.


(** *** The pipeline on the example matrices *)

(** C1, failing input: on the 4 x 4 matrix with the contacts 10, 13, 6, 10
    on its diagonal, the shifted mean of distance 0 is 10: the two entries
    equal to 10 get the z-score 0 and [eliminate_zeros] removes them.  The
    z-score mask then has 2 elements and the mask of the raw counts 4, and
    [np.logical_and] raises ValueError.  The position (1, 1), with z-score
    6/5 >= 1 and raw count 13 > 10, is not kept. *)
Theorem screen_raises_on_zero_zscore uniform mannwhitneyu dbscan :
  let zm := {| shape := (4%Z, 4%Z);
               stored := [((0%Z, 0%Z), Fin 0); ((1%Z, 1%Z), Fin (6 / 5));
                          ((2%Z, 2%Z), Fin (- 8 / 5)); ((3%Z, 3%Z), Fin 0)] |} in
  compute_zscore_matrix matrix_diag = Ok zm /\
  stored (eliminate_zeros zm)
    = [((1%Z, 1%Z), Fin (6 / 5)); ((2%Z, 2%Z), Fin (- 8 / 5))] /\
  fle (Fin 1) (Fin (6 / 5)) = true /\
  toarray matrix_diag 1 1 = Fin (13 + 0) /\
  flt (Fin 10) (Fin (13 + 0)) = true /\
  screen matrix_diag zm (Fin 1) (Fin 10) = Raise ValueError /\
  compute_loops uniform mannwhitneyu dbscan matrix_diag (Fin 1) 4%Z
    (Fin (5 / 100)) (Fin (5 / 100)) (Fin 10) = Raise ValueError.
Proof.
  cbv zeta.
  assert (Hscreen :
    screen matrix_diag
      {| shape := (4%Z, 4%Z);
         stored := [((0%Z, 0%Z), Fin 0); ((1%Z, 1%Z), Fin (6 / 5));
                    ((2%Z, 2%Z), Fin (- 8 / 5)); ((3%Z, 3%Z), Fin 0)] |}
      (Fin 1) (Fin 10) = Raise ValueError) by (feval; reflexivity).
  split; [apply zscore_matrix_diag|].
  split; [feval; reflexivity|].
  split; [feval; reflexivity|].
  split; [reflexivity|].
  split; [feval; reflexivity|].
  split; [exact Hscreen|].
  unfold compute_loops, compute_long_range_contacts.
  rewrite zscore_matrix_diag. cbn [mbind result_bind].
  by rewrite Hscreen.
Qed.

Lemma example_tester_rejects :
  tester_loop uniform_index (mannwhitneyu_const (Fin 1)) matrix_1x1 4%Z
    (Fin (5 / 100)) 0 [(0%Z, 0%Z)] = Ok ([false], []).
Proof. feval. reflexivity. Qed.

Lemma empty_after_tester_raises_witness :
  candidate_uniform_distribution_test uniform_index
    (mannwhitneyu_const (Fin 1)) dbscan_noise matrix_1x1 [(0%Z, 0%Z)] 4%Z
    (Fin (5 / 100)) (Fin (5 / 100)) = Raise ValueError.
Proof.
  exact (empty_after_tester_raises uniform_index (mannwhitneyu_const (Fin 1))
           dbscan_noise matrix_1x1 [(0%Z, 0%Z)] 4%Z (Fin (5 / 100))
           (Fin (5 / 100)) [false] example_tester_rejects).
Defined.

(** The whole pipeline on the 1 x 1 matrix [[20]] with the z-score threshold
    -1: the one entry has z-score -1 and count 20 > 10 and is screened in;
    its neighbourhood is the constant sample [20], on which the test gives
    no p-value below 0.05; no candidate is left and [euclidean_distances]
    raises. *)
Example compute_loops_empty_after_tester :
  screen matrix_1x1
    {| shape := (1%Z, 1%Z); stored := [((0%Z, 0%Z), Fin (-1))] |}
    (Fin (-1)) (Fin 10) = Ok (Some [(0%Z, 0%Z)]) /\
  neighborhood matrix_1x1 (0%Z, 0%Z) 4%Z = [Fin (20 + 0)] /\
  compute_loops uniform_index (mannwhitneyu_const (Fin 1)) dbscan_noise
    matrix_1x1 (Fin (-1)) 4%Z (Fin (5 / 100)) (Fin (5 / 100)) (Fin 10)
  = Raise ValueError.
Proof.
  assert (Hscreen :
    screen matrix_1x1
      {| shape := (1%Z, 1%Z); stored := [((0%Z, 0%Z), Fin (-1))] |}
      (Fin (-1)) (Fin 10) = Ok (Some [(0%Z, 0%Z)])) by (feval; reflexivity).
  split; [exact Hscreen|]. split; [reflexivity|].
  unfold compute_loops, compute_long_range_contacts.
  rewrite zscore_matrix_1x1. cbn [mbind result_bind]. rewrite Hscreen.
  cbn [mbind result_bind].
  unfold candidate_uniform_distribution_test, cluster_survivors.
  rewrite example_tester_rejects. reflexivity.
Qed.

(** * Further properties *)

(** ** [_sum_per_distance] *)

Lemma list_tabulate (l : list float64) :
  l = tabulate (length l) (fun k => default NaN (l !! k)).
Proof.
  apply list_eq. intros i. destruct (l !! i) as [x|] eqn:Hi.
  - rewrite tabulate_lookup by (by eapply lookup_lt_Some). by rewrite Hi.
  - symmetry. apply lookup_ge_None_2. rewrite tabulate_length.
    by apply lookup_ge_None_1.
Qed.

(** The counter of a bucket goes through the natural numbers, which are
    doubles: it is computed with [exact_rounding]. *)
Lemma of_nat_succ k : fadd (of_nat k) (Fin 1) = of_nat (S k).
Proof.
  unfold of_nat. simpl. f_equal.
  by rewrite Nat2Z.inj_succ, succ_IZR.
Qed.

Lemma accum_count l : forall c d,
  accum (fun j => of_nat (c j))
        ((fun dx : nat * float64 => (dx.1, Fin 1)) <$> l) d
  = of_nat (c d + length (filter (fun dx : nat * float64 => dx.1 = d) l)).
Proof.
  induction l as [|[k x] l IH]; intros c d.
  - simpl. by rewrite Nat.add_0_r.
  - rewrite fmap_cons. cbn [accum fst].
    rewrite (accum_ext _ _ (fun j => of_nat (if decide (j = k)
                                             then S (c j) else c j))).
    + rewrite IH, filter_cons. simpl.
      destruct (decide (k = d)) as [->|Hne].
      * rewrite decide_True by done. simpl. f_equal. lia.
      * by rewrite decide_False by (intros ->; done).
    + intros j. unfold upd. destruct (decide (j = k)); [|done].
      apply of_nat_succ.
Qed.

Lemma Forall_zip_fst {A B} (P : A -> Prop) (l : list A) (k : list B) :
  Forall P l -> Forall (fun ab => P ab.1) (zip l k).
Proof.
  intros Hl. apply Forall_forall. intros [a b] Hin.
  rewrite Forall_forall in Hl. apply Hl. by eapply elem_of_zip_l.
Qed.

(** X1: [_sum_per_distance] on [pN] pairs whose distances index the
    array of sums.  It returns two arrays of the length of
    [pSum_per_distance]; bucket [d] of the first is the initial value of
    that bucket with the data of the pairs at distance [d] added from left
    to right, and bucket [d] of the second is the number of these pairs. *)
Theorem sum_per_distance_buckets pSum_per_distance pData pDistances pN :
  pN <= length pDistances -> pN <= length pData ->
  Forall (fun d => d < length pSum_per_distance) (take pN pDistances) ->
  exists sums counts,
    _sum_per_distance pSum_per_distance pData pDistances pN
      = Ok (sums, counts) /\
    length sums = length pSum_per_distance /\
    length counts = length pSum_per_distance /\
    forall d s0, pSum_per_distance !! d = Some s0 ->
      let here := filter (fun dx : nat * float64 => dx.1 = d)
                         (take pN (zip pDistances pData)) in
      sums !! d = Some (foldl fadd s0 (snd <$> here)) /\
      counts !! d = Some (of_nat (length here)).
Proof.
  intros HnD HnX Hd. unfold _sum_per_distance.
  rewrite decide_True by done.
  set (n := length pSum_per_distance).
  set (l := take pN (zip pDistances pData)).
  assert (Hl : Forall (fun dx : nat * float64 => dx.1 < n) l).
  { unfold l. rewrite zip_with_take.
    by apply (Forall_zip_fst (fun d => d < n)). }
  assert (Hrun : sum_per_distance_loop
                   (pSum_per_distance, replicate n (Fin 0)) l
                 = Ok (tabulate n (accum (fun k => default NaN
                                            (pSum_per_distance !! k)) l),
                       tabulate n (accum (fun _ => Fin 0)
                                     ((fun dx => (dx.1, Fin 1)) <$> l)))).
  { rewrite (list_tabulate pSum_per_distance) at 1. fold n.
    rewrite replicate_tabulate.
    by rewrite sum_per_distance_loop_tabulate by done. }
  rewrite Hrun. eexists _, _. split; [done|].
  rewrite !tabulate_length. split; [done|]. split; [done|].
  intros d s0 Hs0.
  assert (Hdn : d < n) by (by eapply lookup_lt_Some).
  rewrite !tabulate_lookup by done. split.
  - f_equal. by rewrite accum_foldl, Hs0.
  - f_equal. by rewrite (accum_count l (fun _ => 0)).
Qed.

Lemma sum_per_distance_buckets_witness :
  exists sums counts,
    _sum_per_distance [Fin 1; Fin 1] [Fin 5; Fin 7; Fin 2] [0; 1; 0] 3
      = Ok (sums, counts) /\
    sums !! 0 = Some (foldl fadd (Fin 1) [Fin 5; Fin 2]) /\
    counts !! 0 = Some (of_nat 2).
Proof.
  destruct (sum_per_distance_buckets [Fin 1; Fin 1] [Fin 5; Fin 7; Fin 2]
              [0; 1; 0] 3) as (sums & counts & Hrun & _ & _ & Hbuckets);
    [simpl; lia | simpl; lia | repeat constructor; simpl; lia |].
  exists sums, counts. split; [exact Hrun|].
  exact (Hbuckets 0 (Fin 1) eq_refl).
Defined.

(** ** Errors of the normaliser *)

Lemma Exists_zip_fst {A B} (P : A -> Prop) (l : list A) (k : list B) :
  Exists P l -> length l <= length k -> Exists (fun ab => P ab.1) (zip l k).
Proof.
  intros (a & Ha & HP)%Exists_exists Hlen.
  apply list_elem_of_lookup_1 in Ha as [i Hi].
  destruct (lookup_lt_is_Some_2 k i) as [b Hb].
  { apply lookup_lt_Some in Hi. lia. }
  apply Exists_exists. exists (a, b). split; [|done].
  apply list_elem_of_lookup_2 with i. by apply lookup_zip_Some.
Qed.

Lemma nonzero_length pMatrix : length (nonzero pMatrix) <= length (data pMatrix).
Proof.
  unfold nonzero, data. rewrite !length_fmap. apply length_filter.
Qed.

Section NormaliserErrors.

Context {rounding : Rounding}.

Lemma sum_per_distance_loop_raises n l : forall acc,
  length acc.1 = n -> length acc.2 = n ->
  Exists (fun dx : nat * float64 => n <= dx.1) l ->
  sum_per_distance_loop acc l = Raise IndexError.
Proof.
  induction l as [|[d x] l IH]; intros [s c] Hs Hc Hex; simpl in *.
  - by apply Exists_nil in Hex.
  - unfold add_at. destruct (s !! d) as [a|] eqn:Ha; [|done].
    destruct (c !! d) as [b|] eqn:Hb; [|done]. simpl.
    apply IH; simpl; rewrite ?length_insert; try done.
    apply Exists_cons in Hex as [Hex|Hex]; [|done].
    simpl in Hex. apply lookup_lt_Some in Ha. lia.
Qed.

(** X2: the per-distance arrays have one slot per row of the matrix.  A
    stored entry that compares different from 0 and lies [shape[0]] or more
    columns away from the main diagonal, as happens in a matrix with more
    columns than rows, makes [compute_zscore_matrix] raise IndexError. *)
Theorem zscore_distance_out_of_range pMatrix e :
  e ∈ stored pMatrix ->
  feq (value e) (Fin 0) = false ->
  Z.to_nat (shape pMatrix).1 <= distance (coord e) ->
  compute_zscore_matrix pMatrix = Raise IndexError.
Proof.
  intros He Hnz Hd.
  pose proof (nonzero_length pMatrix) as Hlen.
  unfold compute_zscore_matrix, zscore_statistics, _sum_per_distance.
  rewrite decide_True by (rewrite !length_fmap; lia).
  rewrite take_ge by (rewrite length_zip, !length_fmap; lia).
  rewrite (sum_per_distance_loop_raises (Z.to_nat (shape pMatrix).1));
    [done| cbn [fst snd]; by rewrite !length_replicate..|].
  apply (Exists_zip_fst (fun d => Z.to_nat (shape pMatrix).1 <= d));
    [|rewrite !length_fmap; lia].
  apply Exists_exists. exists (distance (coord e)). split; [|done].
  apply list_elem_of_fmap. exists (coord e). split; [done|].
  apply list_elem_of_fmap. exists e. split; [done|].
  by apply list_elem_of_filter.
Qed.

Lemma zscore_statistics_lengths pMatrix :
  Forall (fun ij => distance ij < Z.to_nat (shape pMatrix).1) (nonzero pMatrix) ->
  exists mean_adjusted sigma,
    zscore_statistics pMatrix = Ok (mean_adjusted, sigma) /\
    length mean_adjusted = Z.to_nat (shape pMatrix).1 /\
    length sigma = Z.to_nat (shape pMatrix).1.
Proof.
  intros Hd. pose proof (nonzero_length pMatrix) as Hlen.
  set (n := Z.to_nat (shape pMatrix).1) in *.
  assert (Hl : Forall (fun dx : nat * float64 => dx.1 < n)
                 (zip (distance <$> nonzero pMatrix)
                      (nan_to_num <$> data pMatrix))).
  { apply (Forall_zip_fst (fun d => d < n)). by apply Forall_fmap. }
  unfold zscore_statistics, _sum_per_distance. fold n.
  rewrite decide_True by (rewrite !length_fmap; lia).
  rewrite take_ge by (rewrite length_zip, !length_fmap; lia).
  rewrite length_replicate, !replicate_tabulate.
  rewrite sum_per_distance_loop_tabulate by done.
  cbn [mbind result_bind]. rewrite zip_with_tabulate.
  rewrite sigma_2_loop_tabulate by done.
  cbn [mbind result_bind]. rewrite zip_with_tabulate, fmap_tabulate.
  eexists _, _. split; [done|]. by rewrite !tabulate_length.
Qed.

(** X3: an explicitly stored zero.  [nonzero()] leaves it out while [data]
    keeps it, so that the value array handed to the [csr_matrix] constructor
    is longer than the coordinate arrays: [compute_zscore_matrix] raises
    ValueError (the diagonal distances being in range). *)
Theorem zscore_explicit_zero_raises pMatrix :
  Forall (fun ij => distance ij < Z.to_nat (shape pMatrix).1) (nonzero pMatrix) ->
  Exists (fun e => feq (value e) (Fin 0) = true) (stored pMatrix) ->
  compute_zscore_matrix pMatrix = Raise ValueError.
Proof.
  intros Hd Hzero.
  destruct (zscore_statistics_lengths pMatrix Hd) as (ma & sg & Hstat & Hma & Hsg).
  pose proof (nonzero_length pMatrix) as Hlen.
  unfold compute_zscore_matrix. rewrite Hstat. cbn [mbind result_bind].
  rewrite (mapM_Ok _ (fun dx : nat * float64 =>
             fdiv (fsub dx.2 (default NaN (ma !! dx.1)))
                  (default NaN (sg !! dx.1)))).
  2:{ eapply Forall_impl;
        [apply (Forall_zip_fst (fun d => d < Z.to_nat (shape pMatrix).1));
         by apply Forall_fmap|].
      intros [d x] Hdx. simpl in Hdx. unfold zscore_at. simpl.
      destruct (lookup_lt_is_Some_2 ma d) as [mu ->]; [lia|].
      by destruct (lookup_lt_is_Some_2 sg d) as [s ->]; [lia|]. }
  cbn [mbind result_bind]. unfold csr_of_coo.
  rewrite decide_False; [done|].
  rewrite length_app, !length_fmap, length_zip, length_drop, !length_fmap.
  assert (length (nonzero pMatrix) < length (data pMatrix)); [|lia].
  apply Exists_exists in Hzero as (e & He & Hz).
  unfold nonzero, data. rewrite !length_fmap.
  apply length_filter_lt with e; [done|]. by rewrite Hz.
Qed.

End NormaliserErrors.

(** ** The z-scores of one diagonal *)

Section Diagonal.

Context {rounding : Rounding}.

(** X6: the normalisation is local to a diagonal.  Two matrices that store
    the same entries at distance [d] get the same z-scores at distance [d],
    whatever they store elsewhere. *)
Theorem zscore_diagonal_local m1 m2 d :
  normalisable m1 -> normalisable m2 ->
  filter (fun e => distance (coord e) = d) (stored m1)
    = filter (fun e => distance (coord e) = d) (stored m2) ->
  exists zm1 zm2,
    compute_zscore_matrix m1 = Ok zm1 /\
    compute_zscore_matrix m2 = Ok zm2 /\
    filter (fun e => distance (coord e) = d) (stored zm1)
      = filter (fun e => distance (coord e) = d) (stored zm2).
Proof.
  intros Hwf1 Hwf2 Hsame. eexists _, _.
  split; [by apply compute_zscore_matrix_buckets|].
  split; [by apply compute_zscore_matrix_buckets|].
  cbn [stored]. rewrite !filter_fmap_comm. cbn [coord fst]. rewrite <- Hsame.
  apply Forall_fmap_ext, Forall_forall.
  intros e [Hde _]%list_elem_of_filter. f_equal.
  unfold bucket_zscore, diagonal. by rewrite Hde, Hsame.
Qed.

End Diagonal.

(** ** With a monotone rounding *)

Section Monotone.

Context {rounding : Rounding}.

(** The rounding of the machine is monotone: a larger real number is not
    stored as a smaller double. *)
Hypothesis rnd_monotone :
  forall a b, (a <= b)%R -> fle (rnd a) (rnd b) = true.

Lemma fsub_monotone v1 v2 m :
  (v1 <= v2)%R ->
  fle (fsub (Fin v1) (Fin m)) (fsub (Fin v2) (Fin m)) = true.
Proof. intros Hv. cbn [fsub fneg fadd]. apply rnd_monotone. lra. Qed.

Lemma fdiv_monotone x y s :
  (0 < s)%R -> fle x y = true ->
  fle (fdiv x (Fin s)) (fdiv y (Fin s)) = true.
Proof.
  intros Hs Hxy.
  assert (Hdiv : forall a b, (a <= b)%R -> fle (rnd (a / s)) (rnd (b / s)) = true).
  { intros a b Hab. apply rnd_monotone.
    apply Rmult_le_compat_r; [|done]. apply Rlt_le, Rinv_0_lt_compat, Hs. }
  assert (Hnn : forall a, isnan (rnd (a / s)) = false).
  { intros a. apply (fle_not_nan_l _ (rnd (a / s))), Hdiv. lra. }
  destruct x as [| | |a], y as [| | |b]; try done; cbn [fdiv];
    rewrite ?(Reqb_false s 0), ?(Rleb_true 0 s), ?(Rltb_false s 0) by lra;
    cbn [inf_of_sign]; try done.
  - specialize (Hnn b). by destruct (rnd (b / s)).
  - specialize (Hnn a). by destruct (rnd (a / s)).
  - apply Hdiv. simpl in Hxy. by apply Rleb_spec.
Qed.

(** X7: within a diagonal the normalisation keeps the order of the
    contacts, for every monotone rounding of the arithmetic.  When the
    shifted mean of a distance is a finite double and its sigma a positive
    finite double, two entries of that distance with finite values
    [v1 <= v2] get the z-scores [(v1 - mean) / sigma] and
    [(v2 - mean) / sigma], and the first is not above the second. *)
Theorem zscore_order_preserved pMatrix e1 e2 v1 v2 mean_adjusted sigma m s :
  normalisable pMatrix ->
  e1 ∈ stored pMatrix -> e2 ∈ stored pMatrix ->
  distance (coord e1) = distance (coord e2) ->
  value e1 = Fin v1 -> value e2 = Fin v2 -> (v1 <= v2)%R ->
  zscore_statistics pMatrix = Ok (mean_adjusted, sigma) ->
  mean_adjusted !! distance (coord e1) = Some (Fin m) ->
  sigma !! distance (coord e1) = Some (Fin s) -> (0 < s)%R ->
  exists zm,
    compute_zscore_matrix pMatrix = Ok zm /\
    (coord e1, fdiv (fsub (Fin v1) (Fin m)) (Fin s)) ∈ stored zm /\
    (coord e2, fdiv (fsub (Fin v2) (Fin m)) (Fin s)) ∈ stored zm /\
    fle (fdiv (fsub (Fin v1) (Fin m)) (Fin s))
        (fdiv (fsub (Fin v2) (Fin m)) (Fin s)) = true.
Proof.
  intros Hwf He1 He2 Hd Hv1 Hv2 Hle Hstat Hm Hs Hpos.
  rewrite (zscore_statistics_buckets pMatrix Hwf) in Hstat.
  injection Hstat as <- <-.
  assert (Hrange : distance (coord e1) < Z.to_nat (shape pMatrix).1).
  { destruct Hwf as [_ Hr]. rewrite Forall_forall in Hr. by apply Hr. }
  rewrite tabulate_lookup in Hm, Hs by done.
  injection Hm as Hm. injection Hs as Hs.
  eexists. split; [by apply compute_zscore_matrix_buckets|]. cbn [stored].
  split; [|split].
  - apply list_elem_of_fmap. exists e1. split; [|done].
    unfold bucket_zscore. by rewrite Hm, Hs, Hv1.
  - apply list_elem_of_fmap. exists e2. split; [|done].
    unfold bucket_zscore. by rewrite <- Hd, Hm, Hs, Hv2.
  - by apply fdiv_monotone, fsub_monotone.
Qed.

Lemma fmul_monotone q k1 k2 :
  fle (Fin 0) q = true -> 0 < k1 <= k2 ->
  fle (fmul q (of_nat k1)) (fmul q (of_nat k2)) = true.
Proof.
  intros Hq Hk. unfold of_nat.
  assert (0 < IZR (Z.of_nat k1) <= IZR (Z.of_nat k2))%R as [H1 H2]
    by (split; [apply IZR_lt | apply IZR_le]; lia).
  destruct q as [| | |a]; try done; cbn [fmul].
  - by rewrite !Reqb_false, !Rltb_true by lra.
  - simpl in Hq. apply Rleb_spec in Hq. apply rnd_monotone. nra.
Qed.

(** X14: with a q-value that is not negative, every p-value accepted by the
    Benjamini-Hochberg step is strictly below the cut-off of the last
    index, the double [q * m / m] for the [m] surviving p-values, for every
    monotone rounding of the arithmetic. *)
Theorem fdr_accepted_below_cutoff q cands ps :
  fle (Fin 0) q = true ->
  let m := length (fdr_pvalues ps) in
  Forall (fun cp => flt cp.2 (fdiv (fmul q (of_nat m)) (of_nat m)) = true)
         (fdr_accept (fdr_threshold q ps) cands ps).
Proof.
  intros Hq m. apply Forall_forall. intros [c p] [_ Hlt]%fdr_accept_elem.
  cbn [snd].
  destruct (fdr_threshold_cases q ps) as ([H|(k & Hk & p' & Hp' & Hok)] & _).
  - by rewrite H, flt_NInf in Hlt.
  - rewrite Hk in Hp'. injection Hp' as <-. fold m in Hok.
    apply lookup_lt_Some in Hk. fold m in Hk.
    apply flt_fle_trans with (fdr_threshold q ps); [done|].
    eapply fle_trans; [exact Hok|]. unfold of_nat at 2 4.
    apply fdiv_monotone; [apply IZR_lt; lia|].
    apply fmul_monotone; [done|lia].
Qed.

End Monotone.

Lemma zscore_order_preserved_witness :
  exists zm,
    compute_zscore_matrix matrix_diag = Ok zm /\
    ((2, 2)%Z, fdiv (fsub (Fin 6) (Fin 10)) (Fin (5 / 2))) ∈ stored zm /\
    ((1, 1)%Z, fdiv (fsub (Fin 13) (Fin 10)) (Fin (5 / 2))) ∈ stored zm /\
    fle (fdiv (fsub (Fin 6) (Fin 10)) (Fin (5 / 2)))
        (fdiv (fsub (Fin 13) (Fin 10)) (Fin (5 / 2))) = true.
Proof.
  destruct zscore_statistics_diag as (mean_adjusted & sigma & Hstat & Hm & Hs).
  apply (@zscore_order_preserved exact_rounding
           (fun a b Hab => Rleb_true a b Hab)
           matrix_diag ((2, 2)%Z, Fin 6) ((1, 1)%Z, Fin 13) 6 13
           mean_adjusted sigma 10 (5 / 2) normalisable_diag).
  - apply list_elem_of_further, list_elem_of_further, list_elem_of_here.
  - apply list_elem_of_further, list_elem_of_here.
  - reflexivity.
  - reflexivity.
  - reflexivity.
  - lra.
  - exact Hstat.
  - exact Hm.
  - exact Hs.
  - lra.
Defined.

Lemma fdr_accepted_below_cutoff_witness :
  Forall (fun cp : Z * Z * float64 =>
            let m := length (fdr_pvalues [Fin (2 / 100); Fin (3 / 100)]) in
            flt cp.2 (fdiv (fmul (Fin (5 / 100)) (of_nat m)) (of_nat m)) = true)
    (fdr_accept (fdr_threshold (Fin (5 / 100)) [Fin (2 / 100); Fin (3 / 100)])
       [(0, 5); (10, 15)]%Z [Fin (2 / 100); Fin (3 / 100)]).
Proof.
  apply (@fdr_accepted_below_cutoff exact_rounding
           (fun a b Hab => Rleb_true a b Hab) (Fin (5 / 100))
           [(0, 5); (10, 15)]%Z [Fin (2 / 100); Fin (3 / 100)]).
  apply Rleb_true. lra.
Defined.

Lemma zscore_distance_out_of_range_witness :
  compute_zscore_matrix
    {| shape := (1%Z, 3%Z); stored := [((0%Z, 2%Z), Fin 7)] |}
  = Raise IndexError.
Proof.
  apply (zscore_distance_out_of_range _ ((0%Z, 2%Z), Fin 7)).
  - apply list_elem_of_here.
  - simpl. apply Reqb_false. lra.
  - unfold distance, coord. simpl. lia.
Defined.

Lemma zscore_explicit_zero_raises_witness :
  compute_zscore_matrix
    {| shape := (2%Z, 2%Z);
       stored := [((0%Z, 0%Z), Fin 5); ((1%Z, 1%Z), Fin 0)] |}
  = Raise ValueError.
Proof.
  apply zscore_explicit_zero_raises.
  - unfold nonzero. simpl. rewrite !filter_cons, filter_nil. simpl.
    rewrite (Reqb_false 5 0) by lra. rewrite (Reqb_true 0 0) by done.
    simpl. repeat constructor.
  - apply Exists_cons_tl, Exists_cons_hd. simpl. by apply Reqb_true.
Defined.

Lemma normalisable_diag_far : normalisable matrix_diag_far.
Proof. normalisable_eval. Qed.

Lemma zscore_diagonal_local_witness :
  exists zm1 zm2,
    compute_zscore_matrix matrix_diag = Ok zm1 /\
    compute_zscore_matrix matrix_diag_far = Ok zm2 /\
    filter (fun e => distance (coord e) = 0) (stored zm1)
      = filter (fun e => distance (coord e) = 0) (stored zm2).
Proof.
  exact (zscore_diagonal_local matrix_diag matrix_diag_far 0
           normalisable_diag normalisable_diag_far eq_refl).
Defined.

(** ** Errors and alignment of the screener *)

Lemma filter_filter_same {A} (P : A -> Prop) `{!forall x, Decision (P x)}
    (l : list A) :
  filter P (filter P l) = filter P l.
Proof.
  apply filter_Forall_id, Forall_forall.
  by intros x [Hx _]%list_elem_of_filter.
Qed.

Lemma nonzero_eliminate_zeros m :
  nonzero (eliminate_zeros m) = coord <$> stored (eliminate_zeros m).
Proof. unfold nonzero, eliminate_zeros. simpl. by rewrite filter_filter_same. Qed.

(** X8: when the screener raises.  With [kept] the number of entries the
    z-score matrix has after [eliminate_zeros] and [raw] the number of
    stored entries of the contact matrix, the screener returns exactly when
    [kept = raw], or [raw = 1], or [kept = 1] and [raw = 0] (the masks
    broadcast to a mask without elements, which selects nothing); it raises
    IndexError when [kept = 1] and [raw >= 2] (the masks broadcast and the
    boolean index has the wrong length) and ValueError in every other case
    (the masks do not broadcast). *)
Theorem screen_errors pHiCMatrix pZscoreMatrix zt pit :
  let kept := length (stored (eliminate_zeros pZscoreMatrix)) in
  let raw := length (stored pHiCMatrix) in
  match screen pHiCMatrix pZscoreMatrix zt pit with
  | Ok _ => kept = raw \/ raw = 1 \/ (kept = 1 /\ raw = 0)
  | Raise IndexError => kept = 1 /\ 2 <= raw
  | Raise ValueError => kept <> raw /\ raw <> 1 /\ kept <> 1
  end.
Proof.
  intros kept raw. unfold screen. rewrite nonzero_eliminate_zeros.
  unfold data, kept, raw. clear kept raw.
  generalize (stored (eliminate_zeros pZscoreMatrix)) as zs.
  generalize (stored pHiCMatrix) as rs. intros rs zs.
  unfold logical_and, bool_index.
  destruct zs as [|z1 [|z2 zs]], rs as [|r1 [|r2 rs]]; simpl;
    repeat (case_decide; simpl in *;
            rewrite ?length_zip_with, ?length_fmap in *; try lia);
    lia.
Qed.

Lemma screen_aligned_runs pHiCMatrix pZscoreMatrix zt pit :
  Forall (fun e => feq (value e) (Fin 0) = false) (stored pZscoreMatrix) ->
  length (stored pZscoreMatrix) = length (stored pHiCMatrix) ->
  exists r, screen pHiCMatrix pZscoreMatrix zt pit = Ok r.
Proof.
  intros Hnz Hlen. unfold screen, nonzero, data, eliminate_zeros. simpl.
  rewrite !(filter_Forall_id _ _ Hnz).
  unfold logical_and. rewrite decide_True by (rewrite !length_fmap; lia).
  cbn [mbind result_bind].
  rewrite <- !list_fmap_compose.
  rewrite (bool_index_zip value (fun e => fle zt (value e))
             (fun e => flt pit (value e))) by done.
  cbn [mbind result_bind].
  rewrite (bool_index_zip coord (fun e => fle zt (value e))
             (fun e => flt pit (value e))) by done.
  cbn [mbind result_bind].
  destruct (decide _); by eexists.
Qed.

Lemma mapM_length {A B} (f : A -> result B) (l : list A) : forall k,
  mapM f l = Ok k -> length k = length l.
Proof.
  induction l as [|a l IH]; intros k; simpl.
  - by intros [= <-].
  - destruct (f a) as [b|]; simpl; [|done].
    destruct (mapM f l) as [k'|]; simpl; [|done].
    intros [= <-]. simpl. f_equal. by apply IH.
Qed.

Lemma filter_length_all {A} (P : A -> Prop) `{!forall x, Decision (P x)}
    (l : list A) :
  length (filter P l) = length l -> Forall P l.
Proof.
  induction l as [|x l IH]; [done|].
  rewrite filter_cons. pose proof (length_filter P l) as Hle.
  destruct (decide (P x)); simpl; intros Hlen; [|lia].
  constructor; [done|]. apply IH. lia.
Qed.

Section ScreenAfterNormaliser.

Context {rounding : Rounding}.

Lemma compute_zscore_matrix_stored pMatrix zm :
  compute_zscore_matrix pMatrix = Ok zm ->
  shape zm = shape pMatrix /\
  coord <$> stored zm = coord <$> stored pMatrix.
Proof.
  unfold compute_zscore_matrix.
  destruct (zscore_statistics pMatrix) as [[ma sg]|];
    cbn [mbind result_bind]; [|done].
  destruct (mapM _ _) as [zs|] eqn:Hzs; cbn [mbind result_bind]; [|done].
  unfold csr_of_coo. destruct (decide _) as [Hlen|]; [|done].
  intros [= <-]. split; [done|]. cbn [stored].
  apply mapM_length in Hzs.
  rewrite length_app, length_drop, Hzs, length_zip, !length_fmap in Hlen.
  pose proof (nonzero_length pMatrix) as Hle. unfold data in Hle.
  rewrite length_fmap in Hle.
  assert (Hall : Forall (fun e => feq (value e) (Fin 0) = false)
                        (stored pMatrix)).
  { apply (filter_length_all (fun e => feq (value e) (Fin 0) = false)).
    unfold nonzero, data in *. rewrite !length_fmap in *. lia. }
  change (fst <$> zip (nonzero pMatrix)
                      (zs ++ drop (length (nonzero pMatrix))
                                  (nan_to_num <$> data pMatrix))
          = coord <$> stored pMatrix).
  rewrite fst_zip.
  - unfold nonzero. by rewrite filter_Forall_id.
  - rewrite length_app, Hzs, length_zip, !length_fmap. lia.
Qed.

(** X9: the screener after the normaliser, when no z-score is zero.
    Whenever [compute_zscore_matrix] returns a matrix in which no stored
    z-score compares equal to 0, this matrix stores the positions of the
    contact matrix, in the same order; the screener does not raise on the
    two, and the candidates are the stored positions whose z-score reaches
    the z-score threshold and whose own raw count exceeds the
    peak-interaction threshold, in storage order. *)
Theorem screen_after_normaliser pMatrix zm zt pit :
  compute_zscore_matrix pMatrix = Ok zm ->
  Forall (fun e => feq (value e) (Fin 0) = false) (stored zm) ->
  exists r,
    screen pMatrix zm zt pit = Ok r /\
    coord <$> stored zm = coord <$> stored pMatrix /\
    screened (Ok r)
    = (fun zr => coord zr.1)
        <$> filter (fun zr => fle zt (value zr.1) = true /\
                              flt pit (value zr.2) = true)
                   (zip (stored zm) (stored pMatrix)).
Proof.
  intros Hrun Hnz.
  destruct (compute_zscore_matrix_stored pMatrix zm Hrun) as [_ Hcoord].
  assert (Hlen : length (stored zm) = length (stored pMatrix)).
  { rewrite <- (length_fmap coord (stored zm)), Hcoord. apply length_fmap. }
  destruct (screen_aligned_runs pMatrix zm zt pit Hnz Hlen) as [r Hr].
  exists r. split; [done|]. split; [done|].
  by rewrite <- Hr, (screen_aligned pMatrix zm zt pit Hnz Hlen).
Qed.

End ScreenAfterNormaliser.

Lemma screen_after_normaliser_witness :
  exists r,
    screen matrix_1x1
      {| shape := (1%Z, 1%Z); stored := [((0%Z, 0%Z), Fin (-1))] |}
      (Fin (-1)) (Fin 10) = Ok r /\
    screened (Ok r) = [(0%Z, 0%Z)].
Proof.
  destruct (screen_after_normaliser matrix_1x1 _ (Fin (-1)) (Fin 10)
              zscore_matrix_1x1) as (r & Hscreen & _ & Hcands).
  - repeat constructor. simpl. apply Reqb_false. lra.
  - exists r. split; [exact Hscreen|]. rewrite Hcands.
    cbn [stored matrix_1x1 zip zip_with]. rewrite filter_cons.
    rewrite decide_True; [done|].
    simpl. split; [apply Rleb_true | apply Rltb_true]; lra.
Defined.

Lemma fle_flt_trans x y z : fle x y = true -> flt y z = true -> flt x z = true.
Proof.
  destruct x, y, z; simpl; try done.
  rewrite Rleb_spec, !Rltb_spec. lra.
Qed.

Lemma logical_and_comm a b : logical_and a b = logical_and b a.
Proof.
  unfold logical_and.
  assert (Hzip : forall a b, zip_with andb a b = zip_with andb b a).
  { clear. induction a as [|x a IH]; intros [|y b]; simpl; try done.
    by rewrite andb_comm, IH. }
  assert (Hmap : forall x (l : list bool),
             andb x <$> l = (fun y => andb y x) <$> l).
  { intros x l. apply list_fmap_ext. intros _ y _. apply andb_comm. }
  destruct (decide (length a = length b)) as [Hab|Hab].
  - rewrite decide_True by done. by rewrite Hzip.
  - rewrite decide_False by (intros ?; by apply Hab).
    destruct a as [|x [|x' a]], b as [|y [|y' b]]; cbn beta iota;
      try done; by rewrite Hmap.
Qed.

(** X10: for a fixed z-score threshold, raising the peak-interaction
    threshold from [pit1] to [pit2] never adds a candidate: the candidates
    screened at [pit2] are a sublist of those screened at [pit1]. *)
Theorem screen_interactions_monotone pHiCMatrix pZscoreMatrix zt pit1 pit2 :
  fle pit1 pit2 = true ->
  sublist (screened (screen pHiCMatrix pZscoreMatrix zt pit2))
          (screened (screen pHiCMatrix pZscoreMatrix zt pit1)).
Proof.
  intros Ht. unfold screen.
  set (zm := eliminate_zeros pZscoreMatrix).
  set (mz := (fun z => fle zt z) <$> data zm).
  assert (Hm : mask_le ((fun v => flt pit2 v) <$> data pHiCMatrix)
                       ((fun v => flt pit1 v) <$> data pHiCMatrix)).
  { apply Forall2_fmap, Forall_Forall2_diag, Forall_forall.
    intros v _ Hv. by apply fle_flt_trans with pit2. }
  pose proof (logical_and_mono _ _ mz Hm) as Hand.
  rewrite !(logical_and_comm _ mz) in Hand.
  destruct (logical_and mz (_ <$> data pHiCMatrix)) as [m2|e2],
           (logical_and mz (_ <$> data pHiCMatrix)) as [m1|e1];
    simpl; try done; try apply sublist_nil_l.
  pose proof (bool_index_mono (data zm) _ _ Hand) as Hd.
  pose proof (bool_index_mono (nonzero zm) _ _ Hand) as Hi.
  destruct (bool_index (data zm) m2), (bool_index (data zm) m1);
    simpl; try done; try apply sublist_nil_l.
  destruct (bool_index (nonzero zm) m2) as [l2|],
           (bool_index (nonzero zm) m1) as [l1|];
    simpl; try done; try apply sublist_nil_l.
  destruct (decide (length l2 = 0)); simpl; [apply sublist_nil_l|].
  destruct (decide (length l1 = 0)) as [Hl1|]; simpl; [|done].
  apply sublist_length in Hi. lia.
Qed.

Lemma screen_interactions_monotone_witness :
  sublist (screened (screen matrix_1x1 matrix_1x1 (Fin 1) (Fin 30)))
          (screened (screen matrix_1x1 matrix_1x1 (Fin 1) (Fin 10))).
Proof.
  apply screen_interactions_monotone. apply Rleb_true. lra.
Defined.

(** ** The neighbourhood at the ends of the window-size range *)

Section NeighbourhoodEnds.

Context {rounding : Rounding}.

Lemma neighborhood_window_zero m candidate :
  (0 <= candidate.1 < (shape m).1)%Z -> neighborhood m candidate 0 = [].
Proof.
  intros Hx. unfold neighborhood, neighborhood_positions.
  rewrite !window_start_max, !window_end_min.
  rewrite (py_slice_in_range (shape m).1) by lia.
  replace (Z.min (candidate.1 + 0) (shape m).1 - Z.max 0 (candidate.1 - 0))%Z
    with 0%Z by lia.
  done.
Qed.

(** X11: a window size of 0.  The slice [x:x] has no row, the neighbourhood
    of the first candidate is an empty array and [np.min] raises ValueError
    on it: [candidate_uniform_distribution_test] raises for every non-empty
    list of candidates whose first one lies on a row of the matrix. *)
Theorem window_zero_raises uniform mannwhitneyu dbscan pHiCMatrix
    candidate rest pPValue pQValue :
  (0 <= candidate.1 < (shape pHiCMatrix).1)%Z ->
  candidate_uniform_distribution_test uniform mannwhitneyu dbscan pHiCMatrix
    (candidate :: rest) 0 pPValue pQValue = Raise ValueError.
Proof.
  intros Hx.
  unfold candidate_uniform_distribution_test, cluster_survivors.
  cbn [tester_loop]. unfold uniform_test.
  by rewrite neighborhood_window_zero by done.
Qed.

(** X12: for a window size of at least 1 and a candidate inside the matrix,
    the candidate's own cell belongs to its neighbourhood, which has between
    1 and (2w)^2 entries: [np.min] and [np.max] do not raise on it. *)
Theorem neighborhood_contains_candidate m x y w :
  (1 <= w)%Z ->
  (0 <= x < (shape m).1)%Z ->
  (0 <= y < (shape m).2)%Z ->
  (x, y) ∈ neighborhood_positions (shape m) (x, y) w /\
  toarray m x y ∈ neighborhood m (x, y) w /\
  1 <= length (neighborhood m (x, y) w) <= Z.to_nat (2 * w) * Z.to_nat (2 * w) /\
  exists low high,
    np_min (neighborhood m (x, y) w) = Ok low /\
    np_max (neighborhood m (x, y) w) = Ok high.
Proof.
  intros Hw Hx Hy.
  assert (Hpos : neighborhood_positions (shape m) (x, y) w
                 = rectangle (Z.max 0 (x - w)) (Z.min (x + w) (shape m).1)
                             (Z.max 0 (y - w)) (Z.min (y + w) (shape m).2))
    by (apply neighborhood_positions_rectangle; lia).
  assert (Hin : (x, y) ∈ neighborhood_positions (shape m) (x, y) w)
    by (rewrite Hpos; apply elem_of_rectangle; lia).
  assert (Hlen : 1 <= length (neighborhood m (x, y) w)
                   <= Z.to_nat (2 * w) * Z.to_nat (2 * w)).
  { unfold neighborhood. rewrite length_fmap, Hpos, length_rectangle.
    set (a := Z.to_nat (Z.min (x + w) (shape m).1 - Z.max 0 (x - w))).
    set (b := Z.to_nat (Z.min (y + w) (shape m).2 - Z.max 0 (y - w))).
    assert (1 <= a <= Z.to_nat (2 * w)) by (unfold a; lia).
    assert (1 <= b <= Z.to_nat (2 * w)) by (unfold b; lia).
    nia. }
  split; [done|]. split.
  { unfold neighborhood. apply list_elem_of_fmap. by exists (x, y). }
  split; [done|].
  destruct (neighborhood m (x, y) w) as [|v vs]; [simpl in Hlen; lia|].
  by eexists _, _.
Qed.

End NeighbourhoodEnds.

Lemma window_zero_raises_witness :
  candidate_uniform_distribution_test uniform_index
    (mannwhitneyu_const (Fin (1 / 100))) dbscan_noise matrix_1x1
    [(0%Z, 0%Z)] 0%Z (Fin (5 / 100)) (Fin (5 / 100)) = Raise ValueError.
Proof. apply window_zero_raises. simpl. lia. Defined.

Lemma neighborhood_contains_candidate_witness :
  (10, 10)%Z ∈ neighborhood_positions (shape matrix_20x20) (10, 10)%Z 4%Z.
Proof.
  exact (proj1 (neighborhood_contains_candidate matrix_20x20 10 10 4
                  ltac:(lia) ltac:(simpl; lia) ltac:(simpl; lia))).
Defined.

(** ** The Benjamini-Hochberg step and the q-value *)

Section ThresholdProperties.

Context {rounding : Rounding}.

Lemma fdr_threshold_not_nan q ps : isnan (fdr_threshold q ps) = false.
Proof.
  destruct (fdr_threshold_cases q ps) as ([->|(k & Hk & _)] & _); [done|].
  eapply fdr_pvalues_not_nan, list_elem_of_lookup_2, Hk.
Qed.

(** X15: the Benjamini-Hochberg step never accepts every candidate.  The
    threshold is minus infinity or one of the p-values themselves, and the
    comparison with it is strict: of a non-empty list of candidates, each
    with its p-value, at least one is rejected. *)
Theorem fdr_rejects_one q cands ps :
  ps <> [] ->
  length cands = length ps ->
  length (fdr_accept (fdr_threshold q ps) cands ps) < length ps.
Proof.
  intros Hne Hlen.
  destruct (fdr_threshold_cases q ps) as ([H|(k & Hk & _)] & _).
  - rewrite H, fdr_accept_NInf. destruct ps; [done|simpl; lia].
  - apply list_elem_of_lookup_2 in Hk. rewrite fdr_pvalues_perm in Hk.
    apply list_elem_of_fmap in Hk as (e & He & Hin).
    apply list_elem_of_lookup_1 in Hin as [i Hi].
    destruct (lookup_lt_is_Some_2 cands i) as [c Hc].
    { apply lookup_lt_Some in Hi. lia. }
    assert (Hzip : (c, e) ∈ zip cands ps).
    { apply list_elem_of_lookup_2 with i. by apply lookup_zip_Some. }
    replace (length ps) with (length (zip cands ps))
      by (rewrite length_zip; lia).
    unfold fdr_accept. apply length_filter_lt with (c, e); [done|].
    simpl. rewrite He. unfold nan_to_one.
    destruct (isnan e) eqn:Hnan; [by destruct e|].
    by rewrite flt_irrefl.
Qed.

End ThresholdProperties.

Lemma fdr_rejects_one_witness :
  length (fdr_accept (fdr_threshold (Fin (5 / 100)) [Fin (2 / 100); Fin (3 / 100)])
            [(0, 5); (10, 15)]%Z [Fin (2 / 100); Fin (3 / 100)]) < 2.
Proof.
  by apply (fdr_rejects_one (Fin (5 / 100)) [(0, 5); (10, 15)]%Z
              [Fin (2 / 100); Fin (3 / 100)]).
Defined.

(** The cut-off as a function of the q-value, with [exact_rounding]. *)
Lemma bh_cutoff_cases q i m :
  0 < m ->
  bh_cutoff q i m
  = match q with
    | Fin a => Fin (a * (IZR (Z.of_nat (i + 1)) / IZR (Z.of_nat m)))
    | _ => q
    end.
Proof.
  intros Hm. unfold bh_cutoff, of_nat.
  assert (0 < IZR (Z.of_nat (i + 1)))%R as Hk by (apply IZR_lt; lia).
  assert (0 < IZR (Z.of_nat m))%R as HM by (apply IZR_lt; lia).
  destruct q as [| | |a]; cbn [fmul fdiv rnd exact_rounding].
  - done.
  - rewrite Reqb_false by lra. rewrite Rltb_true by done.
    cbn [inf_of_sign fdiv]. by rewrite Rleb_true by lra.
  - rewrite Reqb_false by lra. rewrite Rltb_false by lra.
    cbn [inf_of_sign fdiv]. by rewrite Rltb_false by lra.
  - rewrite Reqb_false by lra. f_equal. unfold Rdiv. ring.
Qed.

Lemma bh_cutoff_mono q1 q2 i m p :
  0 < m -> fle q1 q2 = true ->
  fle p (bh_cutoff q1 i m) = true -> fle p (bh_cutoff q2 i m) = true.
Proof.
  intros Hm Hq. rewrite !bh_cutoff_cases by done.
  assert (0 < IZR (Z.of_nat (i + 1)) / IZR (Z.of_nat m))%R as Hc
    by (apply Rdiv_lt_0_compat; apply IZR_lt; lia).
  set (c := (IZR (Z.of_nat (i + 1)) / IZR (Z.of_nat m))%R) in *.
  clearbody c.
  destruct q1 as [| | |a1], q2 as [| | |a2], p as [| | |x]; simpl in *;
    try done.
  rewrite !Rleb_spec in *. intros Hx. nra.
Qed.

Lemma fdr_threshold_mono q1 q2 ps :
  fle q1 q2 = true ->
  fle (fdr_threshold q1 ps) (fdr_threshold q2 ps) = true.
Proof.
  intros Hq.
  destruct (fdr_threshold_cases q1 ps) as ([H1|(k & Hk & p & Hp & Hok)] & _).
  - rewrite H1. pose proof (fdr_threshold_not_nan q2 ps) as Hn.
    by destruct (fdr_threshold q2 ps).
  - rewrite Hk in Hp. injection Hp as <-.
    destruct (fdr_threshold_cases q2 ps) as (_ & Hall).
    apply (Hall k); [done|].
    apply bh_cutoff_mono with q1; [|done..].
    apply lookup_lt_Some in Hk. lia.
Qed.

Lemma filter_sublist_impl {A} (P Q : A -> Prop)
    `{!forall x, Decision (P x)} `{!forall x, Decision (Q x)} (l : list A) :
  (forall x, P x -> Q x) -> sublist (filter P l) (filter Q l).
Proof.
  intros HPQ. induction l as [|x l IH]; [done|].
  rewrite !filter_cons. destruct (decide (P x)) as [HP|HP].
  - rewrite decide_True by auto. by apply sublist_skip.
  - destruct (decide (Q x)); [by apply sublist_cons|done].
Qed.

(** X13: raising the q-value never lowers the Benjamini-Hochberg threshold
    and never rejects a candidate that was accepted: the candidates
    accepted at [q1] are a sublist of those accepted at [q2 >= q1]. *)
Theorem fdr_qvalue_monotone q1 q2 cands ps :
  fle q1 q2 = true ->
  fle (fdr_threshold q1 ps) (fdr_threshold q2 ps) = true /\
  sublist (fdr_accept (fdr_threshold q1 ps) cands ps)
          (fdr_accept (fdr_threshold q2 ps) cands ps).
Proof.
  intros Hq. pose proof (fdr_threshold_mono q1 q2 ps Hq) as Hle.
  split; [done|]. unfold fdr_accept.
  apply filter_sublist_impl. intros [c p] Hp. simpl in *.
  by apply flt_fle_trans with (fdr_threshold q1 ps).
Qed.

Lemma fdr_qvalue_monotone_witness :
  sublist
    (fdr_accept (fdr_threshold (Fin (1 / 100)) [Fin (2 / 100); Fin (3 / 100)])
       [(0, 5); (10, 15)]%Z [Fin (2 / 100); Fin (3 / 100)])
    (fdr_accept (fdr_threshold (Fin (5 / 100)) [Fin (2 / 100); Fin (3 / 100)])
       [(0, 5); (10, 15)]%Z [Fin (2 / 100); Fin (3 / 100)]).
Proof.
  apply fdr_qvalue_monotone. apply Rleb_true. lra.
Defined.

(** ** The duplicate scan *)

Lemma duplicate_scan_ge l : forall k sx sy i,
  i ∈ duplicate_scan k l sx sy -> k <= i.
Proof.
  induction l as [|c l IH]; intros k sx sy i; simpl.
  - by intros ?%elem_of_nil.
  - destruct (decide _).
    + intros [->|Hin]%elem_of_cons; [lia|]. apply IH in Hin. lia.
    + intros Hin. apply IH in Hin. lia.
Qed.

Lemma duplicate_scan_char l : forall k sx sy j c,
  l !! j = Some c ->
  k + j ∈ duplicate_scan k l sx sy <->
  (c.1 ∈ sx \/
   exists j' c', j' < j /\ l !! j' = Some c' /\
                 (k + j' ∉ duplicate_scan k l sx sy) /\ c'.1 = c.1) /\
  (c.2 ∈ sy \/
   exists j' c', j' < j /\ l !! j' = Some c' /\
                 (k + j' ∉ duplicate_scan k l sx sy) /\ c'.2 = c.2).
Proof.
  induction l as [|c0 l IH]; intros k sx sy j c Hj; [done|].
  cbn [duplicate_scan].
  destruct (decide (c0.1 ∈ sx ∧ c0.2 ∈ sy)) as [[Hx Hy]|Hnew].
  - destruct j as [|j]; simpl in Hj.
    + injection Hj as <-. rewrite Nat.add_0_r.
      split; [|intros _; apply list_elem_of_here]. intros _. by split; left.
    + rewrite elem_of_cons, <- Nat.add_succ_comm, (IH (S k) sx sy j c Hj).
      assert (Hshift : forall (f : Z * Z -> Z),
        (exists j' c', j' < j /\ l !! j' = Some c' /\
                       (S k + j' ∉ duplicate_scan (S k) l sx sy) /\ f c' = f c)
        <-> (exists j' c', j' < S j /\ (c0 :: l) !! j' = Some c' /\
                           (k + j' ∉ k :: duplicate_scan (S k) l sx sy) /\
                           f c' = f c)).
      { intros f. split.
        - intros (j' & c' & Hlt & Hl & Hout & Hf).
          exists (S j'), c'. split; [lia|]. split; [done|]. split; [|done].
          rewrite <- Nat.add_succ_comm. intros [?|?]%elem_of_cons; [lia|done].
        - intros ([|j'] & c' & Hlt & Hl & Hout & Hf).
          + exfalso. apply Hout. rewrite Nat.add_0_r. apply list_elem_of_here.
          + exists j', c'. split; [lia|]. split; [done|]. split; [|done].
            intros Hin. apply Hout. rewrite <- Nat.add_succ_comm.
            by apply list_elem_of_further. }
      rewrite <- (Hshift fst), <- (Hshift snd).
      split; [intros [?|?]; [lia|done] | by right].
  - destruct j as [|j]; simpl in Hj.
    + injection Hj as <-. rewrite Nat.add_0_r. split.
      * intros Hin%duplicate_scan_ge. lia.
      * intros [[Hx|(j' & _ & ? & _)] [Hy|(j'' & _ & ? & _)]]; try lia.
        by destruct Hnew.
    + rewrite <- Nat.add_succ_comm,
        (IH (S k) ({[c0.1]} ∪ sx) ({[c0.2]} ∪ sy) j c Hj).
      set (D := duplicate_scan (S k) l ({[c0.1]} ∪ sx) ({[c0.2]} ∪ sy)).
      assert (Hshift : forall (f : Z * Z -> Z) (s : gset Z),
        (f c ∈ {[f c0]} ∪ s \/
         exists j' c', j' < j /\ l !! j' = Some c' /\ (S k + j' ∉ D) /\ f c' = f c)
        <-> (f c ∈ s \/
             exists j' c', j' < S j /\ (c0 :: l) !! j' = Some c' /\
                           (k + j' ∉ D) /\ f c' = f c)).
      { intros f s. split.
        - intros [[Heq%elem_of_singleton|Hs]%elem_of_union
                 |(j' & c' & Hlt & Hl & Hout & Hf)].
          + right. exists 0, c0. split; [lia|]. split; [done|].
            split; [|done]. intros Hin%duplicate_scan_ge. lia.
          + by left.
          + right. exists (S j'), c'. split; [lia|]. split; [done|].
            split; [|done]. by rewrite <- Nat.add_succ_comm.
        - intros [Hs|([|j'] & c' & Hlt & Hl & Hout & Hf)].
          + left. set_solver.
          + simpl in Hl. injection Hl as <-. left. set_solver.
          + right. exists j', c'. split; [lia|]. split; [done|].
            split; [|done]. by rewrite Nat.add_succ_comm. }
      by rewrite (Hshift fst sx), (Hshift snd sy).
Qed.

(** X16: which candidates the duplicate scan deletes.  The candidate of
    index [j] is deleted exactly when its first index is the first index of
    an earlier candidate that was kept and its second index is the second
    index of an earlier candidate that was kept; the two earlier candidates
    need not be the same one.  An exact repetition of a kept pair is
    therefore always deleted, and so can be a pair that was never seen. *)
Theorem duplicate_scan_spec accepted_index j c :
  accepted_index !! j = Some c ->
  let delete_index := duplicate_scan 0 accepted_index ∅ ∅ in
  j ∈ delete_index <->
  (exists j' c', j' < j /\ accepted_index !! j' = Some c' /\
                 (j' ∉ delete_index) /\ c'.1 = c.1) /\
  (exists j' c', j' < j /\ accepted_index !! j' = Some c' /\
                 (j' ∉ delete_index) /\ c'.2 = c.2).
Proof.
  intros Hj delete_index.
  pose proof (duplicate_scan_char accepted_index 0 ∅ ∅ j c Hj) as H.
  simpl in H. fold delete_index in H. rewrite H. split.
  - intros [[Hx|Hx] [Hy|Hy]]; set_solver.
  - intros [Hx Hy]. split; by right.
Qed.

Lemma duplicate_scan_spec_witness :
  1 ∈ duplicate_scan 0 [(0, 5); (0, 5)]%Z ∅ ∅ <->
  (exists j' c', j' < 1 /\ [(0, 5); (0, 5)]%Z !! j' = Some c' /\
                 (j' ∉ duplicate_scan 0 [(0, 5); (0, 5)]%Z ∅ ∅) /\
                 c'.1 = 0%Z) /\
  (exists j' c', j' < 1 /\ [(0, 5); (0, 5)]%Z !! j' = Some c' /\
                 (j' ∉ duplicate_scan 0 [(0, 5); (0, 5)]%Z ∅ ∅) /\
                 c'.2 = 5%Z).
Proof.
  exact (duplicate_scan_spec [(0, 5); (0, 5)]%Z 1 (0, 5)%Z eq_refl).
Defined.

Lemma bind_ext_elem {A B} (f g : A -> list B) (l : list A) :
  (forall a, a ∈ l -> f a = g a) -> l ≫= f = l ≫= g.
Proof.
  induction l as [|a l IH]; intros H; [done|].
  change ((a :: l) ≫= f) with (f a ++ (l ≫= f)).
  change ((a :: l) ≫= g) with (g a ++ (l ≫= g)).
  rewrite H by apply list_elem_of_here. f_equal.
  apply IH. intros b Hb. apply H. by apply list_elem_of_further.
Qed.

Lemma np_delete_scan {A} l : forall (arr : list A) k sx sy,
  length arr = length l ->
  (imap (fun i a => (k + i, a)) arr) ≫=
    (fun ia : nat * A =>
       if decide (ia.1 ∈ duplicate_scan k l sx sy) then [] else [ia.2])
  = scan_keep l arr sx sy.
Proof.
  induction l as [|c l IH]; intros [|a arr] k sx sy Hlen; try done.
  assert (Hshift : imap ((fun i a => (k + i, a)) ∘ S) arr
                   = imap (fun i a => (S k + i, a)) arr).
  { apply imap_ext. intros i x _. simpl. f_equal. lia. }
  cbn [imap]. rewrite Hshift, Nat.add_0_r.
  cbn [duplicate_scan scan_keep].
  destruct (decide (c.1 ∈ sx ∧ c.2 ∈ sy)) as [Hdup|Hnew].
  - change (((k, a) :: ?l) ≫= ?f) with (f (k, a) ++ (l ≫= f)).
    cbn beta. cbn [fst snd].
    rewrite decide_True by apply list_elem_of_here.
    rewrite app_nil_l, <- (IH arr (S k) sx sy) by (simpl in Hlen; lia).
    apply bind_ext_elem. intros [i x] Hin.
    apply elem_of_lookup_imap in Hin as (j & y & Heq & _).
    injection Heq as -> ->. cbn [fst snd].
    repeat case_decide; try done.
    + match goal with
      | H : _ ∈ _ :: _ |- _ => apply elem_of_cons in H as [?|?]; [lia|done]
      end.
    + match goal with
      | H : _ ∉ _ :: _ |- _ =>
          exfalso; apply H; by apply list_elem_of_further
      end.
  - change (((k, a) :: ?l) ≫= ?f) with (f (k, a) ++ (l ≫= f)).
    cbn beta. cbn [fst snd].
    rewrite decide_False.
    2:{ intros Hin%duplicate_scan_ge. lia. }
    simpl. f_equal. apply IH. simpl in Hlen. lia.
Qed.

Lemma np_delete_scan_keep {A} l (arr : list A) :
  length arr = length l ->
  np_delete arr (duplicate_scan 0 l ∅ ∅) = scan_keep l arr ∅ ∅.
Proof.
  intros Hlen. unfold np_delete. by rewrite <- (np_delete_scan l arr 0 ∅ ∅).
Qed.

Lemma remove_duplicates_scan_keep accepted :
  remove_duplicates accepted
  = (scan_keep (canonical <$> (fst <$> accepted))
               (canonical <$> (fst <$> accepted)) ∅ ∅,
     scan_keep (canonical <$> (fst <$> accepted)) (snd <$> accepted) ∅ ∅).
Proof.
  unfold remove_duplicates.
  by rewrite !np_delete_scan_keep by (by rewrite !length_fmap).
Qed.

Lemma scan_keep_length {A B} l : forall (arr1 : list A) (arr2 : list B) sx sy,
  length arr1 = length l -> length arr2 = length l ->
  length (scan_keep l arr1 sx sy) = length (scan_keep l arr2 sx sy).
Proof.
  induction l as [|c l IH]; intros [|a1 arr1] [|a2 arr2] sx sy H1 H2;
    simpl in *; try done.
  destruct (decide _); simpl; [|f_equal]; apply IH; lia.
Qed.

Lemma scan_keep_sublist {A} l : forall (arr : list A) sx sy,
  sublist (scan_keep l arr sx sy) arr.
Proof.
  induction l as [|c l IH]; intros [|a arr] sx sy; simpl; try done.
  - apply sublist_nil_l.
  - destruct (decide _); [apply sublist_cons|apply sublist_skip]; apply IH.
Qed.

Lemma scan_keep_fresh l : forall sx sy,
  NoDup (scan_keep l l sx sy) /\
  forall c, c ∈ scan_keep l l sx sy -> ~ (c.1 ∈ sx /\ c.2 ∈ sy).
Proof.
  induction l as [|c l IH]; intros sx sy; simpl.
  - split; [constructor|]. by intros c ?%elem_of_nil.
  - destruct (decide (c.1 ∈ sx ∧ c.2 ∈ sy)) as [Hdup|Hnew]; [apply IH|].
    destruct (IH ({[c.1]} ∪ sx) ({[c.2]} ∪ sy)) as [Hnd Hfresh].
    split.
    + constructor; [|done]. intros Hin. apply (Hfresh c Hin). set_solver.
    + intros c' [->|Hin]%elem_of_cons; [done|].
      intros [H1 H2]. apply (Hfresh c' Hin). set_solver.
Qed.

Lemma scan_keep_head {A} c l (a : A) arr :
  scan_keep (c :: l) (a :: arr) ∅ ∅
  = a :: scan_keep l arr ({[c.1]} ∪ ∅) ({[c.2]} ∪ ∅).
Proof. simpl. by rewrite decide_False by set_solver. Qed.

Lemma canonical_ordered c : ((canonical c).1 <= (canonical c).2)%Z.
Proof. unfold canonical. case_decide; simpl; lia. Qed.

Lemma Forall_sublist_of {A} (P : A -> Prop) (k l : list A) :
  sublist k l -> Forall P l -> Forall P k.
Proof.
  intros Hsub Hl. apply Forall_forall. intros x Hx.
  rewrite Forall_forall in Hl. apply Hl. by apply elem_of_sublist with k.
Qed.

Lemma bool_index_sublist {A} (arr : list A) mask l :
  bool_index arr mask = Ok l -> sublist l arr.
Proof.
  unfold bool_index. destruct (decide _) as [_|]; [|done]. intros [= <-].
  revert mask. induction arr as [|a arr IH]; intros [|[] mask]; simpl;
    try apply sublist_nil_l; [apply sublist_skip|apply sublist_cons];
    apply IH.
Qed.

Lemma fst_zip_sublist {A B} (l : list A) (k : list B) :
  sublist (fst <$> zip l k) l.
Proof.
  revert k. induction l as [|a l IH]; intros [|b k]; simpl;
    try apply sublist_nil_l.
  apply sublist_skip, IH.
Qed.

Lemma fdr_accept_sublist p_star cands ps :
  sublist (fst <$> fdr_accept p_star cands ps) cands.
Proof.
  transitivity (fst <$> zip cands ps); [|apply fst_zip_sublist].
  unfold fdr_accept. apply fmap_sublist, sublist_filter.
Qed.

Section Survivors.

Context {rounding : Rounding}.

Variable uniform : nat -> float64 -> float64 -> nat -> result (list float64).
Variable mannwhitneyu : list float64 -> list float64 -> result float64.
Variable dbscan : list (Z * Z) -> Z -> list Z.

Lemma cluster_survivors_spec pHiCMatrix pCandidates w pPValue survivors pvalues :
  cluster_survivors uniform mannwhitneyu dbscan pHiCMatrix pCandidates w
    pPValue = Ok (survivors, pvalues) ->
  sublist survivors pCandidates /\
  length pvalues = length survivors /\
  Forall (fun p => isnan p = false /\ flt p pPValue = true) pvalues.
Proof.
  unfold cluster_survivors.
  destruct (tester_loop _ _ _ _ _ _ _) as [[m1 pv]|] eqn:Ht; simpl; [|done].
  destruct (bool_index pCandidates m1) as [c1|] eqn:H1; simpl; [|done].
  destruct (clusters_of _ _ _) as [cl|]; simpl; [|done].
  destruct (cluster_mask pv cl) as [m2|]; simpl; [|done].
  destruct (bool_index c1 m2) as [c2|] eqn:H2; simpl; [|done].
  destruct (bool_index pv m2) as [pv2|] eqn:H3; simpl; [|done].
  intros [= <- <-].
  destruct (tester_loop_spec _ _ _ _ _ _ _ _ _ Ht) as (_ & _ & Hall).
  split; [|split].
  - transitivity c1; by eapply bool_index_sublist.
  - apply bool_index_length in H2 as ->.
    by apply bool_index_length in H3 as ->.
  - eapply Forall_sublist_of; [|exact Hall]. by eapply bool_index_sublist.
Qed.

Lemma candidate_test_Some pHiCMatrix pCandidates w pPValue pQValue
    loops loop_pvalues :
  candidate_uniform_distribution_test uniform mannwhitneyu dbscan
    pHiCMatrix pCandidates w pPValue pQValue = Ok (Some (loops, loop_pvalues)) ->
  exists survivors pvalues,
    cluster_survivors uniform mannwhitneyu dbscan pHiCMatrix pCandidates w
      pPValue = Ok (survivors, pvalues) /\
    fdr_accept (fdr_threshold pQValue pvalues) survivors pvalues <> [] /\
    remove_duplicates
      (fdr_accept (fdr_threshold pQValue pvalues) survivors pvalues)
    = (loops, loop_pvalues).
Proof.
  unfold candidate_uniform_distribution_test.
  destruct (cluster_survivors _ _ _ _ _ _ _) as [[survivors pvalues]|] eqn:Hs;
    cbn [mbind result_bind]; [|done].
  destruct (decide _) as [|Hne]; [done|]. intros Hout.
  exists survivors, pvalues. split; [done|]. split.
  - intros E. by rewrite E in Hne.
  - congruence.
Qed.

(** X17: the shape of a detection.  When
    [candidate_uniform_distribution_test] returns loops, it returns at
    least one, with one p-value per loop; every loop is oriented with its
    first index not above its second, and no pair is returned twice. *)
Theorem loops_well_formed pHiCMatrix pCandidates w pPValue pQValue
    loops loop_pvalues :
  candidate_uniform_distribution_test uniform mannwhitneyu dbscan
    pHiCMatrix pCandidates w pPValue pQValue = Ok (Some (loops, loop_pvalues)) ->
  loops <> [] /\
  length loop_pvalues = length loops /\
  Forall (fun c => (c.1 <= c.2)%Z) loops /\
  NoDup loops.
Proof.
  intros (survivors & pvalues & _ & Hne & Hout)%candidate_test_Some.
  rewrite remove_duplicates_scan_keep in Hout. injection Hout as <- <-.
  set (accepted := fdr_accept _ _ _) in *.
  set (l := canonical <$> (fst <$> accepted)).
  split; [|split; [|split]].
  - destruct accepted as [|[c p] acc]; [done|].
    unfold l. rewrite !fmap_cons, scan_keep_head. done.
  - apply scan_keep_length; unfold l; by rewrite !length_fmap.
  - eapply Forall_sublist_of; [apply scan_keep_sublist|].
    unfold l. apply Forall_fmap, Forall_forall. intros c _.
    apply canonical_ordered.
  - apply scan_keep_fresh.
Qed.

(** X18: where the loops come from.  The loops returned are candidates that
    were handed in, canonically oriented, in the order in which they were
    handed in: the function filters and orients, it never reorders or
    invents a position. *)
Theorem loops_from_candidates pHiCMatrix pCandidates w pPValue pQValue
    loops loop_pvalues :
  candidate_uniform_distribution_test uniform mannwhitneyu dbscan
    pHiCMatrix pCandidates w pPValue pQValue = Ok (Some (loops, loop_pvalues)) ->
  sublist loops (canonical <$> pCandidates).
Proof.
  intros (survivors & pvalues & Hs & _ & Hout)%candidate_test_Some.
  apply cluster_survivors_spec in Hs as (Hsub & _ & _).
  rewrite remove_duplicates_scan_keep in Hout. injection Hout as <- _.
  etrans; [apply scan_keep_sublist|].
  apply fmap_sublist. etrans; [apply fdr_accept_sublist|done].
Qed.

Lemma candidate_test_pvalues pHiCMatrix pCandidates w pPValue pQValue
    loops loop_pvalues :
  candidate_uniform_distribution_test uniform mannwhitneyu dbscan
    pHiCMatrix pCandidates w pPValue pQValue = Ok (Some (loops, loop_pvalues)) ->
  Forall (fun p => isnan p = false /\ flt p pPValue = true) loop_pvalues.
Proof.
  intros (survivors & pvalues & Hs & _ & Hout)%candidate_test_Some.
  apply cluster_survivors_spec in Hs as (_ & _ & Hall).
  rewrite remove_duplicates_scan_keep in Hout. injection Hout as _ <-.
  eapply Forall_sublist_of; [apply scan_keep_sublist|].
  apply Forall_fmap, Forall_forall. intros [c p] Hin. simpl.
  pose proof Hin as [Hzip _]%fdr_accept_elem.
  apply elem_of_zip_r in Hzip. rewrite Forall_forall in Hall.
  by apply Hall.
Qed.

End Survivors.

Lemma loops_well_formed_witness :
  length [Fin (20 / 1000); Fin (30 / 1000)] = length [(0, 5); (10, 15)]%Z /\
  NoDup [(0, 5); (10, 15)]%Z.
Proof.
  destruct (loops_well_formed _ _ _ _ _ _ _ _ _ _ example_loops)
    as (_ & Hlen & _ & Hnd).
  split; [exact Hlen | exact Hnd].
Defined.

Lemma loops_from_candidates_witness :
  sublist [(0, 5); (10, 15)]%Z (canonical <$> [(0, 5); (5, 0); (10, 15)]%Z).
Proof.
  exact (loops_from_candidates _ _ _ _ _ _ _ _ _ _ example_loops).
Defined.

(** ** Genome coordinates *)

Section MappingProperties.

Variable getBinPos : Z -> result (String.string * Z * Z).

Lemma mapping_loop_total bin pMaxLoopDistance pCandidates :
  forall i pPValueList,
  (forall c, c ∈ pCandidates ->
             getBinPos c.1 = Ok (bin c.1) /\ getBinPos c.2 = Ok (bin c.2)) ->
  i + length pCandidates <= length pPValueList ->
  mapping_loop getBinPos i pCandidates pPValueList pMaxLoopDistance
  = Ok (omap (mapped_item bin pMaxLoopDistance)
             (zip pCandidates (drop i pPValueList))).
Proof.
  induction pCandidates as [|c cands IH]; intros i ps Hbin Hlen; [done|].
  destruct (Hbin c) as [Hx Hy]; [apply list_elem_of_here|].
  destruct (lookup_lt_is_Some_2 ps i) as [p Hp]; [simpl in Hlen; lia|].
  rewrite (drop_S _ _ _ Hp).
  assert (Hrest : mapping_loop getBinPos (S i) cands ps pMaxLoopDistance
                  = Ok (omap (mapped_item bin pMaxLoopDistance)
                             (zip cands (drop (S i) ps)))).
  { apply IH; [|simpl in Hlen; lia].
    intros c' Hc'. apply Hbin. by apply list_elem_of_further. }
  cbn [mapping_loop]. rewrite Hx, Hy. cbn [mbind result_bind].
  change (zip (c :: cands) (p :: drop (S i) ps))
    with ((c, p) :: zip cands (drop (S i) ps)).
  cbn [omap list_omap]. unfold mapped_item at 1. cbn [fst snd].
  destruct (too_far _ _); [done|].
  rewrite Hp, Hrest. done.
Qed.

(** X19: the coordinate mapping keeps every p-value with its candidate.
    When [getBinPos] answers for the bins of the candidates and there is a
    p-value for each candidate, the function does not raise and returns, in
    order, the loop of each pair (candidate, p-value) that is not beyond the
    maximum loop distance: skipping a candidate does not shift the
    p-values of the following ones. *)
Theorem mapping_keeps_pvalues bin pCandidates pPValueList pMaxLoopDistance :
  (forall c, c ∈ pCandidates ->
             getBinPos c.1 = Ok (bin c.1) /\ getBinPos c.2 = Ok (bin c.2)) ->
  length pCandidates <= length pPValueList ->
  cluster_to_genome_position_mapping getBinPos pCandidates pPValueList
    pMaxLoopDistance
  = Ok (omap (mapped_item bin pMaxLoopDistance)
             (zip pCandidates pPValueList)).
Proof.
  intros Hbin Hlen. unfold cluster_to_genome_position_mapping.
  by rewrite (mapping_loop_total bin) by done.
Qed.

Lemma mapping_loop_safe pMaxLoopDistance pCandidates :
  forall i pPValueList mapped,
  mapping_loop getBinPos i pCandidates pPValueList pMaxLoopDistance
    = Ok mapped ->
  Forall (fun l => loop_pvalue l ∈ pPValueList /\
                   too_far pMaxLoopDistance
                     (Z.abs (start_x l - start_y l)) = false) mapped /\
  length mapped <= length pCandidates /\
  (pMaxLoopDistance = None -> length mapped = length pCandidates).
Proof.
  induction pCandidates as [|c cands IH]; intros i ps mapped; cbn [mapping_loop].
  - intros [= <-]. by repeat split.
  - destruct (getBinPos c.1) as [x|]; cbn [mbind result_bind]; [|done].
    destruct (getBinPos c.2) as [y|]; cbn [mbind result_bind]; [|done].
    destruct (too_far pMaxLoopDistance (Z.abs (x.1.2 - y.1.2))) eqn:Hfar.
    + intros Hrun. destruct (IH _ _ _ Hrun) as (Hall & Hle & Hnone).
      split; [done|]. split; [simpl; lia|].
      intros ->. done.
    + destruct (ps !! i) as [p|] eqn:Hp; [|done].
      destruct (mapping_loop _ _ _ _ _) as [tail|] eqn:Hrun;
        cbn [mbind result_bind]; [|done].
      intros [= <-]. destruct (IH _ _ _ Hrun) as (Hall & Hle & Hnone).
      split; [|split].
      * constructor; [|done]. simpl. split; [|done].
        by eapply list_elem_of_lookup_2.
      * simpl. lia.
      * intros Hmax. simpl. f_equal. by apply Hnone.
Qed.

(** X20: what the coordinate mapping returns, whatever [getBinPos] does.
    When it returns, every loop carries one of the p-values it was given
    and, with a maximum loop distance [d], has its two start positions at
    most [d] apart; without a maximum loop distance no candidate is
    dropped. *)
Theorem mapping_respects_max_distance pCandidates pPValueList
    pMaxLoopDistance mapped :
  cluster_to_genome_position_mapping getBinPos pCandidates pPValueList
    pMaxLoopDistance = Ok mapped ->
  Forall (fun l => loop_pvalue l ∈ pPValueList /\
                   forall d, pMaxLoopDistance = Some d ->
                             (Z.abs (start_x l - start_y l) <= d)%Z) mapped /\
  length mapped <= length pCandidates /\
  (pMaxLoopDistance = None -> length mapped = length pCandidates).
Proof.
  intros (Hall & Hle & Hnone)%mapping_loop_safe.
  split; [|done]. eapply Forall_impl; [exact Hall|].
  intros l [Hp Hfar]. split; [done|]. intros d ->.
  simpl in Hfar. apply bool_decide_eq_false in Hfar. lia.
Qed.

End MappingProperties.

Lemma mapping_keeps_pvalues_witness :
  cluster_to_genome_position_mapping getBinPos_10kb
    [(0, 5); (0, 90); (10, 15)]%Z
    [Fin (20 / 1000); Fin (10 / 1000); Fin (30 / 1000)] (Some 100000%Z)
  = Ok example_loop_items.
Proof.
  rewrite (mapping_keeps_pvalues getBinPos_10kb bin_10kb); [done|done|].
  simpl. lia.
Defined.

Lemma mapping_respects_max_distance_witness :
  Forall (fun l => loop_pvalue l
                     ∈ [Fin (20 / 1000); Fin (10 / 1000); Fin (30 / 1000)] /\
                   forall d, Some 100000%Z = Some d ->
                             (Z.abs (start_x l - start_y l) <= d)%Z)
         example_loop_items.
Proof.
  assert (Hrun : cluster_to_genome_position_mapping getBinPos_10kb
                   [(0, 5); (0, 90); (10, 15)]%Z
                   [Fin (20 / 1000); Fin (10 / 1000); Fin (30 / 1000)]
                   (Some 100000%Z) = Ok example_loop_items)
    by reflexivity.
  exact (proj1 (mapping_respects_max_distance getBinPos_10kb _ _ _ _ Hrun)).
Defined.

(** ** [compute_loops], end to end *)

Section LoopsProperties.

Context {rounding : Rounding}.

Variable uniform : nat -> float64 -> float64 -> nat -> result (list float64).
Variable mannwhitneyu : list float64 -> list float64 -> result float64.
Variable dbscan : list (Z * Z) -> Z -> list Z.
Variable getBinPos : Z -> result (String.string * Z * Z).

(** X21: what [compute_loops] guarantees about the loops it returns,
    whatever the statistical test, the clustering and the bin positions
    are.  Every loop has a p-value that is a number strictly below
    [pValue]; with a maximum loop distance [d], its two start positions
    are at most [d] apart. *)
Theorem compute_loops_guarantee pHiCMatrix zScoreThreshold windowSize
    pValue qValue peakInteractionsThreshold maxLoopDistance loops :
  compute_loops_mapped uniform mannwhitneyu dbscan getBinPos pHiCMatrix
    zScoreThreshold windowSize pValue qValue peakInteractionsThreshold
    maxLoopDistance = Ok (Some loops) ->
  Forall (fun l =>
            isnan (loop_pvalue l) = false /\
            flt (loop_pvalue l) pValue = true /\
            (forall d, maxLoopDistance = Some d ->
                       (Z.abs (start_x l - start_y l) <= d)%Z))
         loops.
Proof.
  unfold compute_loops_mapped, compute_loops, compute_long_range_contacts.
  destruct (compute_zscore_matrix pHiCMatrix) as [zm|];
    cbn [mbind result_bind]; [|done].
  destruct (screen _ _ _ _) as [[cands|]|]; cbn [mbind result_bind];
    [|done..].
  destruct (candidate_uniform_distribution_test _ _ _ _ _ _ _ _)
    as [[[cs ps]|]|] eqn:Htest; cbn [mbind result_bind]; [|done..].
  destruct (cluster_to_genome_position_mapping _ _ _ _) as [mapped|] eqn:Hmap;
    cbn [mbind result_bind]; [|done].
  intros [= <-].
  apply candidate_test_pvalues in Htest.
  apply mapping_loop_safe in Hmap as (Hall & _ & _).
  rewrite Forall_forall in Htest.
  eapply Forall_impl; [exact Hall|].
  intros l [Hp Hfar]. destruct (Htest _ Hp) as (Hnan & Hlt).
  split; [done|]. split; [done|].
  intros d ->. simpl in Hfar. apply bool_decide_eq_false in Hfar. lia.
Qed.

End LoopsProperties.

Lemma normalisable_16x16 : normalisable matrix_16x16.
Proof. normalisable_eval. Qed.

Lemma zscore_matrix_16x16 :
  compute_zscore_matrix matrix_16x16
  = Ok {| shape := (16%Z, 16%Z);
          stored := [((0%Z, 5%Z), Fin (-1)); ((5%Z, 0%Z), Fin (-1));
                     ((10%Z, 15%Z), Fin (-1))] |}.
Proof.
  rewrite compute_zscore_matrix_closed by apply normalisable_16x16.
  assert (Hm : dmean (distance_values matrix_16x16) 5 = (61 / 3)%R)
    by (wsum_eval; lra).
  assert (Hs : dsigma (distance_values matrix_16x16) 5 = (1 / 3)%R).
  { unfold dsigma.
    transitivity (sqrt (1 / 3 * (1 / 3))); [|apply sqrt_square; lra]. f_equal.
    unfold dsquares. rewrite Hm. wsum_eval. lra. }
  set (lr := distance_values matrix_16x16) in *.
  cbn [matrix_16x16 stored shape fmap list_fmap coord fst].
  repeat zscore_entry Hm Hs.
  repeat (f_equal; try lra).
Qed.

(** The whole of [compute_loops] on the 16 x 16 example: the three contacts
    have the z-score -1; with the z-score threshold -1 all three are
    screened in, two loops are detected and mapped to their 10 kb bins. *)
Example compute_loops_mapped_example :
  compute_loops_mapped uniform_index (mannwhitneyu_table pvalue_table)
    dbscan_noise getBinPos_10kb matrix_16x16 (Fin (-1)) 4%Z
    (Fin (50 / 1000)) (Fin (50 / 1000)) (Fin 10) (Some 100000%Z)
  = Ok (Some example_loop_items).
Proof.
  assert (Hscreen :
    screen matrix_16x16
      {| shape := (16%Z, 16%Z);
         stored := [((0%Z, 5%Z), Fin (-1)); ((5%Z, 0%Z), Fin (-1));
                    ((10%Z, 15%Z), Fin (-1))] |}
      (Fin (-1)) (Fin 10) = Ok (Some [(0, 5); (5, 0); (10, 15)]%Z))
    by (feval; reflexivity).
  unfold compute_loops_mapped, compute_loops, compute_long_range_contacts.
  rewrite zscore_matrix_16x16. cbn [mbind result_bind]. rewrite Hscreen.
  cbn [mbind result_bind]. rewrite example_loops. reflexivity.
Qed.

Lemma compute_loops_guarantee_witness :
  Forall (fun l =>
            isnan (loop_pvalue l) = false /\
            flt (loop_pvalue l) (Fin (50 / 1000)) = true /\
            (forall d, Some 100000%Z = Some d ->
                       (Z.abs (start_x l - start_y l) <= d)%Z))
         example_loop_items.
Proof.
  exact (compute_loops_guarantee _ _ _ _ _ _ _ _ _ _ _ _
           compute_loops_mapped_example).
Defined.

(** ** [write_bedgraph] *)

Lemma write_lines_all format pLoops pStartRegion pEndRegion :
  truthy pStartRegion && truthy pEndRegion = false ->
  write_lines format pLoops pStartRegion pEndRegion = format <$> pLoops.
Proof.
  intros H. induction pLoops as [|l ls IH]; [done|].
  cbn [write_lines]. rewrite H. cbn zeta. by rewrite IH.
Qed.

Lemma write_lines_region format pLoops s e :
  s <> 0%Z -> e <> 0%Z ->
  write_lines format pLoops (Some s) (Some e)
  = format <$> filter (fun l => inside_region l s e = true) pLoops.
Proof.
  intros Hs He.
  assert (H : truthy (Some s) && truthy (Some e) = true).
  { simpl. apply andb_true_iff. split; apply negb_true_iff; lia. }
  induction pLoops as [|l ls IH]; [done|].
  cbn [write_lines]. rewrite H, filter_cons. cbn zeta. rewrite IH.
  destruct (inside_region l s e) eqn:Hin.
  - by rewrite decide_True by done.
  - by rewrite decide_False by done.
Qed.

(** X22: [write_bedgraph] tests its region bounds by truth value.  Both
    files get one line per selected loop, in order, and the selection is
    the same for both: with two bounds that are not 0, the loops whose two
    anchors lie inside the region; with a bound that is missing or equal to
    0, every loop, so that a region starting at position 0 filters
    nothing. *)
Theorem write_bedgraph_region pLoops pStartRegion pEndRegion :
  write_bedgraph pLoops pStartRegion pEndRegion
  = (bedgraph_line <$> selected_loops pLoops pStartRegion pEndRegion,
     domains_line <$> selected_loops pLoops pStartRegion pEndRegion) /\
  (forall e, selected_loops pLoops (Some 0%Z) e = pLoops) /\
  (forall s, selected_loops pLoops s (Some 0%Z) = pLoops).
Proof.
  split; [|split].
  - unfold write_bedgraph, selected_loops.
    destruct pStartRegion as [s|], pEndRegion as [e|];
      try (by rewrite !write_lines_all by (simpl; by rewrite ?andb_false_r)).
    destruct (decide (s <> 0 /\ e <> 0)%Z) as [[Hs He]|Hzero].
    + by rewrite !write_lines_region by done.
    + rewrite !write_lines_all; [done|..]; simpl;
        apply andb_false_iff; rewrite !negb_false_iff; lia.
  - intros [e|]; [|done]. unfold selected_loops.
    by rewrite decide_False by lia.
  - intros [s|]; [|done]. unfold selected_loops.
    by rewrite decide_False by lia.
Qed.

(** On the two example loops: the region 0-60000 contains the first loop
    only, and both are written; the region 1-60000 selects the first. *)
Example write_bedgraph_example :
  fst (write_bedgraph example_loop_items (Some 0%Z) (Some 60000%Z))
    = bedgraph_line <$> example_loop_items /\
  length (fst (write_bedgraph example_loop_items (Some 1%Z) (Some 60000%Z)))
    = 0 /\
  length (fst (write_bedgraph example_loop_items (Some (-1)%Z) (Some 60000%Z)))
    = 1.
Proof. by repeat split. Qed.

(** ** The scheduler of [main] *)

Section SchedulerProperties.

Variable chromosomes_list : list String.string.
Variable threads : nat.
Variable load : String.string -> result unit.
Variable poll : nat -> nat -> option (option (list loop_item)).

Lemma visit_not_processed t i st st' :
  visit chromosomes_list load poll t i st = Ok st' ->
  all_data_processed st = false ->
  all_data_processed st' = false.
Proof.
  unfold visit. intros Hrun Hadp. rewrite Hadp in Hrun.
  destruct (queue st !! i) as [busy|]; [|done].
  destruct busy; cbn [negb andb] in Hrun.
  - destruct (bool_decide _); injection Hrun as <-; done.
  - destruct (chromosomes_list !! count_call_of_read_input st) as [c|] eqn:Hc;
      [|done].
    destruct (load c); cbn [mbind result_bind] in Hrun; [|done].
    rewrite decide_True in Hrun by (by eapply lookup_lt_Some).
    by injection Hrun as <-.
Qed.

Lemma visit_slots_not_processed t slots : forall st st',
  visit_slots chromosomes_list load poll t slots st = Ok st' ->
  all_data_processed st = false ->
  all_data_processed st' = false.
Proof.
  induction slots as [|i slots IH]; intros st st'; cbn [visit_slots].
  - by intros [= <-].
  - destruct (visit _ _ _ _ _ _) as [st1|] eqn:Hv;
      cbn [mbind result_bind]; [|done].
    intros Hrun Hadp. apply (IH st1); [done|].
    by eapply visit_not_processed.
Qed.

Lemma sweep_not_processed t st st' :
  sweep chromosomes_list threads load poll t st = Ok st' ->
  all_data_processed st = false ->
  all_data_processed st' = false.
Proof.
  unfold sweep.
  destruct (visit_slots _ _ _ _ _ _) as [st1|] eqn:Hv;
    cbn [mbind result_bind]; [|done].
  intros Hrun Hadp.
  pose proof (visit_slots_not_processed _ _ _ _ Hv Hadp) as H1.
  rewrite H1 in Hrun. by injection Hrun as <-.
Qed.

(** X23: the loop of [main] over several chromosomes is never left.
    [all_data_processed] is set only when
    [count_call_of_read_input < len(chromosomes_list)] fails, which is
    tested after [chromosomes_list[count_call_of_read_input]] has been
    read; so the flag stays false and, whatever the workers answer and for
    any number of threads, no number of iterations ends the loop with the
    collected loops: a run raises or keeps polling. *)
Theorem scheduler_never_completes fuel loops :
  scheduler_loop chromosomes_list threads load poll fuel 0
    (scheduler_start threads) <> Ok (Some loops).
Proof.
  assert (Hinv : forall t st,
            all_data_processed st = false ->
            scheduler_loop chromosomes_list threads load poll fuel t st
              <> Ok (Some loops)).
  { induction fuel as [|fuel IH]; intros t st Hadp;
      cbn [scheduler_loop]; rewrite Hadp; cbn [negb orb]; [done|].
    destruct (sweep _ _ _ _ _ _) as [st1|] eqn:Hs;
      cbn [mbind result_bind]; [|done].
    apply IH. by eapply sweep_not_processed. }
  by apply Hinv.
Qed.

Lemma visit_slots_overrun t n : forall i st,
  i + n = length chromosomes_list ->
  length chromosomes_list < threads ->
  (forall c, c ∈ chromosomes_list -> load c = Ok tt) ->
  (forall j, i <= j < threads -> queue st !! j = Some false) ->
  count_call_of_read_input st = i ->
  all_data_processed st = false ->
  visit_slots chromosomes_list load poll t (seq i (threads - i)) st
    = Raise IndexError.
Proof.
  induction n as [|n IH]; intros i st Hin Hthreads Hload Hfree Hcount Hadp.
  - destruct (threads - i) as [|k] eqn:Hk; [lia|].
    cbn [seq visit_slots]. unfold visit.
    rewrite (Hfree i) by lia. rewrite Hadp, Hcount. cbn [negb andb].
    by rewrite lookup_ge_None_2 by lia.
  - destruct (threads - i) as [|k] eqn:Hk; [lia|].
    cbn [seq visit_slots]. unfold visit at 1.
    rewrite (Hfree i) by lia. rewrite Hadp, Hcount. cbn [negb andb].
    destruct (lookup_lt_is_Some_2 chromosomes_list i) as [c Hc]; [lia|].
    rewrite Hc, (Hload c) by (by eapply list_elem_of_lookup_2).
    cbn [mbind result_bind]. rewrite decide_True by lia.
    cbn [mbind result_bind].
    replace k with (threads - S i) by lia.
    apply IH; try done; cbn [queue count_call_of_read_input all_data_processed].
    + lia.
    + intros j Hj. rewrite list_lookup_insert_ne by lia. apply Hfree. lia.
Qed.

(** X24: more threads than chromosomes.  When every chromosome loads, the
    first sweep over the slots starts one worker per chromosome and then
    reads [chromosomes_list] one position past its end for the next free
    slot: [main] raises IndexError before any result is collected. *)
Theorem scheduler_index_error fuel :
  length chromosomes_list < threads ->
  (forall c, c ∈ chromosomes_list -> load c = Ok tt) ->
  scheduler_loop chromosomes_list threads load poll (S fuel) 0
    (scheduler_start threads) = Raise IndexError.
Proof.
  intros Hthreads Hload. cbn [scheduler_loop scheduler_start all_data_processed
                              negb orb].
  unfold sweep.
  rewrite <- (Nat.sub_0_r threads) at 1.
  rewrite (visit_slots_overrun 0 (length chromosomes_list) 0); try done.
  intros j Hj. cbn [queue]. apply lookup_replicate_2. lia.
Qed.

Lemma visit_slots_start t n : forall i st,
  n = threads - i -> i <= threads ->
  (forall c, c ∈ chromosomes_list -> load c = Ok tt) ->
  (forall j, j < threads -> queue st !! j = Some (bool_decide (j < i))) ->
  all_data_processed st = false ->
  count_call_of_read_input st <= length chromosomes_list ->
  if decide (count_call_of_read_input st + n <= length chromosomes_list)
  then exists st',
         visit_slots chromosomes_list load poll t (seq i n) st = Ok st' /\
         (forall j, j < threads -> queue st' !! j = Some true) /\
         count_call_of_read_input st' = count_call_of_read_input st + n /\
         all_data_processed st' = false
  else visit_slots chromosomes_list load poll t (seq i n) st
       = Raise IndexError.
Proof.
  induction n as [|n IH]; intros i st Hn Hi Hload Hq Hadp Hcount.
  - rewrite decide_True by lia. exists st. split; [done|].
    split; [|split; [lia|done]].
    intros j Hj. rewrite (Hq j Hj). by rewrite bool_decide_eq_true_2 by lia.
  - cbn [seq visit_slots]. unfold visit.
    rewrite (Hq i) by lia. rewrite bool_decide_eq_false_2 by lia.
    rewrite Hadp. cbn [negb andb].
    destruct (chromosomes_list !! count_call_of_read_input st) as [c|] eqn:Hc.
    + pose proof (lookup_lt_Some _ _ _ Hc) as Hlt.
      rewrite (Hload c) by (by eapply list_elem_of_lookup_2).
      cbn [mbind result_bind]. rewrite (decide_True _ _ Hlt).
      cbn [mbind result_bind].
      set (st1 := {| queue := <[i:=true]> (queue st) |}).
      specialize (IH (S i) st1 ltac:(lia) ltac:(lia) Hload).
      cbn [st1 queue all_data_processed count_call_of_read_input] in IH.
      assert (Hq1 : forall j, j < threads ->
                <[i:=true]> (queue st) !! j = Some (bool_decide (j < S i))).
      { intros j Hj. destruct (decide (j = i)) as [->|Hne].
        - rewrite list_lookup_insert_eq
            by (eapply lookup_lt_Some, (Hq i); lia).
          by rewrite bool_decide_eq_true_2 by lia.
        - rewrite list_lookup_insert_ne by done. rewrite (Hq j Hj).
          f_equal. apply bool_decide_ext. lia. }
      specialize (IH Hq1 eq_refl ltac:(lia)).
      destruct (decide (S (count_call_of_read_input st) + n
                        <= length chromosomes_list)) as [Hfit|Hover].
      * rewrite decide_True by lia.
        destruct IH as (st' & Hrun & Hall & Hc' & Hadp').
        exists st'. split; [done|]. split; [done|]. split; [lia|done].
      * by rewrite decide_False by lia.
    + apply lookup_ge_None_1 in Hc. by rewrite decide_False by lia.
Qed.

Lemma visit_slots_collect t n : forall i st,
  n = threads - i -> i <= threads ->
  (forall i, is_Some (poll t i)) ->
  (forall j, j < threads -> queue st !! j = Some (negb (bool_decide (j < i)))) ->
  all_data_processed st = false ->
  exists st',
    visit_slots chromosomes_list load poll t (seq i n) st = Ok st' /\
    (forall j, j < threads -> queue st' !! j = Some false) /\
    count_call_of_read_input st' = count_call_of_read_input st /\
    all_data_processed st' = false.
Proof.
  induction n as [|n IH]; intros i st Hn Hi Hpoll Hq Hadp.
  - exists st. split; [done|]. split; [|done].
    intros j Hj. rewrite (Hq j Hj). by rewrite bool_decide_eq_true_2 by lia.
  - cbn [seq visit_slots]. unfold visit at 1.
    rewrite (Hq i) by lia. rewrite bool_decide_eq_false_2 by lia.
    cbn [negb andb]. rewrite (bool_decide_eq_true_2 _ (Hpoll i)).
    cbn [mbind result_bind].
    set (st1 := {| queue := <[i:=false]> (queue st) |}).
    destruct (IH (S i) st1 ltac:(lia) ltac:(lia) Hpoll)
      as (st' & Hrun & Hall & Hc' & Hadp'); [|done|].
    + intros j Hj. cbn [st1 queue].
      destruct (decide (j = i)) as [->|Hne].
      * rewrite list_lookup_insert_eq
          by (eapply lookup_lt_Some, (Hq i); lia).
        by rewrite bool_decide_eq_true_2 by lia.
      * rewrite list_lookup_insert_ne by done. rewrite (Hq j Hj).
        do 2 f_equal. apply bool_decide_ext. lia.
    + exists st'. split; [done|]. split; [done|]. split; [|done].
      by rewrite Hc'.
Qed.

Lemma sweep_running t st st' :
  visit_slots chromosomes_list load poll t (seq 0 threads) st = Ok st' ->
  all_data_processed st' = false ->
  sweep chromosomes_list threads load poll t st = Ok st'.
Proof.
  intros Hrun Hadp. unfold sweep. rewrite Hrun. cbn [mbind result_bind].
  by rewrite Hadp.
Qed.

Lemma scheduler_loop_step fuel t st st' :
  all_data_processed st = false ->
  sweep chromosomes_list threads load poll t st = Ok st' ->
  scheduler_loop chromosomes_list threads load poll (S fuel) t st
  = scheduler_loop chromosomes_list threads load poll fuel (S t) st'.
Proof.
  intros Hadp Hsweep. cbn [scheduler_loop]. rewrite Hadp. cbn [negb orb].
  by rewrite Hsweep.
Qed.

Lemma scheduler_loop_overrun m : forall st t,
  1 <= threads ->
  (forall c, c ∈ chromosomes_list -> load c = Ok tt) ->
  (forall t i, is_Some (poll t i)) ->
  length chromosomes_list - count_call_of_read_input st < m ->
  count_call_of_read_input st <= length chromosomes_list ->
  (forall j, j < threads -> queue st !! j = Some false) ->
  all_data_processed st = false ->
  exists fuel,
    scheduler_loop chromosomes_list threads load poll fuel t st
      = Raise IndexError.
Proof.
  induction m as [|m IH]; intros st t Hthreads Hload Hpoll Hm Hcount Hq Hadp;
    [lia|].
  pose proof (visit_slots_start t threads 0 st ltac:(lia) ltac:(lia) Hload)
    as Hstart.
  specialize (Hstart Hq Hadp Hcount).
  destruct (decide (count_call_of_read_input st + threads
                    <= length chromosomes_list)) as [Hfit|Hover].
  - destruct Hstart as (st1 & Hrun1 & Hq1 & Hc1 & Hadp1).
    destruct (visit_slots_collect (S t) threads 0 st1 ltac:(lia) ltac:(lia)
                (Hpoll (S t)) Hq1 Hadp1) as (st2 & Hrun2 & Hq2 & Hc2 & Hadp2).
    destruct (IH st2 (S (S t)) Hthreads Hload Hpoll) as [fuel Hfuel];
      [lia|lia|done|done|].
    exists (S (S fuel)).
    rewrite (scheduler_loop_step _ t st st1 Hadp)
      by (by apply sweep_running).
    by rewrite (scheduler_loop_step _ (S t) st1 st2 Hadp1)
      by (by apply sweep_running).
  - exists 1. cbn [scheduler_loop]. rewrite Hadp. cbn [negb orb].
    unfold sweep. by rewrite Hstart.
Qed.

(** X25: with at least one thread, chromosomes that all load and workers
    whose answer is found at every poll, the loop of [main] over several
    chromosomes ends by raising IndexError: once every chromosome has been
    handed to a worker, the next free slot reads [chromosomes_list] one
    position past its end. *)
Theorem scheduler_raises_index_error :
  1 <= threads ->
  (forall c, c ∈ chromosomes_list -> load c = Ok tt) ->
  (forall t i, is_Some (poll t i)) ->
  exists fuel,
    scheduler_loop chromosomes_list threads load poll fuel 0
      (scheduler_start threads) = Raise IndexError.
Proof.
  intros Hthreads Hload Hpoll.
  apply (scheduler_loop_overrun (S (length chromosomes_list))); try done.
  - simpl. lia.
  - simpl. lia.
  - intros j Hj. cbn [scheduler_start queue]. by apply lookup_replicate_2.
Qed.

End SchedulerProperties.

Lemma scheduler_index_error_witness :
  scheduler_loop example_chromosomes 4 (fun _ => Ok tt)
    (fun _ _ => None) 1 0 (scheduler_start 4) = Raise IndexError.
Proof.
  apply scheduler_index_error.
  - unfold example_chromosomes. simpl. lia.
  - done.
Defined.

Lemma scheduler_raises_index_error_witness :
  exists fuel,
    scheduler_loop example_chromosomes 1 (fun _ => Ok tt)
      (fun _ _ => Some None) fuel 0 (scheduler_start 1) = Raise IndexError.
Proof.
  apply scheduler_raises_index_error.
  - lia.
  - done.
  - intros t i. by eexists.
Defined.
